(** * Team generator: chromosome model, genetic operators, type chart

    A shallow embedding of the evolutionary search core
    (src/lib/genetic/chromosome.ts, src/lib/genetic/operators.ts,
    src/lib/data/pokemon.ts, the two type-chart modules and the
    mode bonuses of src/lib/genetic/fitness.ts) together with the
    properties stated for it; further, the random construction of
    chromosomes, the moves module, the coverage statistics of the type chart
    and two scoring components of the fitness engine.

    Conventions of the embedding.
    - A JavaScript array of strings is a list of cells: a string, the value
      [undefined], or a hole of a sparse array.  Reading past the end or
      reading a hole gives [undefined]; writing past the end extends the
      array with holes, as JavaScript does.
    - A call that raises a TypeError (a method call on [undefined]) yields
      [Throw].
    - [Math.random()] is a draw from an explicit stream of rationals of
      [0,1).
    - Fitness values, rates and thresholds are finite numbers, modelled as
      rationals with exact arithmetic.  Where NaN or the rounding of doubles
      is the point (the fitness of an empty team, the diversity ratio, the
      type chart, the spread that [hasConverged] compares with its
      threshold), numbers are IEEE 754 doubles. *)

From Stdlib Require Import ZArith QArith Qround Lqa String Ascii Lia.
From Stdlib Require Import Floats Uint63.
From stdpp Require Import base list gmap sets strings sorting.

Local Open Scope nat_scope.

(** Decimal literals denote the nearest double, as in JavaScript. *)
#[local] Set Warnings "-inexact-float".

(** ** Outcomes and the random source *)

Inductive outcome (A : Type) : Type :=
  | Ok (a : A)
  | Throw
  | OutOfFuel.
Arguments Ok {A} a.
Arguments Throw {A}.
Arguments OutOfFuel {A}.

#[global] Instance outcome_ret : MRet outcome := @Ok.
#[global] Instance outcome_bind : MBind outcome := λ A B f m,
  match m with
  | Ok a => f a
  | Throw => Throw
  | OutOfFuel => OutOfFuel
  end.

(** The loop [for (const x of xs) body] threading the variables it assigns. *)
Fixpoint for_each {S X : Type} (body : S → X → outcome S) (xs : list X) (s : S)
  : outcome S :=
  match xs with
  | [] => Ok s
  | x :: xs' => s' ← body s x; for_each body xs' s'
  end.

Definition in_unit (q : Q) : bool := Qle_bool 0 q && negb (Qle_bool 1 q).

(** One value of [Math.random()]. *)
Record U01 : Type := MkU01 { u01 : Q; u01_ok : in_unit u01 = true }.

(** The random source: a stream of draws and the number already consumed. *)
Record Rng : Type := MkRng { draws : nat → U01; pos : nat }.

Definition Rand (A : Type) : Type := Rng → outcome (A * Rng).

#[global] Instance Rand_ret : MRet Rand := λ A a g, Ok (a, g).
#[global] Instance Rand_bind : MBind Rand := λ A B f m g,
  match m g with
  | Ok (a, g') => f a g'
  | Throw => Throw
  | OutOfFuel => OutOfFuel
  end.

Definition lift {A : Type} (m : outcome A) : Rand A := λ g,
  match m with
  | Ok a => Ok (a, g)
  | Throw => Throw
  | OutOfFuel => OutOfFuel
  end.

(** The source after one more draw. *)
Definition advance (g : Rng) : Rng :=
  {| draws := draws g; pos := Datatypes.S (pos g) |}.

(** [Math.random()] *)
Definition random : Rand U01 := λ g, Ok (draws g (pos g), advance g).

(** [Math.floor(r * len)]; on doubles too the product of a number below 1
    and a length stays below the length. *)
Definition random_index (r : U01) (len : nat) : nat :=
  Z.to_nat (Qfloor (u01 r * inject_Z (Z.of_nat len))).

(** [arr[Math.floor(Math.random() * arr.length)]]; [None] is [undefined]. *)
Definition pick {A : Type} (arr : list A) : Rand (option A) :=
  r ← random; mret (arr !! random_index r (length arr)).

(** ** Arrays of species ids *)

Inductive cell : Type :=
  | Str (s : string)
  | Undefined
  | Hole.

#[global] Instance cell_eq_dec : EqDecision cell.
Proof. solve_decision. Defined.

(** [arr[i]] *)
Definition array_get (arr : list cell) (i : nat) : cell :=
  match arr !! i with
  | Some (Str s) => Str s
  | _ => Undefined
  end.

(** [arr[i] = v] *)
Definition array_set (arr : list cell) (i : nat) (v : cell) : list cell :=
  if decide (i < length arr) then <[i := v]> arr
  else arr ++ replicate (i - length arr) Hole ++ [v].

(** [[...arr]]: the copy is dense, holes become [undefined]. *)
Definition spread (arr : list cell) : list cell :=
  (λ v, match v with Hole => Undefined | _ => v end) <$> arr.

(** ** src/lib/data/pokemon.ts *)

(** [speciesId.split('_')[0]] *)
Fixpoint getBaseSpecies (speciesId : string) : string :=
  match speciesId with
  | EmptyString => EmptyString
  | String c rest =>
      if Ascii.eqb c "_"%char then EmptyString
      else String c (getBaseSpecies rest)
  end.

(** [getBaseSpecies] applied to an array element: [undefined.split] raises. *)
Definition baseOf (v : cell) : outcome string :=
  match v with
  | Str s => Ok (getBaseSpecies s)
  | _ => Throw
  end.

(** [team.map(getBaseSpecies)]: holes are skipped and stay holes ([None]). *)
Fixpoint map_bases (team : list cell) : outcome (list (option string)) :=
  match team with
  | [] => Ok []
  | Hole :: rest => bs ← map_bases rest; Ok (None :: bs)
  | v :: rest => b ← baseOf v; bs ← map_bases rest; Ok (Some b :: bs)
  end.

(** [new Set(baseSpecies).size === baseSpecies.length]; iterating the array
    reads a hole as [undefined], which is [None] in the set. *)
Definition validateTeamUniqueness (team : list cell) : outcome bool :=
  baseSpecies ← map_bases team;
  let uniqueBase : gset (option string) := list_to_set baseSpecies in
  Ok (size uniqueBase =? length baseSpecies).

(** ** src/lib/genetic/chromosome.ts *)

Inductive TournamentMode : Type := GBL | PlayPokemon.

Record Chromosome : Type := MkChromosome {
  team : list cell;
  anchors : list nat;
  fitness : Q
}.

Definition teamSize (mode : TournamentMode) : nat :=
  match mode with GBL => 3 | PlayPokemon => 6 end.

Definition createChromosome (team : list cell) (anchors : option (list nat))
  : Chromosome :=
  {| team := team; anchors := default [] anchors; fitness := 0%Q |}.

Definition isValidChromosome (chromosome : Chromosome) (mode : TournamentMode)
  : outcome bool :=
  let expectedSize := teamSize mode in
  if negb (length (team chromosome) =? expectedSize) then Ok false
  else
    unique ← validateTeamUniqueness (team chromosome);
    if negb unique then Ok false else Ok true.

Definition cloneChromosome (chromosome : Chromosome) : Chromosome :=
  {| team := spread (team chromosome);
     anchors := anchors chromosome;
     fitness := fitness chromosome |}.

Definition isAnchorSlot (index : nat) (chromosome : Chromosome) : bool :=
  bool_decide (index ∈ anchors chromosome).

Definition getMutableSlots (chromosome : Chromosome) (teamSize : nat)
  : list nat :=
  let allSlots := seq 0 teamSize in
  filter (λ i, isAnchorSlot i chromosome = false) allSlots.

(** ** src/lib/genetic/operators.ts *)

(** [slot < crossoverPoint]; a comparison with [undefined] is false. *)
Definition before_point (slot : nat) (crossoverPoint : option nat) : bool :=
  match crossoverPoint with Some p => slot <? p | None => false end.

(** [slot >= crossoverPoint] *)
Definition from_point (slot : nat) (crossoverPoint : option nat) : bool :=
  match crossoverPoint with Some p => p <=? slot | None => false end.

(** First loop of [crossover]: the base species of the anchors. *)
Definition anchor_species (child : Chromosome) (teamSize : nat)
  : outcome (gset string) :=
  for_each (λ usedBaseSpecies i,
      if isAnchorSlot i child then
        b ← baseOf (array_get (team child) i);
        Ok ({[ b ]} ∪ usedBaseSpecies)
      else Ok usedBaseSpecies)
    (seq 0 teamSize) ∅.

(** Second loop: parent 1's base species at mutable slots before the point. *)
Definition head_species (child : Chromosome) (mutableSlots : list nat)
    (crossoverPoint : option nat) (used : gset string) : outcome (gset string) :=
  for_each (λ usedBaseSpecies slot,
      if before_point slot crossoverPoint then
        b ← baseOf (array_get (team child) slot);
        Ok ({[ b ]} ∪ usedBaseSpecies)
      else Ok usedBaseSpecies)
    mutableSlots used.

(** Third loop: copy parent 2's entries from the point on, skipping the ones
    whose base species is already used. *)
Definition copy_tail (parent2 : Chromosome) (mutableSlots : list nat)
    (crossoverPoint : option nat) (childTeam : list cell) (used : gset string)
  : outcome (list cell * gset string) :=
  for_each (λ '(childTeam, usedBaseSpecies) slot,
      if from_point slot crossoverPoint then
        let parent2Species := array_get (team parent2) slot in
        parent2Base ← baseOf parent2Species;
        if decide (parent2Base ∈ usedBaseSpecies) then
          Ok (childTeam, usedBaseSpecies)
        else
          Ok (array_set childTeam slot parent2Species,
              {[ parent2Base ]} ∪ usedBaseSpecies)
      else Ok (childTeam, usedBaseSpecies))
    mutableSlots (childTeam, used).

(** The child team as it stands just before the final validation. *)
Definition crossover_team (parent1 parent2 : Chromosome) (mode : TournamentMode)
    (crossoverPoint : option nat) : outcome (list cell) :=
  let teamSize := teamSize mode in
  let child := cloneChromosome parent1 in
  let mutableSlots := getMutableSlots child teamSize in
  used0 ← anchor_species child teamSize;
  used1 ← head_species child mutableSlots crossoverPoint used0;
  '(childTeam, _) ← copy_tail parent2 mutableSlots crossoverPoint (team child) used1;
  Ok childTeam.

Definition crossover (parent1 parent2 : Chromosome) (mode : TournamentMode)
  : Rand Chromosome :=
  let teamSize := teamSize mode in
  let child := cloneChromosome parent1 in
  let mutableSlots := getMutableSlots child teamSize in
  if length mutableSlots =? 0 then mret child
  else
    crossoverPoint ← pick mutableSlots;
    childTeam ← lift (crossover_team parent1 parent2 mode crossoverPoint);
    unique ← lift (validateTeamUniqueness childTeam);
    if negb unique then mret (cloneChromosome parent1)
    else mret {| team := childTeam;
                 anchors := anchors child;
                 fitness := fitness child |}.

(** [mutated.team.map((s) => getBaseSpecies(s))] on a dense array. *)
Definition team_bases (team : list cell) : outcome (list string) :=
  for_each (λ acc v, b ← baseOf v; Ok (acc ++ [b])) team [].

(** [mutated.team[slotToMutate] = newSpecies]; with [slotToMutate] undefined
    the assignment creates a property and leaves the elements alone. *)
Definition team_assign (team : list cell) (slot : option nat) (v : cell)
  : list cell :=
  match slot with Some i => array_set team i v | None => team end.

Definition mutate (chromosome : Chromosome) (pokemonPool : list string)
    (mutationRate : Q) (mode : TournamentMode) : Rand Chromosome :=
  r ← random;
  if negb (Qle_bool (u01 r) mutationRate) then mret chromosome
  else
    let teamSize := teamSize mode in
    let mutated := cloneChromosome chromosome in
    let mutableSlots := getMutableSlots mutated teamSize in
    if length mutableSlots =? 0 then mret mutated
    else
      slotToMutate ← pick mutableSlots;
      bases ← lift (team_bases (team mutated));
      let usedBaseSpecies : gset string := list_to_set bases in
      let availablePool :=
        filter (λ s, getBaseSpecies s ∉ usedBaseSpecies) pokemonPool in
      if length availablePool =? 0 then mret mutated
      else
        newSpecies ← pick availablePool;
        let newTeam :=
          team_assign (team mutated) slotToMutate
            (from_option Str Undefined newSpecies) in
        unique ← lift (validateTeamUniqueness newTeam);
        if negb unique then mret chromosome
        else mret {| team := newTeam;
                     anchors := anchors mutated;
                     fitness := fitness mutated |}.

(** [Array.prototype.sort]: the language requires a stable sort; for a
    consistent order every stable sort returns the same array, here computed
    by stable insertion.  [before x y] says that [x] need not move behind
    [y]. *)
Fixpoint sort_insert {A : Type} (before : A → A → bool) (x : A)
    (sorted : list A) : list A :=
  match sorted with
  | [] => [x]
  | y :: rest =>
      if before x y then x :: y :: rest else y :: sort_insert before x rest
  end.

Definition array_sort {A : Type} (before : A → A → bool) (arr : list A)
  : list A :=
  foldr (sort_insert before) [] arr.

(** [arr.sort(compareFn)]: [a] stays in front of [b] when
    [compareFn(a, b) <= 0]. *)
Definition sort_with {A : Type} (compareFn : A → A → Q) (arr : list A) : list A :=
  array_sort (λ a b, Qle_bool (compareFn a b) 0) arr.

(** [arr.slice(0, end)] for an integer [end]. *)
Definition slice0 {A : Type} (arr : list A) (end_ : Z) : list A :=
  let len := Z.of_nat (length arr) in
  let final := if (end_ <? 0)%Z then Z.max (len + end_) 0 else Z.min end_ len in
  take (Z.to_nat final) arr.

(** The tournament of [tournamentSelection]: [tournamentSize] random reads of
    the population, [None] when the read is out of range. *)
Fixpoint draw_tournament (population : list Chromosome) (tournamentSize : nat)
  : Rand (list (option Chromosome)) :=
  match tournamentSize with
  | 0 => mret []
  | Datatypes.S k =>
      c ← pick population;
      rest ← draw_tournament population k;
      mret (c :: rest)
  end.

(** [tournament.reduce((best, current) => ...)] without an initial value. *)
Definition reduce_best (tournament : list (option Chromosome))
  : outcome (option Chromosome) :=
  match tournament with
  | [] => Throw
  | first :: rest =>
      for_each (λ best current,
          match current, best with
          | Some c, Some b =>
              if negb (Qle_bool (fitness c) (fitness b)) then Ok current
              else Ok best
          | _, _ => Throw
          end)
        rest first
  end.

Definition tournamentSelection (population : list Chromosome)
    (tournamentSize : nat) : Rand (option Chromosome) :=
  tournament ← draw_tournament population tournamentSize;
  lift (reduce_best tournament).

Definition selectElites (population : list Chromosome) (eliteCount : Z)
  : list Chromosome :=
  let sorted := sort_with (λ a b, fitness b - fitness a)%Q population in
  cloneChromosome <$> slice0 sorted eliteCount.

(** The options object; an absent property is [None], and [eliteCount] is an
    integer when given. *)
Record Options : Type := MkOptions {
  eliteCount : option Z;
  crossoverRate : option Q;
  mutationRate : option Q
}.

(** One round of the filling loop of [createNextGeneration]. *)
Definition breed (population : list Chromosome) (pokemonPool : list string)
    (mode : TournamentMode) (crossoverRate mutationRate : Q) : Rand Chromosome :=
  parent1 ← tournamentSelection population 3;
  parent2 ← tournamentSelection population 3;
  r ← random;
  child ←
    (if negb (Qle_bool crossoverRate (u01 r)) then
       match parent1, parent2 with
       | Some p1, Some p2 => crossover p1 p2 mode
       | _, _ => lift Throw
       end
     else
       match parent1 with
       | Some p1 => mret (cloneChromosome p1)
       | None => lift Throw
       end);
  mutate child pokemonPool mutationRate mode.

(** [while (nextGeneration.length < population.length) { ... }] *)
Fixpoint fill_generation (fuel : nat) (population : list Chromosome)
    (pokemonPool : list string) (mode : TournamentMode)
    (crossoverRate mutationRate : Q) (nextGeneration : list Chromosome)
  : Rand (list Chromosome) :=
  if length nextGeneration <? length population then
    match fuel with
    | 0 => lift OutOfFuel
    | Datatypes.S fuel' =>
        child ← breed population pokemonPool mode crossoverRate mutationRate;
        fill_generation fuel' population pokemonPool mode
          crossoverRate mutationRate (nextGeneration ++ [child])
    end
  else mret nextGeneration.

(** [Math.ceil(population.length * 0.1)] *)
Definition default_eliteCount (population : list Chromosome) : Z :=
  Qceiling (inject_Z (Z.of_nat (length population)) * (1 # 10)).

Definition createNextGeneration (population : list Chromosome)
    (pokemonPool : list string) (mode : TournamentMode) (options : Options)
  : Rand (list Chromosome) :=
  let eliteCount := default (default_eliteCount population) (eliteCount options) in
  let crossoverRate := default (8 # 10)%Q (crossoverRate options) in
  let mutationRate := default (2 # 10)%Q (mutationRate options) in
  let elites := selectElites population eliteCount in
  fill_generation (length population) population pokemonPool mode
    crossoverRate mutationRate elites.

(** ** Population utilities of src/lib/genetic/chromosome.ts *)

Definition sortByFitness (population : list Chromosome) : list Chromosome :=
  sort_with (λ a b, fitness b - fitness a)%Q population.

Definition getBestChromosome (population : list Chromosome)
  : option Chromosome :=
  sortByFitness population !! 0.

(** [sortByFitness(population)[population.length - 1]]; index [-1] is not an
    element. *)
Definition getWorstChromosome (population : list Chromosome)
  : option Chromosome :=
  match length population with
  | 0 => None
  | Datatypes.S k => sortByFitness population !! k
  end.

(** [Math.ceil(population.length * 0.3)] *)
Definition topCount (population : list Chromosome) : Z :=
  Qceiling (inject_Z (Z.of_nat (length population)) * (3 # 10)).

(** ** Doubles

    Where a result can leave the finite numbers (0/0) or where rounding is
    the point, JavaScript numbers are IEEE 754 doubles. *)

Definition float_of_Z (z : Z) : float :=
  if (z <? 0)%Z then PrimFloat.opp (PrimFloat.of_uint63 (Uint63.of_Z (- z)))
  else PrimFloat.of_uint63 (Uint63.of_Z z).

(** The length of an array as a number. *)
Definition of_nat (n : nat) : float := float_of_Z (Z.of_nat n).

(** [Math.min(a, b)] (of two zeros of opposite sign it may return either). *)
Definition js_min (a b : float) : float :=
  if PrimFloat.is_nan a || PrimFloat.is_nan b then PrimFloat.nan
  else if PrimFloat.ltb b a then b else a.

(** The value of a finite double. *)
Definition float_value (x : float) : option Q :=
  match Prim2SF x with
  | S754_zero _ => Some 0%Q
  | S754_finite negative m e =>
      let magnitude :=
        if (e <? 0)%Z then (Z.pos m # Pos.pow 2 (Z.to_pos (- e)))%Q
        else inject_Z (Z.pos m * 2 ^ e) in
      Some (if negative then (- magnitude)%Q else magnitude)
  | _ => None
  end.

(** [Math.round(x)]: the nearest integer, halves upwards; a double of
    magnitude 2^52 or more is an integer already (the sign of a zero result
    is not kept). *)
Definition js_round (x : float) : float :=
  if PrimFloat.leb 0x1p52%float (PrimFloat.abs x) then x
  else
    match float_value x with
    | Some q => float_of_Z (Qfloor (q + (1 # 2)))
    | None => x
    end.

(** ** [hasConverged]: the spread is a difference of doubles

    A fitness is carried as the rational value of the double the program
    holds, and [double] gives that double back where the program computes
    with it. *)

(** The double nearest to [q], ties to even, as JavaScript reads a number
    written out; at the value of a double, that double (for the value 0
    the positive zero; subtraction followed by [<] does not tell it from
    the negative one).  The division rounds once, the numerator and the
    denominator enter it as they are. *)
Definition double (q : Q) : float :=
  let q := Qred q in
  let denominator := S754_finite false (Qden q) 0 in
  SF2Prim
    match Qnum q with
    | Z0 => S754_zero false
    | Zpos n => SFdiv prec emax (S754_finite false n 0) denominator
    | Zneg n => SFdiv prec emax (S754_finite true n 0) denominator
    end.

(** [q] is the value of a double. *)
Definition is_double (q : Q) : bool :=
  match float_value (double q) with
  | Some v => Qeq_bool v q
  | None => false
  end.

Definition hasConverged (population : list Chromosome) (threshold : float)
  : outcome bool :=
  let sorted := sortByFitness population in
  let topPopulation := slice0 sorted (topCount population) in
  if length topPopulation =? 0 then Ok true
  else
    match topPopulation !! 0, topPopulation !! (length topPopulation - 1) with
    | Some best, Some last =>
        let maxFitness := double (fitness best) in
        let minFitness := double (fitness last) in
        let range := (maxFitness - minFitness)%float in
        Ok (PrimFloat.ltb range threshold)
    | _, _ => Throw
    end.

(** ** [calculateDiversity]: the one utility that writes to the teams *)

Definition cell_string (v : cell) : option string :=
  match v with Str s => Some s | _ => None end.

(** [arr.sort()] without a comparator, in place: strings in code-unit order,
    then the [undefined] values, then the holes. *)
Definition default_sort (arr : list cell) : list cell :=
  (Str <$> array_sort String.leb (omap cell_string arr))
  ++ filter (λ v, v = Undefined) arr
  ++ filter (λ v, v = Hole) arr.

(** [arr.join(',')]: [undefined] and holes print as the empty string. *)
Definition join_comma (arr : list cell) : string :=
  String.concat "," ((λ v, default EmptyString (cell_string v)) <$> arr).

(** [c.team.sort()] as it leaves the chromosome. *)
Definition sort_team_in_place (c : Chromosome) : Chromosome :=
  {| team := default_sort (team c); anchors := anchors c; fitness := fitness c |}.

(** Returns the diversity together with the population as the call leaves
    it: [c.team.sort()] sorts the team array of each chromosome itself. *)
Definition calculateDiversity (population : list Chromosome)
  : float * list Chromosome :=
  let after := sort_team_in_place <$> population in
  let uniqueTeams : gset string :=
    list_to_set ((λ c, join_comma (team c)) <$> after) in
  (PrimFloat.div (of_nat (size uniqueTeams)) (of_nat (length population)),
   after).

(** ** The two type-chart modules

    The chart itself is data ([type-effectiveness.json]): a map from the
    attacking type to a map from the defending type to the multiplier. *)

Definition lower_ascii (c : ascii) : ascii :=
  let n := nat_of_ascii c in
  if (65 <=? n) && (n <=? 90) then ascii_of_nat (n + 32) else c.

(** [s.toLowerCase()] on ASCII letters. *)
Fixpoint toLowerCase (s : string) : string :=
  match s with
  | EmptyString => EmptyString
  | String c rest => String (lower_ascii c) (toLowerCase rest)
  end.

(** [typeChart[attack]?.[defense]]; [None] is [undefined]. *)
Definition chart_entry (typeChart : gmap string (gmap string float))
    (attack defense : string) : option float :=
  row ← typeChart !! attack; row !! defense.

(** The loop shared by both modules. *)
Definition multiply_entries (typeChart : gmap string (gmap string float))
    (attackType : string) (defenseTypes : list string) : float :=
  let normalizedAttack := toLowerCase attackType in
  fold_left (λ multiplier defType,
      let normalizedDef := toLowerCase defType in
      match chart_entry typeChart normalizedAttack normalizedDef with
      | Some factor => PrimFloat.mul multiplier factor
      | None => multiplier
      end)
    defenseTypes 1%float.

(** src/lib/coverage/typeChart.ts, the module the fitness engine imports. *)
Module Coverage.

Definition calculateEffectiveness (typeChart : gmap string (gmap string float))
    (attackType : string) (defenseTypes : list string) : float :=
  multiply_entries typeChart attackType defenseTypes.

End Coverage.

(** The second type-chart module (arguments in the other order), with the
    rounding and the category names. *)
Module Effectiveness.

Definition calculateEffectiveness (typeChart : gmap string (gmap string float))
    (defenseTypes : list string) (attackType : string) : float :=
  let multiplier := multiply_entries typeChart attackType defenseTypes in
  PrimFloat.div (js_round (PrimFloat.mul multiplier 1000000%float))
                1000000%float.

(** The multiplier ranges over the rationals, the literals stand for their
    decimal values. *)
Definition getEffectivenessCategory (multiplier : Q) : string :=
  if Qle_bool 2 multiplier then "Double Super Effective"
  else if Qle_bool (16 # 10) multiplier then "Super Effective"
  else if negb (Qle_bool multiplier 1) then "Effective"
  else if Qeq_bool multiplier 1 then "Neutral"
  else if Qle_bool (625 # 1000) multiplier then "Not Very Effective"
  else if Qle_bool (39 # 100) multiplier then "Resisted"
  else "Heavily Resisted".

End Effectiveness.

(** ** src/lib/genetic/fitness.ts: the guards and the mode bonuses

    Every component first looks the team up in the knowledge store; what it
    computes from a non-empty roster is a field of the store record below
    and is not modelled further. *)

Record Rankings : Type := MkRankings { average : float; overall : float }.

Record KnowledgeStore : Type := MkStore {
  Pokemon : Type;
  getPokemonBySpeciesId : string → option Pokemon;
  (** [speciesIdToRankingName] applied to an array element *)
  speciesIdToRankingName : cell → outcome string;
  getAllRankingsForPokemon : string → Rankings;
  typeCoverageOf : list Pokemon → float;
  threeLineupOf : list cell → float;
  bestLineupOf : list cell → float;
  metaThreatOf : list Pokemon → float;
  energyOf : list Pokemon → float;
  typeDiversityOf : list Pokemon → float;
  typeSynergyOf : list Pokemon → float;
  statBalanceOf : list Pokemon → float;
  shadowPreferenceOf : list Pokemon → float;
  anchorSynergyOf : list Pokemon → list Pokemon → float
}.

(** [team.map((id) => getPokemonBySpeciesId(id)).filter(Boolean)] *)
Definition teamPokemon (ks : KnowledgeStore) (team : list cell)
  : list (Pokemon ks) :=
  omap (λ v, s ← cell_string v; getPokemonBySpeciesId ks s) team.

(** [if (teamPokemon.length === 0) return 0;] followed by the scoring. *)
Definition guarded (ks : KnowledgeStore) (score : list (Pokemon ks) → float)
    (team : list cell) : float :=
  let roster := teamPokemon ks team in
  if length roster =? 0 then 0%float else score roster.

Definition calculateTypeCoverageScore ks := guarded ks (typeCoverageOf ks).
Definition calculateMetaThreatScore ks := guarded ks (metaThreatOf ks).
Definition calculateEnergyScore ks := guarded ks (energyOf ks).
Definition calculateTypeDiversity ks := guarded ks (typeDiversityOf ks).
Definition calculateTypeSynergy ks := guarded ks (typeSynergyOf ks).
Definition calculateStatBalance ks := guarded ks (statBalanceOf ks).
Definition calculateShadowPreference ks := guarded ks (shadowPreferenceOf ks).

Definition rankingsOf (ks : KnowledgeStore) (speciesId : cell)
  : outcome Rankings :=
  rankingName ← speciesIdToRankingName ks speciesId;
  Ok (getAllRankingsForPokemon ks rankingName).

(** [for (const x of team)] reads a hole as [undefined]. *)
Definition iterate (team : list cell) : list cell := spread team.

Definition calculateRankingScore (ks : KnowledgeStore) (team : list cell)
  : outcome float :=
  '(totalScore, validCount) ←
    for_each (λ '(totalScore, validCount) speciesId,
        rankings ← rankingsOf ks speciesId;
        if PrimFloat.ltb 0 (average rankings) then
          Ok (PrimFloat.add totalScore (average rankings),
              Datatypes.S validCount)
        else Ok (totalScore, validCount))
      (iterate team) (0%float, 0);
  if validCount =? 0 then Ok 0%float
  else Ok (totalScore / of_nat validCount / 100)%float.

Definition evaluateThreeLineup (ks : KnowledgeStore) (lineup : list cell)
  : float :=
  if negb (length lineup =? 3) then 0%float else threeLineupOf ks lineup.

Definition evaluateBestLineup (ks : KnowledgeStore) (team : list cell)
  : float :=
  if negb (length team =? 6) then 0%float else bestLineupOf ks team.

Definition calculateStrategyScore (ks : KnowledgeStore) (team : list cell)
    (mode : TournamentMode) : float :=
  match mode with
  | GBL => evaluateThreeLineup ks team
  | PlayPokemon => evaluateBestLineup ks team
  end.

Definition calculateSurpriseFactor (ks : KnowledgeStore) (team : list cell)
  : outcome float :=
  surpriseScore ←
    for_each (λ surpriseScore speciesId,
        rankings ← rankingsOf ks speciesId;
        let s1 :=
          if PrimFloat.leb 60 (overall rankings)
             && PrimFloat.ltb (overall rankings) 80
          then (surpriseScore + 0.3)%float else surpriseScore in
        let s2 :=
          if PrimFloat.ltb 0 (overall rankings)
             && PrimFloat.ltb (overall rankings) 60
          then (s1 + 0.5)%float else s1 in
        Ok s2)
      (iterate team) 0%float;
  Ok (js_min (surpriseScore / of_nat (length team))%float 1%float).

Definition calculateConsistency (ks : KnowledgeStore) (team : list cell)
  : outcome float :=
  consistencyScore ←
    for_each (λ consistencyScore speciesId,
        rankings ← rankingsOf ks speciesId;
        if PrimFloat.leb 85 (average rankings) then
          Ok (consistencyScore + 1)%float
        else if PrimFloat.leb 75 (average rankings) then
          Ok (consistencyScore + 0.5)%float
        else Ok consistencyScore)
      (iterate team) 0%float;
  Ok (consistencyScore / of_nat (length team))%float.

Definition calculateAnchorSynergy (ks : KnowledgeStore) (team : list cell)
    (anchorIndices : list nat) : float :=
  if length anchorIndices =? 0 then 0%float
  else
    let anchors :=
      omap (λ i, s ← cell_string (array_get team i); getPokemonBySpeciesId ks s)
        anchorIndices in
    let nonAnchors :=
      omap (λ '(i, v),
          if bool_decide (i ∈ anchorIndices) then None
          else s ← cell_string v; getPokemonBySpeciesId ks s)
        (imap (λ i v, (i, v)) team) in
    if (length anchors =? 0) || (length nonAnchors =? 0) then 0%float
    else anchorSynergyOf ks anchors nonAnchors.

Definition calculateFitness (ks : KnowledgeStore) (chromosome : Chromosome)
    (mode : TournamentMode) : outcome float :=
  let team := team chromosome in
  let anchors := anchors chromosome in
  let typeCoverage := (calculateTypeCoverageScore ks team * 0.25)%float in
  ranking ← calculateRankingScore ks team;
  let avgRanking := (ranking * 0.15)%float in
  let strategyViability := (calculateStrategyScore ks team mode * 0.1)%float in
  let metaThreatCoverage := (calculateMetaThreatScore ks team * 0.05)%float in
  let energyBreakpoints := (calculateEnergyScore ks team * 0.05)%float in
  let typeDiversity := (calculateTypeDiversity ks team * 0.08)%float in
  let typeSynergy := (calculateTypeSynergy ks team * 0.2)%float in
  let statBalance := (calculateStatBalance ks team * 0.12)%float in
  let shadowPreference := (calculateShadowPreference ks team * 0.08)%float in
  let fitness0 :=
    (typeCoverage + avgRanking + strategyViability + metaThreatCoverage
     + energyBreakpoints + typeDiversity + typeSynergy + statBalance
     + shadowPreference)%float in
  fitness1 ←
    match mode with
    | GBL =>
        surpriseFactor ← calculateSurpriseFactor ks team;
        Ok (fitness0 + surpriseFactor * 0.15)%float
    | PlayPokemon => Ok fitness0
    end;
  fitness2 ←
    match mode with
    | PlayPokemon =>
        consistency ← calculateConsistency ks team;
        Ok (fitness1 + consistency * 0.1)%float
    | GBL => Ok fitness1
    end;
  if 0 <? length anchors then
    Ok (fitness2 + calculateAnchorSynergy ks team anchors * 0.5)%float
  else Ok fitness2.

(** * Further functions *)

(** ** Adaptive mutation rate (src/lib/genetic/operators.ts) *)

(** [Math.min(a, b)] and [Math.max(a, b)] on finite numbers. *)
Definition q_min (a b : Q) : Q := if Qle_bool a b then a else b.
Definition q_max (a b : Q) : Q := if Qle_bool a b then b else a.

Definition getAdaptiveMutationRate (diversity : Q)
    (baseMutationRate : option Q) : Q :=
  let baseMutationRate := default (2 # 10)%Q baseMutationRate in
  if negb (Qle_bool (3 # 10) diversity) then
    q_min (baseMutationRate * 2) (5 # 10)
  else if negb (Qle_bool diversity (7 # 10)) then
    q_max (baseMutationRate * (5 # 10)) (5 # 100)
  else baseMutationRate.

(** The order of [arr.sort()] on strings. *)
Definition string_le (a b : string) : Prop := String.leb a b = true.

(** An array as [arr.sort()] leaves it: the strings first, in non-descending
    order, then the [undefined] values, then the holes. *)
Definition sorted_team (t : list cell) : Prop :=
  ∃ (names : list string) (undefineds holes : nat),
    t = (Str <$> names) ++ replicate undefineds Undefined
        ++ replicate holes Hole
    ∧ StronglySorted string_le names.

(** The type names whose look-up in the chart is an own-key look-up and
    whose [toLowerCase] changes ASCII letters only: names of ASCII
    characters that in lower case are neither of the keys a plain object
    inherits, [constructor] and [__proto__]. *)
Definition plain_name (s : string) : bool :=
  forallb (λ c, nat_of_ascii c <? 128) (list_ascii_of_string s)
  && negb (String.eqb (toLowerCase s) "constructor")
  && negb (String.eqb (toLowerCase s) "__proto__").

(** ** src/lib/data/pokemon.ts, further *)

Definition isSameBaseSpecies (speciesId1 speciesId2 : string) : bool :=
  String.eqb (getBaseSpecies speciesId1) (getBaseSpecies speciesId2).

(** [s.includes(needle)] *)
Fixpoint includes (needle s : string) : bool :=
  String.prefix needle s
  || match s with
     | EmptyString => false
     | String _ rest => includes needle rest
     end.

Definition isShadow (speciesId : string) : bool := includes "_shadow" speciesId.

(** ** [createRandomChromosome] and [initializePopulation]
    (src/lib/genetic/chromosome.ts) *)

(** The loop [for (const x of xs) body] around calls of [Math.random()]. *)
Fixpoint for_each_rand {S X : Type} (body : S → X → Rand S) (xs : list X)
    (s : S) : Rand S :=
  match xs with
  | [] => mret s
  | x :: xs' => s' ← body s x; for_each_rand body xs' s'
  end.

Record BaseStats : Type := MkBaseStats { atk : float; def : float; hp : float }.

(** The eighteen type names that the weakness check runs through. *)
Definition allTypeNames : list string :=
  [ "normal"; "fire"; "water"; "electric"; "grass"; "ice";
    "fighting"; "poison"; "ground"; "flying"; "psychic"; "bug";
    "rock"; "ghost"; "dragon"; "dark"; "steel"; "fairy" ].

(** [if (team[j])]: a string other than the empty one. *)
Definition truthy (v : cell) : option string :=
  match v with
  | Str s => if String.eqb s "" then None else Some s
  | _ => None
  end.

Section RandomChromosome.
(** The data of pokemon.json read by the function: the [types] and the
    [baseStats] of an entry; and the type chart. *)
Context (ks : KnowledgeStore).
Context (types : Pokemon ks → list string) (baseStats : Pokemon ks → BaseStats).
Context (typeChart : gmap string (gmap string float)).

(** [usedTypes.set(type, (usedTypes.get(type) || 0) + 1)] for the types of
    the species, when the species is known. *)
Definition track_types (usedTypes : gmap string nat) (speciesId : string)
  : gmap string nat :=
  match getPokemonBySpeciesId ks speciesId with
  | Some data =>
      foldl (λ used type, <[type := default 0 (used !! type) + 1]> used)
        usedTypes (types data)
  | None => usedTypes
  end.

(** The loop that places the anchors. *)
Definition place_anchors (teamSize : nat) (anchorPokemon : list string)
    (team : list cell)
  : outcome (list cell * list nat * gset string * gmap string nat) :=
  for_each (λ '(team, anchors, usedBaseSpecies, usedTypes) i,
      match anchorPokemon !! i with
      | Some anchor =>
          Ok (array_set team i (Str anchor), anchors ++ [i],
              {[ getBaseSpecies anchor ]} ∪ usedBaseSpecies,
              track_types usedTypes anchor)
      | None => Throw
      end)
    (seq 0 (min (length anchorPokemon) teamSize))
    (team, [], ∅, ∅).

Definition bulk_ratio (stats : BaseStats) : float :=
  ((def stats + hp stats) / atk stats)%float.

(** The known species in the slots before [slotIndex]. *)
Definition existing_members (team : list cell) (slotIndex : nat)
  : list (Pokemon ks) :=
  omap (λ j, s ← truthy (array_get team j); getPokemonBySpeciesId ks s)
    (seq 0 slotIndex).

(** [diversityScore] of a candidate that is known and not a duplicate. *)
Definition diversity_score (usedTypes : gmap string nat) (team : list cell)
    (slotIndex : nat) (candidateSpecies : string)
    (candidatePokemon : Pokemon ks) : Z :=
  let diversityScore :=
    foldl (λ diversityScore type,
        let currentCount := default 0 (usedTypes !! type) in
        if 2 <=? currentCount then (diversityScore - 5)%Z
        else if currentCount =? 1 then (diversityScore - 2)%Z
        else (diversityScore + 3)%Z)
      10%Z (types candidatePokemon) in
  let bulkRatio := bulk_ratio (baseStats candidatePokemon) in
  let members := existing_members team slotIndex in
  let '(attackWeightedCount, bulkyCount) :=
    foldl (λ '(attackWeightedCount, bulkyCount) existingPokemon,
        let existingBulkRatio := bulk_ratio (baseStats existingPokemon) in
        if PrimFloat.ltb existingBulkRatio 1.8 then
          (Datatypes.S attackWeightedCount, bulkyCount)
        else if PrimFloat.leb 2.5 existingBulkRatio then
          (attackWeightedCount, Datatypes.S bulkyCount)
        else (attackWeightedCount, bulkyCount))
      (0, 0) members in
  let diversityScore :=
    if PrimFloat.ltb bulkRatio 1.8 then
      let diversityScore :=
        if 2 <=? attackWeightedCount then (diversityScore - 4)%Z
        else diversityScore in
      if includes "_shadow" candidateSpecies then (diversityScore + 2)%Z
      else diversityScore
    else if PrimFloat.leb 2.5 bulkRatio then
      if (bulkyCount =? 0) && (0 <? slotIndex) then (diversityScore + 3)%Z
      else diversityScore
    else diversityScore in
  let candidateWeaknesses :=
    filter (λ type,
        PrimFloat.leb 1.6
          (Coverage.calculateEffectiveness typeChart type
             (types candidatePokemon)) = true)
      allTypeNames in
  let sharedWeaknessCount :=
    foldl (λ count existingPokemon,
        foldl (λ count weakness,
            if PrimFloat.leb 1.6
                 (Coverage.calculateEffectiveness typeChart weakness
                    (types existingPokemon))
            then Datatypes.S count else count)
          count candidateWeaknesses)
      0 members in
  if 3 <=? sharedWeaknessCount then (diversityScore - 6)%Z
  else if 2 <=? sharedWeaknessCount then (diversityScore - 3)%Z
  else if sharedWeaknessCount =? 1 then (diversityScore - 1)%Z
  else diversityScore.

(** One round of the candidate loop; the loop is over once [attempts]
    reaches 100. *)
Definition candidate_round (pokemonPool : list string)
    (usedBaseSpecies : gset string) (usedTypes : gmap string nat)
    (team : list cell) (slotIndex : nat)
  : nat * option string * Z → nat → Rand (nat * option string * Z) :=
  λ '(attempts, selectedSpecies, bestDiversityScore) _,
    if negb (attempts <? 100) then
      mret (attempts, selectedSpecies, bestDiversityScore)
    else
      candidate ← pick pokemonPool;
      match candidate with
      | None => lift Throw
      | Some candidateSpecies =>
          let candidateBase := getBaseSpecies candidateSpecies in
          if decide (candidateBase ∈ usedBaseSpecies) then
            mret (Datatypes.S attempts, selectedSpecies, bestDiversityScore)
          else
            match getPokemonBySpeciesId ks candidateSpecies with
            | None =>
                mret (Datatypes.S attempts, selectedSpecies,
                      bestDiversityScore)
            | Some candidatePokemon =>
                let diversityScore :=
                  diversity_score usedTypes team slotIndex candidateSpecies
                    candidatePokemon in
                if (bestDiversityScore <? diversityScore)%Z then
                  mret (Datatypes.S attempts, Some candidateSpecies,
                        diversityScore)
                else
                  mret (Datatypes.S attempts, selectedSpecies,
                        bestDiversityScore)
            end
      end.

(** The [do ... while] of the fallback; [left] draws may still be checked,
    the draw after them raises the error. *)
Fixpoint fallback_selection (pokemonPool : list string)
    (usedBaseSpecies : gset string) (left : nat) : Rand string :=
  selected ← pick pokemonPool;
  match left with
  | 0 => lift Throw
  | Datatypes.S left' =>
      match selected with
      | None => lift Throw
      | Some selectedSpecies =>
          if decide (getBaseSpecies selectedSpecies ∈ usedBaseSpecies) then
            fallback_selection pokemonPool usedBaseSpecies left'
          else mret selectedSpecies
      end
  end.

(** The body of the loop over the mutable slots. *)
Definition fill_slot (pokemonPool : list string)
  : list cell * gset string * gmap string nat → nat →
    Rand (list cell * gset string * gmap string nat) :=
  λ '(team, usedBaseSpecies, usedTypes) slotIndex,
    let candidateCount := min 20 (length pokemonPool) in
    '(_, selectedSpecies, _) ←
      for_each_rand
        (candidate_round pokemonPool usedBaseSpecies usedTypes team slotIndex)
        (seq 0 candidateCount) (0, None, (-1)%Z);
    selectedSpecies ←
      match selectedSpecies with
      | Some s =>
          if String.eqb s "" then
            fallback_selection pokemonPool usedBaseSpecies 1000
          else mret s
      | None => fallback_selection pokemonPool usedBaseSpecies 1000
      end;
    mret (array_set team slotIndex (Str selectedSpecies),
          {[ getBaseSpecies selectedSpecies ]} ∪ usedBaseSpecies,
          track_types usedTypes selectedSpecies).

Definition createRandomChromosome (pokemonPool : list string) (teamSize : nat)
    (anchorPokemon : option (list string)) : Rand Chromosome :=
  let team := replicate teamSize (Str "") in
  '(team, anchors, usedBaseSpecies, usedTypes) ←
    lift (place_anchors teamSize (default [] anchorPokemon) team);
  let mutableSlots :=
    getMutableSlots {| team := team; anchors := anchors; fitness := 0 |}
      teamSize in
  '(team, _, _) ←
    for_each_rand (fill_slot pokemonPool) mutableSlots
      (team, usedBaseSpecies, usedTypes);
  mret {| team := team; anchors := anchors; fitness := 0 |}.

Definition initializePopulation (populationSize : nat)
    (pokemonPool : list string) (teamSize : nat)
    (anchorPokemon : option (list string)) : Rand (list Chromosome) :=
  for_each_rand (λ population _,
      c ← createRandomChromosome pokemonPool teamSize anchorPokemon;
      mret (population ++ [c]))
    (seq 0 populationSize) [].

End RandomChromosome.

(** What [createRandomChromosome] is to build: the first anchors in the
    first slots, the other slots filled from the pool, the filled species of
    pairwise different base species, none of them that of an anchor. *)
Definition BuiltFrom (pokemonPool : list string) (size : nat)
    (anchorPokemon : option (list string)) (c : Chromosome) : Prop :=
  let placed := take size (default [] anchorPokemon) in
  ∃ filled : list string,
    team c = Str <$> (placed ++ filled)
    ∧ length (placed ++ filled) = size
    ∧ anchors c = seq 0 (length placed)
    ∧ fitness c = 0%Q
    ∧ Forall (λ s, s ∈ pokemonPool) filled
    ∧ NoDup (getBaseSpecies <$> filled)
    ∧ ∀ s, s ∈ filled → getBaseSpecies s ∉ getBaseSpecies <$> placed.

(** ** The moves module (src/unnamed/part_002, lines 1-217)

    The lookup map [movesByMoveId] is data (moves.json); energies, energy
    gains, turns and powers are whole numbers there.  Quotients and times are
    exact rationals. *)

Module Moves.

Record Move : Type := MkMove {
  type : string;
  power : Z;
  energy : Z;
  energyGain : Z;
  turns : option Z;
  buffs : option (list Z)
}.

Inductive Category : Type := spam | general | nuke | unknown.

#[global] Instance Category_eq_dec : EqDecision Category.
Proof. solve_decision. Defined.

Section WithMoves.
Context (movesByMoveId : gmap string Move).

Definition getMoveByMoveId (moveId : string) : option Move :=
  movesByMoveId !! moveId.

Definition isFastMove (moveId : string) : bool :=
  match getMoveByMoveId moveId with
  | Some move => bool_decide (is_Some (turns move))
  | None => false
  end.

Definition calculateTurnsToCharge (fastMoveId chargedMoveId : string) : Z :=
  match getMoveByMoveId fastMoveId, getMoveByMoveId chargedMoveId with
  | Some fastMove, Some chargedMove =>
      if (energyGain fastMove =? 0)%Z || (energy chargedMove =? 0)%Z then 0%Z
      else Qceiling (inject_Z (energy chargedMove)
                     / inject_Z (energyGain fastMove))
  | _, _ => 0%Z
  end.

Definition calculateTimeToCharge (fastMoveId chargedMoveId : string) : Q :=
  let turns_ := calculateTurnsToCharge fastMoveId chargedMoveId in
  match getMoveByMoveId fastMoveId with
  | Some fastMove =>
      match turns fastMove with
      | Some fastTurns =>
          if (fastTurns =? 0)%Z then 0%Q
          else (inject_Z turns_ * inject_Z fastTurns * (5 # 10))%Q
      | None => 0%Q
      end
  | None => 0%Q
  end.

Definition calculatePressureScore (fastMoveId chargedMoveId : string) : Q :=
  let timeToCharge := calculateTimeToCharge fastMoveId chargedMoveId in
  if Qeq_bool timeToCharge 0 then 0%Q else (1 / timeToCharge)%Q.

Definition hasBuffEffects (moveId : string) : bool :=
  match getMoveByMoveId moveId with
  | Some move =>
      match buffs move with
      | Some stats => 0 <? length stats
      | None => false
      end
  | None => false
  end.

Definition getMoveCategory (moveId : string) : Category :=
  match getMoveByMoveId moveId with
  | Some move =>
      if (energy move =? 0)%Z then unknown
      else if (energy move <=? 40)%Z then spam
      else if (energy move <=? 50)%Z then general
      else nuke
  | None => unknown
  end.

Definition calculateDPE (moveId : string) : Q :=
  match getMoveByMoveId moveId with
  | Some move =>
      if (energy move =? 0)%Z then 0%Q
      else (inject_Z (power move) / inject_Z (energy move))%Q
  | None => 0%Q
  end.

Record Synergy : Type := MkSynergy {
  hasSpamNuke : bool;
  hasBuff : bool;
  synergyScore : Q
}.

Definition evaluateMoveSynergy (chargedMove1 chargedMove2 : string) : Synergy :=
  match getMoveByMoveId chargedMove1, getMoveByMoveId chargedMove2 with
  | Some move1, Some move2 =>
      let cat1 := getMoveCategory chargedMove1 in
      let cat2 := getMoveCategory chargedMove2 in
      let hasSpamNuke :=
        (bool_decide (cat1 = spam) && bool_decide (cat2 = nuke))
        || (bool_decide (cat1 = nuke) && bool_decide (cat2 = spam)) in
      let hasBuff := hasBuffEffects chargedMove1 || hasBuffEffects chargedMove2 in
      let synergyScore := 0%Q in
      let synergyScore :=
        if hasSpamNuke then (synergyScore + 2)%Q else synergyScore in
      let synergyScore :=
        if hasBuff then (synergyScore + 1)%Q else synergyScore in
      let synergyScore :=
        if bool_decide (cat1 ≠ cat2) then (synergyScore + (5 # 10))%Q
        else synergyScore in
      MkSynergy hasSpamNuke hasBuff synergyScore
  | _, _ => MkSynergy false false 0
  end.

(** The set keeps the types in the order of their first insertion. *)
Definition getMovesetTypes (moveIds : list string) : list string :=
  foldl (λ types moveId,
      match getMoveByMoveId moveId with
      | Some move =>
          if decide (type move ∈ types) then types else types ++ [type move]
      | None => types
      end)
    [] moveIds.

End WithMoves.
End Moves.

(** ** Coverage statistics (src/lib/coverage/typeChart.ts, further) *)

(** [Math.max(a, b)]; of two zeros the positive one. *)
Definition js_max (a b : float) : float :=
  if PrimFloat.is_nan a || PrimFloat.is_nan b then PrimFloat.nan
  else if PrimFloat.ltb a b then b
  else if PrimFloat.ltb b a then a
  else if PrimFloat.eqb a 0 then PrimFloat.add a b
  else a.

Module TypeChart.

Record OffensiveCoverage : Type := MkOffensive {
  superEffective : gset string;
  neutral : gset string;
  notVeryEffective : gset string;
  offensiveScore : float
}.

Record DefensiveCoverage : Type := MkDefensive {
  resistedTypes : gset string;
  weakTypes : gset string;
  defensiveScore : float
}.

Section WithChart.
(** The chart and [Object.keys(typeChart)], its attacking types in the order
    of the data file. *)
Context (typeChart : gmap string (gmap string float)) (allTypes : list string).

Definition hasSTAB (moveType : string) (pokemonTypes : list string) : bool :=
  let normalizedMove := toLowerCase moveType in
  existsb (λ type, String.eqb (toLowerCase type) normalizedMove) pokemonTypes.

Definition calculateTotalMultiplier (moveType : string)
    (attackerTypes defenderTypes : list string) : float :=
  let effectiveness :=
    Coverage.calculateEffectiveness typeChart moveType defenderTypes in
  let stab := if hasSTAB moveType attackerTypes then 1.2%float else 1.0%float in
  (effectiveness * stab)%float.

Definition getSuperEffectiveTypes (defenseTypes : list string) : list string :=
  filter (λ attackType,
      PrimFloat.leb 1.6
        (Coverage.calculateEffectiveness typeChart attackType defenseTypes)
      = true)
    allTypes.

Definition getResistantTypes (defenseTypes : list string) : list string :=
  filter (λ attackType,
      PrimFloat.leb
        (Coverage.calculateEffectiveness typeChart attackType defenseTypes)
        0.625
      = true)
    allTypes.

(** The inner loop of [calculateOffensiveCoverage]. *)
Definition bestMultiplier (moveTypes : list string) (defType : string)
  : float :=
  foldl (λ bestMultiplier atkType,
      let effectiveness :=
        Coverage.calculateEffectiveness typeChart atkType [defType] in
      js_max bestMultiplier effectiveness)
    0%float moveTypes.

Definition calculateOffensiveCoverage (moveTypes : list string)
  : OffensiveCoverage :=
  let '(superEffective, neutral, notVeryEffective) :=
    foldl (λ '(superEffective, neutral, notVeryEffective) defType,
        let bestMultiplier := bestMultiplier moveTypes defType in
        if PrimFloat.leb 1.6 bestMultiplier then
          ({[ defType ]} ∪ superEffective, neutral, notVeryEffective)
        else if PrimFloat.eqb bestMultiplier 1.0 then
          (superEffective, {[ defType ]} ∪ neutral, notVeryEffective)
        else (superEffective, neutral, {[ defType ]} ∪ notVeryEffective))
      ((∅ : gset string), (∅ : gset string), (∅ : gset string)) allTypes in
  let coverageScore :=
    (of_nat (size superEffective) + of_nat (size neutral) * 0.5)%float in
  MkOffensive superEffective neutral notVeryEffective coverageScore.

(** The inner loop of [calculateDefensiveCoverage]: how many members resist
    the attacking type, how many are weak to it. *)
Definition memberCounts (teamTypes : list (list string)) (atkType : string)
  : nat * nat :=
  foldl (λ '(resistCount, weakCount) defTypes,
      let effectiveness :=
        Coverage.calculateEffectiveness typeChart atkType
          (filter (λ t, t ≠ "none"%string) defTypes) in
      if PrimFloat.leb effectiveness 0.625 then
        (Datatypes.S resistCount, weakCount)
      else if PrimFloat.leb 1.6 effectiveness then
        (resistCount, Datatypes.S weakCount)
      else (resistCount, weakCount))
    (0, 0) teamTypes.

Definition calculateDefensiveCoverage (teamTypes : list (list string))
  : DefensiveCoverage :=
  let '(resistCount, weakCount) :=
    foldl (λ '(resistCount, weakCount) atkType,
        let '(resists, weaks) := memberCounts teamTypes atkType in
        (<[atkType := resists]> resistCount, <[atkType := weaks]> weakCount))
      ((∅ : gmap string nat), (∅ : gmap string nat)) allTypes in
  let resistedTypes : gset string :=
    dom (filter (λ entry, 2 ≤ entry.2) resistCount) in
  let weakTypes : gset string :=
    dom (filter (λ entry, 3 ≤ entry.2) weakCount) in
  let coverageScore :=
    (of_nat (size resistedTypes) - of_nat (size weakTypes) * 0.5)%float in
  MkDefensive resistedTypes weakTypes coverageScore.

End WithChart.
End TypeChart.

(** ** Two components of src/lib/genetic/fitness.ts written out

    [evaluateThreeLineup] and [calculateMetaThreatScore] over the data they
    read: the [types] and [chargedMoves] of a species, the move data, the
    type chart and the list of meta threats with their two type columns. *)

Module Scoring.
Section WithData.
Context (ks : KnowledgeStore).
Context (types chargedMoves : Pokemon ks → list string).
Context (movesByMoveId : gmap string Moves.Move).
Context (typeChart : gmap string (gmap string float)).
Context (metaThreats : list (string * string)).

(** [getPokemonBySpeciesId(id)] for an array element; [Map.get(undefined)]
    is [undefined]. *)
Definition lookup_member (v : cell) : option (Pokemon ks) :=
  s ← cell_string v; getPokemonBySpeciesId ks s.

(** [new Set(xs)], in insertion order. *)
Definition set_of (xs : list string) : list string := remove_dups xs.

Definition evaluateThreeLineup (lineup : list cell) : float :=
  if negb (length lineup =? 3) then 0%float
  else
    match lookup_member (array_get lineup 0),
          lookup_member (array_get lineup 1),
          lookup_member (array_get lineup 2) with
    | Some lead, Some switch_, Some closer =>
        let score := 0%float in
        let leadTypes := set_of (types lead) in
        let closerTypes := set_of (types closer) in
        let sharedTypes := filter (λ t, t ∈ closerTypes) leadTypes in
        let score :=
          if 0 <? length sharedTypes then (score + 0.3)%float else score in
        let switchTypes := set_of (types switch_) in
        let closerHasResist :=
          existsb (λ t, bool_decide (t ∈ switchTypes)) closerTypes in
        let score := if closerHasResist then (score + 0.3)%float else score in
        let allTypes :=
          set_of (types lead ++ types switch_ ++ types closer) in
        let score :=
          if 5 <=? length allTypes then (score + 0.4)%float else score in
        js_min score 1.0
    | _, _, _ => 0%float
    end.

(** The loop over the charged moves of one member: it stops at the first
    known move that is super effective against the threat. *)
Definition covers (pokemon : Pokemon ks) (threatTypes : list string) : bool :=
  existsb (λ moveId,
      match Moves.getMoveByMoveId movesByMoveId moveId with
      | Some move =>
          PrimFloat.leb 1.6
            (Coverage.calculateEffectiveness typeChart (Moves.type move)
               threatTypes)
      | None => false
      end)
    (chargedMoves pokemon).

(** [coveredThreats] when the loops are over. *)
Definition coveredThreats (roster : list (Pokemon ks)) : nat :=
  foldl (λ coveredThreats threat,
      let threatTypes :=
        filter (λ t, t ≠ "none"%string) [threat.1; threat.2] in
      foldl (λ coveredThreats pokemon,
          if covers pokemon threatTypes then Datatypes.S coveredThreats
          else coveredThreats)
        coveredThreats roster)
    0 (take 50 metaThreats).

Definition calculateMetaThreatScore (team : list cell) : float :=
  let roster := teamPokemon ks team in
  if length roster =? 0 then 0%float
  else (of_nat (coveredThreats roster) / 50)%float.

End WithData.
End Scoring.

(** ** Termination

    Only the filling loop of [createNextGeneration] is run on fuel; a
    computation terminates when it returns or raises. *)

Definition Terminates {A : Type} (m : outcome A) : Prop := m ≠ OutOfFuel.

Definition TerminatesR {A : Type} (m : Rand A) : Prop :=
  ∀ g, Terminates (m g).

(** ** Validity, as the data model states it *)

(** The team is an array of strings, as its type [string[]] says. *)
Definition StringTeam (c : Chromosome) : Prop :=
  ∃ ss : list string, team c = Str <$> ss.

(** The team is an array of strings of the mode's length. *)
Definition WellFormed (mode : TournamentMode) (c : Chromosome) : Prop :=
  ∃ ss : list string, team c = Str <$> ss ∧ length ss = teamSize mode.

(** Moreover the base species are pairwise distinct. *)
Definition ValidFor (mode : TournamentMode) (c : Chromosome) : Prop :=
  ∃ ss : list string,
    team c = Str <$> ss ∧ length ss = teamSize mode
    ∧ NoDup (getBaseSpecies <$> ss).

(** What [crossover] and [mutate] must leave alone: the anchors list and
    the entries [team[i]] at the anchored indices. *)
Definition KeepsAnchors (parent result : Chromosome) : Prop :=
  anchors result = anchors parent
  ∧ ∀ i, i ∈ anchors parent →
         array_get (team result) i = array_get (team parent) i.

(** ** Sorted by fitness, highest first *)

(** [a] is at least as fit as [b]. *)
Definition fitter (a b : Chromosome) : Prop := (fitness b <= fitness a)%Q.

(** The top slice of [hasConverged]: the first ceil(0.3 n) entries of the
    population sorted by fitness, highest first. *)
Definition top_slice (population : list Chromosome) : list Chromosome :=
  take (Z.to_nat (Qceiling (inject_Z (Z.of_nat (length population)) * (3 # 10))))
       (sortByFitness population).

Definition highest (fs : list Q) (m : Q) : Prop :=
  m ∈ fs ∧ ∀ x, x ∈ fs → (x <= m)%Q.

Definition lowest (fs : list Q) (m : Q) : Prop :=
  m ∈ fs ∧ ∀ x, x ∈ fs → (m <= x)%Q.

(** A finite double as a multiple of the smallest positive double, 2^-1074. *)
Definition scaled (x : spec_float) : Z :=
  match x with
  | S754_finite s m e => cond_Zopp s (Z.pos m * 2 ^ (e + 1074))
  | _ => 0
  end.

Definition finite_sf (x : spec_float) : bool :=
  match x with
  | S754_zero _ | S754_finite _ _ _ => true
  | _ => false
  end.

(** [Math.ceil(n * c)] as the doubles compute it. *)
Definition double_ceil_times (n : nat) (c : float) : option Z :=
  Qceiling <$> float_value (of_nat n * c)%float.

(** ** Sample data *)

Definition draw_zero : U01 := MkU01 0 eq_refl.
Definition draw_half : U01 := MkU01 (1 # 2) eq_refl.

(** A source whose every draw is [r]. *)
Definition constant_source (r : U01) : Rng := MkRng (λ _, r) 0.

Definition sample_parent1 : Chromosome :=
  MkChromosome [Str "azumarill"; Str "medicham"; Str "skarmory"] [] 1.
Definition sample_parent2 : Chromosome :=
  MkChromosome [Str "registeel"; Str "azumarill_shadow"; Str "medicham"] [] 2.
Definition sample_parent3 : Chromosome :=
  MkChromosome [Str "registeel"; Str "altaria"; Str "lanturn"] [] (1 # 2).
Definition sample_anchored : Chromosome :=
  MkChromosome [Str "azumarill"; Str "medicham"; Str "skarmory"] [0] 1.
Definition sample_uniform_population : list Chromosome :=
  [sample_parent1; sample_anchored; sample_parent1; sample_parent1;
   MkChromosome [Str "lanturn"; Str "altaria"; Str "registeel"] [] 1].
Definition sample_population : list Chromosome :=
  [sample_parent1; sample_parent2; sample_parent3; sample_anchored].
(** Fitness 1, 2^-60, 0 and 0. *)
Definition sample_close_population : list Chromosome :=
  [MkChromosome [Str "azumarill"; Str "medicham"; Str "skarmory"] [] 1;
   MkChromosome [Str "registeel"; Str "altaria"; Str "lanturn"] []
     (1 # 1152921504606846976);
   MkChromosome [Str "azumarill"; Str "altaria"; Str "lanturn"] [] 0;
   MkChromosome [Str "registeel"; Str "medicham"; Str "skarmory"] [] 0].
Definition sample_options : Options :=
  {| eliteCount := Some 2%Z; crossoverRate := None; mutationRate := None |}.
Definition sample_lead_anchored : Chromosome :=
  MkChromosome [Str "skarmory"; Str "azumarill"; Str "medicham"] [0] 1.
Definition sample_chart : gmap string (gmap string float) :=
  {[ "fire" := {[ "grass" := 1.6%float; "bug" := 1.6%float ]} ]}.
Definition sample_pool : list string :=
  ["lanturn"; "azumarill"; "altaria"; "medicham_shadow"].

(** A source that alternates between the draws 0 and 1/2. *)
Definition alternating_source : Rng :=
  MkRng (λ n, if Nat.even n then draw_zero else draw_half) 0.

Definition sample_entries : gmap string (list string * BaseStats) :=
  {[ "lanturn" := (["water"; "electric"], MkBaseStats 146 137 268);
     "azumarill" := (["water"; "fairy"], MkBaseStats 112 152 225);
     "altaria" := (["dragon"; "flying"], MkBaseStats 141 201 181);
     "medicham" := (["fighting"; "psychic"], MkBaseStats 121 152 155) ]}.

Definition sample_store : KnowledgeStore :=
  {| Pokemon := list string * BaseStats;
     getPokemonBySpeciesId := λ s, sample_entries !! s;
     speciesIdToRankingName := baseOf;
     getAllRankingsForPokemon := λ _, MkRankings 0 0;
     typeCoverageOf := λ _, 0%float;
     threeLineupOf := λ _, 0%float;
     bestLineupOf := λ _, 0%float;
     metaThreatOf := λ _, 0%float;
     energyOf := λ _, 0%float;
     typeDiversityOf := λ _, 0%float;
     typeSynergyOf := λ _, 0%float;
     statBalanceOf := λ _, 0%float;
     shadowPreferenceOf := λ _, 0%float;
     anchorSynergyOf := λ _ _, 0%float |}.

Definition sample_moves : gmap string Moves.Move :=
  {[ "counter" := Moves.MkMove "fighting" 8 0 7 (Some 2%Z) None;
     "ice_punch" := Moves.MkMove "ice" 55 40 0 None None;
     "power_up_punch" := Moves.MkMove "fighting" 20 35 0 None (Some [1; 0]%Z);
     "hydro_pump" := Moves.MkMove "water" 130 75 0 None None ]}.

(** * Properties *)

(** ** The monads *)

Lemma bind_Ok {A B : Type} (m : outcome A) (f : A → outcome B) (b : B) :
  (m ≫= f) = Ok b → ∃ a, m = Ok a ∧ f a = Ok b.
Proof. destruct m as [a| |]; simpl; [eauto | done | done]. Qed.

Lemma Rand_bind_Ok {A B : Type} (m : Rand A) (f : A → Rand B) g b g' :
  (m ≫= f) g = Ok (b, g') → ∃ a g1, m g = Ok (a, g1) ∧ f a g1 = Ok (b, g').
Proof.
  unfold mbind, Rand_bind. destruct (m g) as [[a g1]| |]; [eauto | done | done].
Qed.

Lemma Rand_bind_run {A B : Type} (m : Rand A) (f : A → Rand B) g a g1 :
  m g = Ok (a, g1) → (m ≫= f) g = f a g1.
Proof. intros Hm. unfold mbind, Rand_bind. by rewrite Hm. Qed.

Lemma lift_run {A : Type} (m : outcome A) (a : A) g :
  m = Ok a → lift m g = Ok (a, g).
Proof. by intros ->. Qed.

Lemma mret_run {A : Type} (a : A) (g : Rng) : (mret a : Rand A) g = Ok (a, g).
Proof. done. Qed.

Lemma lift_Ok {A : Type} (m : outcome A) g a g' :
  lift m g = Ok (a, g') → m = Ok a ∧ g' = g.
Proof. destruct m; simpl; intros; simplify_eq; done. Qed.

(** A loop whose body never raises on the states of an invariant runs to the
    end and keeps the invariant. *)
Lemma for_each_total {S X : Type} (Inv : S → Prop) (body : S → X → outcome S)
    (xs : list X) (s : S) :
  Inv s →
  (∀ s x, x ∈ xs → Inv s → ∃ s', body s x = Ok s' ∧ Inv s') →
  ∃ s', for_each body xs s = Ok s' ∧ Inv s'.
Proof.
  revert s. induction xs as [|x xs IH]; intros s Hs Hbody; simpl.
  - eauto.
  - destruct (Hbody s x) as (s1 & -> & Hs1); [left | done |]. simpl.
    apply IH; [done |]. intros s2 y Hy. apply Hbody. by right.
Qed.

(** Whatever a loop returns satisfies every invariant of its body. *)
Lemma for_each_inv {S X : Type} (Inv : S → Prop) (body : S → X → outcome S)
    (xs : list X) (s s' : S) :
  Inv s →
  (∀ s x s', x ∈ xs → Inv s → body s x = Ok s' → Inv s') →
  for_each body xs s = Ok s' → Inv s'.
Proof.
  revert s. induction xs as [|x xs IH]; intros s Hs Hbody; simpl.
  - by intros [= <-].
  - intros (s1 & H1 & H2)%bind_Ok.
    apply (IH s1); [ | | done].
    + eapply Hbody; [left | done | done].
    + intros s2 y s3 Hy. apply Hbody. by right.
Qed.

(** ** The random index *)

Lemma random_index_lt (r : U01) (len : nat) :
  0 < len → random_index r len < len.
Proof.
  intros Hlen. unfold random_index.
  destruct r as [q Hq]; cbn [u01]. unfold in_unit in Hq.
  apply andb_prop in Hq as [H0 H1].
  apply Qle_bool_iff in H0.
  apply negb_true_iff in H1.
  assert (Hlt : (q < 1)%Q).
  { apply Qnot_le_lt. intros Hle. apply Qle_bool_iff in Hle. congruence. }
  set (n := Z.of_nat len).
  assert (Hn : (0 < n)%Z) by lia.
  assert (Hfl0 : (0 <= Qfloor (q * inject_Z n))%Z).
  { change 0%Z with (Qfloor (inject_Z 0)) at 1. rewrite Qfloor_Z.
    rewrite <- (Qfloor_Z 0). apply Qfloor_resp_le.
    apply Qmult_le_0_compat; [done |].
    change 0%Q with (inject_Z 0). rewrite <- Zle_Qle. lia. }
  assert (Hfl1 : (Qfloor (q * inject_Z n) < n)%Z).
  { apply Z.lt_nge. intros Hge.
    assert (Hc : (inject_Z n <= q * inject_Z n)%Q).
    { eapply Qle_trans; [| apply Qfloor_le]. by rewrite <- Zle_Qle. }
    assert (Hpos : (0 < inject_Z n)%Q).
    { change 0%Q with (inject_Z 0). by rewrite <- Zlt_Qlt. }
    assert (Hc' : (q * inject_Z n < 1 * inject_Z n)%Q).
    { by apply Qmult_lt_compat_r. }
    rewrite Qmult_1_l in Hc'.
    apply (Qlt_irrefl (inject_Z n)). eapply Qle_lt_trans; done. }
  subst n. lia.
Qed.

Lemma pick_Some {A : Type} (arr : list A) (g : Rng) :
  arr ≠ [] →
  ∃ x g', pick arr g = Ok (Some x, g') ∧ x ∈ arr.
Proof.
  intros Hne. unfold pick, mbind, Rand_bind, random, mret, Rand_ret.
  assert (Hlt : random_index (draws g (pos g)) (length arr) < length arr).
  { apply random_index_lt. destruct arr; [done | simpl; lia]. }
  apply lookup_lt_is_Some_2 in Hlt as [x Hx].
  exists x. eexists. rewrite Hx. split; [done |].
  by eapply list_elem_of_lookup_2.
Qed.

Lemma pick_Ok {A : Type} (arr : list A) g o g' :
  pick arr g = Ok (o, g') → ∀ x, o = Some x → x ∈ arr.
Proof.
  unfold pick, mbind, Rand_bind, random, mret, Rand_ret.
  intros [= <- _] x Hx. by eapply list_elem_of_lookup_2.
Qed.

(** ** Arrays *)

Lemma array_get_dense (ss : list string) (i : nat) :
  array_get (Str <$> ss) i = from_option Str Undefined (ss !! i).
Proof. unfold array_get. rewrite list_lookup_fmap. by destruct (ss !! i). Qed.

Lemma array_get_spread (arr : list cell) (i : nat) :
  array_get (spread arr) i = array_get arr i.
Proof.
  unfold array_get, spread. rewrite list_lookup_fmap.
  by destruct (arr !! i) as [[]|].
Qed.

Lemma array_get_set_ne (arr : list cell) (i j : nat) (v : cell) :
  i ≠ j → array_get (array_set arr j v) i = array_get arr i.
Proof.
  intros Hne. unfold array_get, array_set. case_decide as Hj.
  - by rewrite list_lookup_insert_ne.
  - destruct (decide (i < length arr)) as [Hi|Hi].
    + by rewrite lookup_app_l.
    + rewrite lookup_app_r by lia.
      rewrite (lookup_ge_None_2 arr) by lia.
      destruct (decide (i - length arr < j - length arr)) as [Hp|Hp].
      * rewrite lookup_app_l by (rewrite length_replicate; lia).
        by rewrite lookup_replicate_2.
      * rewrite lookup_app_r by (rewrite length_replicate; lia).
        rewrite length_replicate.
        destruct (i - length arr - (j - length arr)) as [|k] eqn:Hk; [lia |].
        done.
Qed.

Lemma array_set_dense (ss : list string) (i : nat) (s : string) :
  i < length ss → array_set (Str <$> ss) i (Str s) = Str <$> <[i := s]> ss.
Proof.
  intros Hi. unfold array_set. rewrite length_fmap.
  rewrite decide_True by done. by rewrite list_fmap_insert.
Qed.

Lemma spread_dense (ss : list string) : spread (Str <$> ss) = Str <$> ss.
Proof. unfold spread. rewrite <- list_fmap_compose. done. Qed.

Lemma spread_length (arr : list cell) : length (spread arr) = length arr.
Proof. unfold spread. by rewrite length_fmap. Qed.

(** ** Uniqueness of base species *)

Lemma size_list_to_set_le {A : Type} {EqA : EqDecision A} {CntA : Countable A}
    (l : list A) :
  size (list_to_set l : gset A) ≤ length l.
Proof.
  induction l as [|x l IH].
  - by rewrite list_to_set_nil, size_empty.
  - rewrite list_to_set_cons. cbn [length].
    rewrite size_union_alt, size_singleton.
    assert (Hsub : size (list_to_set l ∖ {[x]} : gset A)
                   ≤ size (list_to_set l : gset A)).
    { apply subseteq_size. intros y [Hy _]%elem_of_difference. exact Hy. }
    lia.
Qed.

Lemma size_list_to_set_NoDup {A : Type} {EqA : EqDecision A}
    {CntA : Countable A} (l : list A) :
  size (list_to_set l : gset A) = length l ↔ NoDup l.
Proof.
  split; [| apply size_list_to_set].
  induction l as [|x l IH]; intros Hsize.
  - constructor.
  - rewrite list_to_set_cons in Hsize. cbn [length] in Hsize.
    destruct (decide (x ∈ l)) as [Hin|Hnin].
    + assert (Heq : {[x]} ∪ list_to_set l = (list_to_set l : gset A)).
      { apply subseteq_union_1_L, singleton_subseteq_l.
        by apply elem_of_list_to_set. }
      rewrite Heq in Hsize.
      pose proof (size_list_to_set_le l). lia.
    + constructor; [done |]. apply IH.
      rewrite size_union in Hsize
        by (apply disjoint_singleton_l; by rewrite elem_of_list_to_set).
      rewrite size_singleton in Hsize. lia.
Qed.

Lemma map_bases_dense (ss : list string) :
  map_bases (Str <$> ss) = Ok (Some <$> (getBaseSpecies <$> ss)).
Proof.
  induction ss as [|s ss IH]; [done |].
  rewrite !fmap_cons. cbn [map_bases baseOf]. by rewrite IH.
Qed.

(** On an array of strings the check of the source is the pairwise
    distinctness of the base species. *)
Lemma validate_dense (ss : list string) :
  validateTeamUniqueness (Str <$> ss)
  = Ok (bool_decide (NoDup (getBaseSpecies <$> ss))).
Proof.
  unfold validateTeamUniqueness. rewrite map_bases_dense. simpl. f_equal.
  set (bs := Some <$> (getBaseSpecies <$> ss)).
  assert (Hiff : NoDup bs ↔ NoDup (getBaseSpecies <$> ss)).
  { subst bs. split; [apply NoDup_fmap_1 |]. apply NoDup_fmap_2. intros ??. congruence. }
  case_bool_decide as Hnd.
  - apply Nat.eqb_eq. apply size_list_to_set_NoDup. by apply Hiff.
  - apply Nat.eqb_neq. intros Hsz. apply Hnd, Hiff.
    by apply size_list_to_set_NoDup.
Qed.

(** ** Chromosomes *)

Lemma ValidFor_WellFormed mode c : ValidFor mode c → WellFormed mode c.
Proof. intros (ss & ? & ? & ?). by exists ss. Qed.

(** [ValidFor] is what [isValidChromosome] decides on arrays of strings. *)
Lemma isValidChromosome_spec mode c (ss : list string) :
  team c = Str <$> ss →
  isValidChromosome c mode = Ok true
  ↔ length ss = teamSize mode ∧ NoDup (getBaseSpecies <$> ss).
Proof.
  intros Hteam. unfold isValidChromosome. rewrite Hteam, length_fmap.
  rewrite validate_dense. simpl.
  destruct (length ss =? teamSize mode) eqn:Hlen; simpl.
  - apply Nat.eqb_eq in Hlen. case_bool_decide; simpl; split; try done.
    + by intros [_ ?].
  - apply Nat.eqb_neq in Hlen. split; [done | by intros [? _]].
Qed.

Lemma cloneChromosome_dense c (ss : list string) :
  team c = Str <$> ss → cloneChromosome c = c.
Proof.
  intros Hteam. destruct c as [t a f]; simpl in *. subst t.
  unfold cloneChromosome; simpl. by rewrite spread_dense.
Qed.

Lemma elem_of_getMutableSlots c size slot :
  slot ∈ getMutableSlots c size ↔ slot < size ∧ slot ∉ anchors c.
Proof.
  unfold getMutableSlots, isAnchorSlot.
  rewrite list_elem_of_filter, elem_of_seq, bool_decide_eq_false.
  intuition lia.
Qed.

(** ** Crossover on well-formed parents *)

Lemma baseOf_dense (ss : list string) (i : nat) :
  i < length ss →
  ∃ s, ss !! i = Some s ∧ array_get (Str <$> ss) i = Str s
       ∧ baseOf (array_get (Str <$> ss) i) = Ok (getBaseSpecies s).
Proof.
  intros Hi. apply lookup_lt_is_Some_2 in Hi as [s Hs].
  exists s. rewrite array_get_dense, Hs. done.
Qed.

(** Runs the loop of the goal under the invariant [Inv]. *)
Tactic Notation "run_loop" constr(Inv) "as" simple_intropattern(H) :=
  lazymatch goal with
  | |- context [for_each ?body ?xs ?s] =>
      destruct (for_each_total Inv body xs s) as H
  end.

Lemma anchor_species_total c (ss : list string) :
  team c = Str <$> ss →
  ∃ used, anchor_species c (length ss) = Ok used.
Proof.
  intros Hteam. unfold anchor_species.
  run_loop (λ _ : gset string, True) as (used & Hused & _); [done | | by eauto].
  intros used i Hi%elem_of_seq _. destruct (isAnchorSlot i c); [| by eauto].
  rewrite Hteam. destruct (baseOf_dense ss i) as (s & _ & _ & ->); [lia |].
  simpl. eauto.
Qed.

Lemma head_species_total c (ss : list string) slots cp used :
  team c = Str <$> ss →
  Forall (λ slot, slot < length ss) slots →
  ∃ used', head_species c slots cp used = Ok used'.
Proof.
  intros Hteam Hslots. unfold head_species.
  run_loop (λ _ : gset string, True) as (used' & Hused & _); [done | | by eauto].
  intros u slot Hslot _. destruct (before_point slot cp); [| by eauto].
  rewrite Forall_forall in Hslots. apply Hslots in Hslot.
  rewrite Hteam. destruct (baseOf_dense ss slot) as (s & _ & _ & ->); [done |].
  simpl. eauto.
Qed.

Lemma copy_tail_total p2 (ss2 ss : list string) slots cp used :
  team p2 = Str <$> ss2 →
  length ss2 = length ss →
  Forall (λ slot, slot < length ss) slots →
  ∃ ts used',
    copy_tail p2 slots cp (Str <$> ss) used = Ok (Str <$> ts, used')
    ∧ length ts = length ss.
Proof.
  intros Hteam Hlen Hslots. unfold copy_tail.
  run_loop (λ st : list cell * gset string,
              ∃ ts, st.1 = Str <$> ts ∧ length ts = length ss)
    as ([t used'] & Hrun & ts & Ht & Hts).
  - by exists ss.
  - intros [t u] slot Hslot (ts & Ht & Hts); simpl in Ht; subst t.
    rewrite Forall_forall in Hslots. apply Hslots in Hslot.
    destruct (from_point slot cp); [| by eauto].
    rewrite Hteam.
    destruct (baseOf_dense ss2 slot) as (s & _ & Hget & Hbase); [lia |].
    cbn zeta. rewrite Hbase. simpl. case_decide; [by eauto |].
    rewrite Hget, array_set_dense by lia.
    eexists. split; [done |]. simpl. eexists. split; [done |].
    by rewrite length_insert.
  - simpl in Ht. subst t. eauto.
Qed.

Lemma crossover_team_total mode p1 p2 cp :
  WellFormed mode p1 → WellFormed mode p2 →
  ∃ ts, crossover_team p1 p2 mode cp = Ok (Str <$> ts)
        ∧ length ts = teamSize mode.
Proof.
  intros (ss1 & Ht1 & Hl1) (ss2 & Ht2 & Hl2). unfold crossover_team.
  rewrite (cloneChromosome_dense p1 ss1) by done.
  assert (Hslots : Forall (λ slot, slot < length ss1)
                     (getMutableSlots p1 (teamSize mode))).
  { apply Forall_forall. intros slot [? _]%elem_of_getMutableSlots. lia. }
  destruct (anchor_species_total p1 ss1 Ht1) as (used0 & H0).
  rewrite Hl1 in H0. rewrite H0. simpl.
  destruct (head_species_total p1 ss1 (getMutableSlots p1 (teamSize mode))
              cp used0 Ht1 Hslots) as (used1 & H1).
  rewrite H1. simpl.
  destruct (copy_tail_total p2 ss2 ss1 (getMutableSlots p1 (teamSize mode))
              cp used1 Ht2) as (ts & used2 & H2 & Hts); [lia | done |].
  rewrite Ht1, H2. simpl. exists ts. split; [done | lia].
Qed.

Lemma pick_run {A : Type} (arr : list A) (g : Rng) :
  pick arr g
  = Ok (arr !! random_index (draws g (pos g)) (length arr), advance g).
Proof. done. Qed.

Lemma crossover_run mode p1 p2 g :
  WellFormed mode p1 → WellFormed mode p2 →
  ∃ child g', crossover p1 p2 mode g = Ok (child, g')
    ∧ WellFormed mode child
    ∧ (ValidFor mode p1 → ValidFor mode child).
Proof.
  intros Hw1 Hw2.
  destruct (crossover_team_total mode p1 p2
              (getMutableSlots p1 (teamSize mode)
                 !! random_index (draws g (pos g))
                      (length (getMutableSlots p1 (teamSize mode)))) Hw1 Hw2)
    as (ts & Hts & Hlen).
  destruct Hw1 as (ss1 & Ht1 & Hl1).
  unfold crossover. rewrite (cloneChromosome_dense p1 ss1) by done.
  destruct (length (getMutableSlots p1 (teamSize mode)) =? 0).
  { exists p1, g. rewrite mret_run. split; [done |]. split; [by exists ss1 | done]. }
  rewrite (Rand_bind_run _ _ _ _ _ (pick_run _ g)).
  rewrite (Rand_bind_run _ _ _ _ _ (lift_run _ _ _ Hts)).
  rewrite (Rand_bind_run _ _ _ _ _ (lift_run _ _ _ (validate_dense ts))).
  case_bool_decide as Hnd; simpl; rewrite mret_run.
  - eexists _, _. split; [done |]. split.
    + by exists ts.
    + intros _. by exists ts.
  - exists p1. eexists. split; [done |]. split; [by exists ss1 | done].
Qed.

(** ** Mutation on well-formed chromosomes *)

Lemma team_bases_dense (ss : list string) :
  team_bases (Str <$> ss) = Ok (getBaseSpecies <$> ss).
Proof.
  unfold team_bases.
  enough (H : ∀ acc : list string,
            for_each (λ acc v, b ← baseOf v; Ok (acc ++ [b])) (Str <$> ss) acc
            = Ok (acc ++ (getBaseSpecies <$> ss))) by apply (H []).
  induction ss as [|s ss IH]; intros acc.
  - by rewrite app_nil_r.
  - rewrite !fmap_cons. cbn [for_each baseOf]. simpl. rewrite IH.
    by rewrite <- app_assoc.
Qed.

Lemma mutate_run mode pool rate c g :
  WellFormed mode c →
  ∃ c' g', mutate c pool rate mode g = Ok (c', g')
    ∧ WellFormed mode c'
    ∧ (ValidFor mode c → ValidFor mode c').
Proof.
  intros (ss & Ht & Hl).
  assert (Hwf : WellFormed mode c) by by exists ss.
  unfold mutate.
  rewrite (Rand_bind_run _ _ _ _ _ (eq_refl : random g = Ok (_, advance g))).
  destruct (negb (Qle_bool (u01 (draws g (pos g))) rate)).
  { eexists _, _. by rewrite mret_run. }
  rewrite (cloneChromosome_dense c ss) by done.
  destruct (length (getMutableSlots c (teamSize mode)) =? 0) eqn:Hms.
  { eexists _, _. by rewrite mret_run. }
  destruct (pick_Some (getMutableSlots c (teamSize mode)) (advance g))
    as (slot & g1 & Hpick & Hslot).
  { intros Hnil. rewrite Hnil in Hms. done. }
  apply elem_of_getMutableSlots in Hslot as [Hslot _].
  rewrite (Rand_bind_run _ _ _ _ _ Hpick).
  rewrite Ht.
  rewrite (Rand_bind_run _ _ _ _ _ (lift_run _ _ _ (team_bases_dense ss))).
  cbn zeta.
  set (available :=
         filter (λ s, getBaseSpecies s ∉
                      (list_to_set (getBaseSpecies <$> ss) : gset string)) pool).
  destruct (length available =? 0) eqn:Hav.
  { eexists _, _. by rewrite mret_run. }
  destruct (pick_Some available g1) as (new & g2 & Hnew & _).
  { intros Hnil. rewrite Hnil in Hav. done. }
  rewrite (Rand_bind_run _ _ _ _ _ Hnew).
  cbn [team_assign from_option].
  rewrite array_set_dense by lia.
  rewrite (Rand_bind_run _ _ _ _ _ (lift_run _ _ _ (validate_dense _))).
  case_bool_decide as Hnd; simpl; rewrite mret_run.
  - eexists _, _. split; [done |].
    assert (Hlen : length (<[slot := new]> ss) = teamSize mode)
      by by rewrite length_insert.
    split; [by eexists | intros _; by eexists].
  - eexists _, _. done.
Qed.

(** ** Anchors are left alone *)

Lemma KeepsAnchors_clone c : KeepsAnchors c (cloneChromosome c).
Proof. split; [done |]. intros i _. apply array_get_spread. Qed.

Lemma KeepsAnchors_refl c : KeepsAnchors c c.
Proof. by split. Qed.

Lemma copy_tail_frame p2 (slots : list nat) cp t0 used t used' (keep : list nat) :
  (∀ slot, slot ∈ slots → slot ∉ keep) →
  copy_tail p2 slots cp t0 used = Ok (t, used') →
  ∀ i, i ∈ keep → array_get t i = array_get t0 i.
Proof.
  intros Hslots. unfold copy_tail.
  apply (for_each_inv
    (λ st : list cell * gset string,
       ∀ i, i ∈ keep → array_get st.1 i = array_get t0 i)); [done |].
  intros [t1 u1] slot [t2 u2] Hslot Hinv; simpl in *.
  destruct (from_point slot cp); [| by intros [= <- _]].
  intros (b & _ & Hstep)%bind_Ok. case_decide; simplify_eq; [done |].
  intros i Hi. rewrite array_get_set_ne; [by apply Hinv |].
  intros ->. by apply (Hslots slot).
Qed.

Lemma crossover_team_frame p1 p2 mode cp t :
  crossover_team p1 p2 mode cp = Ok t →
  ∀ i, i ∈ anchors p1 → array_get t i = array_get (team p1) i.
Proof.
  unfold crossover_team.
  intros (used0 & _ & (used1 & _ & ([t' u] & Hcopy & [= <-])%bind_Ok)%bind_Ok)%bind_Ok.
  intros i Hi. rewrite <- (array_get_spread (team p1)).
  eapply (copy_tail_frame _ _ _ _ _ _ _ (anchors p1)); [| done | done].
  by intros slot [_ ?]%elem_of_getMutableSlots.
Qed.

Lemma crossover_frame p1 p2 mode g child g' :
  crossover p1 p2 mode g = Ok (child, g') → KeepsAnchors p1 child.
Proof.
  unfold crossover.
  destruct (length (getMutableSlots (cloneChromosome p1) (teamSize mode)) =? 0).
  { intros [= <- _]. apply KeepsAnchors_clone. }
  intros (cp & g1 & _ & (t & g2 & [Ht _]%lift_Ok
            & (b & g3 & _ & Hret)%Rand_bind_Ok)%Rand_bind_Ok)%Rand_bind_Ok.
  destruct b; simpl in Hret; injection Hret as <- _.
  - split; [done |]. simpl. by eapply crossover_team_frame.
  - apply KeepsAnchors_clone.
Qed.

Lemma mutate_frame c pool rate mode g c' g' :
  mutate c pool rate mode g = Ok (c', g') → KeepsAnchors c c'.
Proof.
  unfold mutate. intros (r & g1 & _ & Hrest)%Rand_bind_Ok.
  destruct (negb (Qle_bool (u01 r) rate)).
  { injection Hrest as <- _. apply KeepsAnchors_refl. }
  destruct (length (getMutableSlots (cloneChromosome c) (teamSize mode)) =? 0).
  { injection Hrest as <- _. apply KeepsAnchors_clone. }
  apply Rand_bind_Ok in Hrest as (slot & g2 & Hslot & Hrest).
  apply Rand_bind_Ok in Hrest as (bases & g3 & _ & Hrest).
  cbn zeta in Hrest.
  match type of Hrest with
  | context [length ?av =? 0] => destruct (length av =? 0)
  end.
  { injection Hrest as <- _. apply KeepsAnchors_clone. }
  apply Rand_bind_Ok in Hrest as (new & g4 & _ & Hrest).
  apply Rand_bind_Ok in Hrest as (b & g5 & _ & Hrest).
  destruct b; simpl in Hrest; injection Hrest as <- _;
    [| apply KeepsAnchors_refl].
  split; [done |]. intros i Hi. cbn [team].
  rewrite <- (array_get_spread (team c)).
  destruct slot as [slot|]; [| done]. cbn [team_assign].
  apply array_get_set_ne. intros ->.
  pose proof (pick_Ok _ _ _ _ Hslot slot eq_refl)
    as [_ Hno]%elem_of_getMutableSlots.
  done.
Qed.

(** ** The operators and validity *)

Lemma ValidFor_isValidChromosome mode c :
  ValidFor mode c → isValidChromosome c mode = Ok true.
Proof.
  intros (ss & Ht & Hl & Hnd). by apply (isValidChromosome_spec mode c ss).
Qed.

(** Concrete teams: validity by computation. *)
Lemma ValidFor_strings mode c (ss : list string) :
  team c = Str <$> ss →
  length ss =? teamSize mode →
  bool_decide (NoDup (getBaseSpecies <$> ss)) →
  ValidFor mode c.
Proof.
  intros Ht Hl%Is_true_true%Nat.eqb_eq Hnd%bool_decide_unpack. by exists ss.
Defined.

(** C1: crossover of two parents valid for the mode returns a chromosome
    valid for the mode, and so does mutation of a valid chromosome, for every
    pool, every mutation rate and every state of the random source; valid
    means a team of 3 (GBL) or 6 (PlayPokemon) species ids whose base species
    are pairwise distinct, which is what [isValidChromosome] accepts. *)
Theorem operators_preserve_validity (mode : TournamentMode)
    (pool : list string) (rate : Q) (p1 p2 c : Chromosome) (g : Rng) :
  ValidFor mode p1 → ValidFor mode p2 → ValidFor mode c →
  (∃ child g', crossover p1 p2 mode g = Ok (child, g')
     ∧ ValidFor mode child ∧ isValidChromosome child mode = Ok true)
  ∧ (∃ c' g', mutate c pool rate mode g = Ok (c', g')
     ∧ ValidFor mode c' ∧ isValidChromosome c' mode = Ok true).
Proof.
  intros H1 H2 Hc. split.
  - destruct (crossover_run mode p1 p2 g) as (child & g' & Hrun & _ & Hv);
      [by apply ValidFor_WellFormed.. |].
    exists child, g'. split; [done |]. split; [by apply Hv |].
    by apply ValidFor_isValidChromosome, Hv.
  - destruct (mutate_run mode pool rate c g) as (c' & g' & Hrun & _ & Hv);
      [by apply ValidFor_WellFormed |].
    exists c', g'. split; [done |]. split; [by apply Hv |].
    by apply ValidFor_isValidChromosome, Hv.
Qed.

Lemma operators_preserve_validity_witness :
  ValidFor GBL sample_parent1 ∧ ValidFor GBL sample_parent3
  ∧ (∃ child g',
       crossover sample_parent1 sample_parent3 GBL (constant_source draw_half)
       = Ok (child, g')
       ∧ ValidFor GBL child ∧ isValidChromosome child GBL = Ok true)
  ∧ (∃ c' g',
       mutate sample_parent1 sample_pool (1 # 5) GBL (constant_source draw_zero)
       = Ok (c', g')
       ∧ ValidFor GBL c' ∧ isValidChromosome c' GBL = Ok true).
Proof.
  assert (H1 : ValidFor GBL sample_parent1).
  { by apply (ValidFor_strings GBL _ ["azumarill"; "medicham"; "skarmory"]). }
  assert (H3 : ValidFor GBL sample_parent3).
  { by apply (ValidFor_strings GBL _ ["registeel"; "altaria"; "lanturn"]). }
  split; [exact H1 |]. split; [exact H3 |].
  destruct (operators_preserve_validity GBL sample_pool (1 # 5)
              sample_parent1 sample_parent3 sample_parent1
              (constant_source draw_half) H1 H3 H1) as [Hx _].
  destruct (operators_preserve_validity GBL sample_pool (1 # 5)
              sample_parent1 sample_parent3 sample_parent1
              (constant_source draw_zero) H1 H3 H1) as [_ Hm].
  by split.
Defined.

(** C2: whenever crossover (parent 1 being the cloned base) or mutation
    returns a chromosome, its anchors list is the parent's and, at every
    index of that list, its team entry is the parent's team entry. *)
Theorem anchors_never_altered :
  (∀ p1 p2 mode g child g',
     crossover p1 p2 mode g = Ok (child, g') → KeepsAnchors p1 child)
  ∧ (∀ c pool rate mode g c' g',
       mutate c pool rate mode g = Ok (c', g') → KeepsAnchors c c').
Proof.
  split.
  - intros ??????. apply crossover_frame.
  - intros ???????. apply mutate_frame.
Qed.

Lemma anchors_never_altered_witness :
  crossover sample_anchored sample_parent3 GBL (constant_source draw_zero)
  = Ok (MkChromosome [Str "azumarill"; Str "altaria"; Str "lanturn"] [0] 1,
        advance (constant_source draw_zero))
  ∧ KeepsAnchors sample_anchored
      (MkChromosome [Str "azumarill"; Str "altaria"; Str "lanturn"] [0] 1)
  ∧ mutate sample_anchored sample_pool (1 # 5) GBL (constant_source draw_zero)
    = Ok (MkChromosome [Str "azumarill"; Str "lanturn"; Str "skarmory"] [0] 1,
          advance (advance (advance (constant_source draw_zero))))
  ∧ KeepsAnchors sample_anchored
      (MkChromosome [Str "azumarill"; Str "lanturn"; Str "skarmory"] [0] 1).
Proof.
  assert (Hx : crossover sample_anchored sample_parent3 GBL
                 (constant_source draw_zero)
               = Ok (MkChromosome [Str "azumarill"; Str "altaria"; Str "lanturn"]
                       [0] 1,
                     advance (constant_source draw_zero)))
    by (vm_compute; reflexivity).
  assert (Hm : mutate sample_anchored sample_pool (1 # 5) GBL
                 (constant_source draw_zero)
               = Ok (MkChromosome [Str "azumarill"; Str "lanturn"; Str "skarmory"]
                       [0] 1,
                     advance (advance (advance (constant_source draw_zero)))))
    by (vm_compute; reflexivity).
  split; [exact Hx |].
  split; [exact (proj1 anchors_never_altered _ _ _ _ _ _ Hx) |].
  split; [exact Hm |].
  exact (proj2 anchors_never_altered _ _ _ _ _ _ _ Hm).
Defined.

(** ** The defensive check of crossover *)

(** The assembled child can repeat a base species: parent 1's entry kept at
    slot 1 is not recorded as used, and parent 2 brings the same base species
    at slot 2.  The check fails and the clone of parent 1 is returned. *)
Lemma crossover_fallback_reached :
  ValidFor GBL sample_parent1 ∧ ValidFor GBL sample_parent2
  ∧ 1 ∈ getMutableSlots (cloneChromosome sample_parent1) (teamSize GBL)
  ∧ crossover_team sample_parent1 sample_parent2 GBL (Some 1)
    = Ok [Str "azumarill"; Str "medicham"; Str "medicham"]
  ∧ validateTeamUniqueness [Str "azumarill"; Str "medicham"; Str "medicham"]
    = Ok false
  ∧ crossover sample_parent1 sample_parent2 GBL (constant_source draw_half)
    = Ok (cloneChromosome sample_parent1, advance (constant_source draw_half)).
Proof.
  split.
  { by apply (ValidFor_strings GBL _ ["azumarill"; "medicham"; "skarmory"]). }
  split.
  { by apply (ValidFor_strings GBL _
                ["registeel"; "azumarill_shadow"; "medicham"]). }
  split; [apply elem_of_getMutableSlots; split; [simpl; lia | by inversion 1] |].
  split; [by vm_compute |]. split; [by vm_compute |]. by vm_compute.
Qed.

(** C3, amended: for valid parents with a mutable slot, the crossover point
    drawn is a mutable slot and the assembled child team is an array of
    strings of the mode's length; it can repeat a base species, and the final
    check passes exactly when its base species are pairwise distinct, in
    which case the assembled child is returned, and otherwise a clone of
    parent 1 is returned; the returned chromosome is valid either way. *)
Theorem crossover_defensive_check (mode : TournamentMode)
    (p1 p2 : Chromosome) (g : Rng) :
  ValidFor mode p1 → ValidFor mode p2 →
  getMutableSlots (cloneChromosome p1) (teamSize mode) ≠ [] →
  ∃ (point : nat) (ts : list string) (result : Chromosome),
    point ∈ getMutableSlots (cloneChromosome p1) (teamSize mode)
    ∧ crossover_team p1 p2 mode (Some point) = Ok (Str <$> ts)
    ∧ length ts = teamSize mode
    ∧ validateTeamUniqueness (Str <$> ts)
      = Ok (bool_decide (NoDup (getBaseSpecies <$> ts)))
    ∧ result
      = (if bool_decide (NoDup (getBaseSpecies <$> ts))
         then {| team := Str <$> ts; anchors := anchors p1; fitness := fitness p1 |}
         else cloneChromosome p1)
    ∧ crossover p1 p2 mode g = Ok (result, advance g)
    ∧ ValidFor mode result.
Proof.
  intros H1 H2 Hms.
  destruct (pick_Some _ g Hms) as (point & g1 & Hpick & Hpoint).
  rewrite pick_run in Hpick. injection Hpick as Hpick <-.
  destruct (crossover_team_total mode p1 p2 (Some point)) as (ts & Hts & Hlen);
    [by apply ValidFor_WellFormed.. |].
  exists point, ts. eexists. split; [done |]. split; [done |]. split; [done |].
  split; [apply validate_dense |]. split; [reflexivity |].
  split.
  - unfold crossover.
    destruct (length (getMutableSlots (cloneChromosome p1) (teamSize mode)) =? 0)
      eqn:Hz.
    { apply Nat.eqb_eq, nil_length_inv in Hz. done. }
    rewrite (Rand_bind_run _ _ _ _ _ (pick_run _ g)), Hpick.
    rewrite (Rand_bind_run _ _ _ _ _ (lift_run _ _ _ Hts)).
    rewrite (Rand_bind_run _ _ _ _ _ (lift_run _ _ _ (validate_dense ts))).
    by case_bool_decide.
  - case_bool_decide as Hnd.
    + by exists ts.
    + destruct H1 as (ss1 & Ht1 & ?). rewrite (cloneChromosome_dense p1 ss1) by done.
      by exists ss1.
Qed.

Lemma crossover_defensive_check_witness :
  ValidFor GBL sample_parent1 ∧ ValidFor GBL sample_parent2
  ∧ getMutableSlots (cloneChromosome sample_parent1) (teamSize GBL) ≠ []
  ∧ ∃ (point : nat) (ts : list string) (result : Chromosome),
      point ∈ getMutableSlots (cloneChromosome sample_parent1) (teamSize GBL)
      ∧ crossover_team sample_parent1 sample_parent2 GBL (Some point)
        = Ok (Str <$> ts)
      ∧ length ts = teamSize GBL
      ∧ validateTeamUniqueness (Str <$> ts)
        = Ok (bool_decide (NoDup (getBaseSpecies <$> ts)))
      ∧ result
        = (if bool_decide (NoDup (getBaseSpecies <$> ts))
           then {| team := Str <$> ts;
                   anchors := anchors sample_parent1;
                   fitness := fitness sample_parent1 |}
           else cloneChromosome sample_parent1)
      ∧ crossover sample_parent1 sample_parent2 GBL (constant_source draw_half)
        = Ok (result, advance (constant_source draw_half))
      ∧ ValidFor GBL result.
Proof.
  assert (H1 : ValidFor GBL sample_parent1).
  { by apply (ValidFor_strings GBL _ ["azumarill"; "medicham"; "skarmory"]). }
  assert (H2 : ValidFor GBL sample_parent2).
  { by apply (ValidFor_strings GBL _
                ["registeel"; "azumarill_shadow"; "medicham"]). }
  assert (Hms : getMutableSlots (cloneChromosome sample_parent1) (teamSize GBL)
                ≠ []) by (vm_compute; discriminate).
  split; [exact H1 |]. split; [exact H2 |]. split; [exact Hms |].
  exact (crossover_defensive_check GBL sample_parent1 sample_parent2
           (constant_source draw_half) H1 H2 Hms).
Defined.

(** ** Sorting *)

Section Sorting.
Context {A : Type} (before : A → A → bool) (R : relation A).
Hypothesis before_R : ∀ a b, before a b = true → R a b.
Hypothesis not_before_R : ∀ a b, before a b = false → R b a.
Hypothesis R_trans : Transitive R.

Lemma sort_insert_perm (x : A) (l : list A) : sort_insert before x l ≡ₚ x :: l.
Proof.
  induction l as [|y l IH]; simpl; [done |].
  destruct (before x y); [done |]. rewrite IH. apply Permutation_swap.
Qed.

Lemma array_sort_perm (l : list A) : array_sort before l ≡ₚ l.
Proof.
  induction l as [|x l IH]; simpl; [done |].
  rewrite sort_insert_perm. by rewrite IH.
Qed.

Lemma array_sort_length (l : list A) : length (array_sort before l) = length l.
Proof. apply Permutation_length, array_sort_perm. Qed.

Lemma sort_insert_sorted (x : A) (l : list A) :
  StronglySorted R l → StronglySorted R (sort_insert before x l).
Proof.
  induction 1 as [|y l Hl IH Hy]; simpl.
  - repeat constructor.
  - destruct (before x y) eqn:Hxy.
    + constructor; [by constructor |].
      constructor; [by apply before_R |].
      eapply Forall_impl; [exact Hy |]. intros z Hz.
      etrans; [by apply before_R | done].
    + constructor; [done |].
      rewrite sort_insert_perm. constructor; [by apply not_before_R | done].
Qed.

Lemma array_sort_sorted (l : list A) : StronglySorted R (array_sort before l).
Proof.
  induction l as [|x l IH]; simpl; [constructor | by apply sort_insert_sorted].
Qed.
End Sorting.

Lemma StronglySorted_take {A : Type} (R : relation A) (n : nat) (l : list A) :
  StronglySorted R l → StronglySorted R (take n l).
Proof.
  intros Hl. revert n. induction Hl as [|x l Hl IH Hx]; intros [|n]; simpl;
    try constructor; [apply IH | by apply Forall_take].
Qed.

Lemma StronglySorted_lookup {A : Type} (R : relation A) (l : list A) i j a b :
  StronglySorted R l → i < j → l !! i = Some a → l !! j = Some b → R a b.
Proof.
  intros Hl. revert i j. induction Hl as [|x l Hl IH Hx]; intros i j Hij Hi Hj.
  - done.
  - destruct j as [|j]; [lia |]. destruct i as [|i]; simpl in *.
    + simplify_eq. eapply Forall_forall; [exact Hx |].
      by eapply list_elem_of_lookup_2.
    + eapply (IH i j); [lia | done | done].
Qed.

Lemma fitter_before (a b : Chromosome) :
  Qle_bool (fitness b - fitness a) 0 = true → fitter a b.
Proof. intros H%Qle_bool_iff. unfold fitter. lra. Qed.

Lemma fitter_not_before (a b : Chromosome) :
  Qle_bool (fitness b - fitness a) 0 = false → fitter b a.
Proof.
  intros H. unfold fitter.
  destruct (Qlt_le_dec 0 (fitness b - fitness a)) as [Hlt|Hle]; [lra |].
  apply Qle_bool_iff in Hle. congruence.
Qed.

#[local] Instance fitter_trans : Transitive fitter.
Proof. intros a b c. unfold fitter. lra. Qed.

(** [sortByFitness] returns the chromosomes of the population, the fitter
    ones first. *)
Lemma sortByFitness_perm (population : list Chromosome) :
  sortByFitness population ≡ₚ population.
Proof. apply array_sort_perm. Qed.

Lemma sortByFitness_sorted (population : list Chromosome) :
  StronglySorted fitter (sortByFitness population).
Proof.
  apply array_sort_sorted;
    [apply fitter_before | apply fitter_not_before | apply fitter_trans].
Qed.

Lemma sortByFitness_length (population : list Chromosome) :
  length (sortByFitness population) = length population.
Proof. apply array_sort_length. Qed.

Lemma slice0_take {A : Type} (arr : list A) (e : Z) :
  (0 <= e)%Z → slice0 arr e = take (Z.to_nat e) arr.
Proof.
  intros He. unfold slice0. rewrite (proj2 (Z.ltb_ge e 0)) by done.
  destruct (Z.min_spec e (Z.of_nat (length arr))) as [[? ->]|[? ->]]; [done |].
  rewrite Nat2Z.id. rewrite !take_ge; [done | lia | lia].
Qed.

Lemma slice0_length_le {A : Type} (arr : list A) (e : Z) :
  length (slice0 arr e) ≤ length arr.
Proof. unfold slice0. rewrite length_take. lia. Qed.

(** ** Convergence *)

Lemma topCount_nonneg (population : list Chromosome) :
  (0 <= topCount population)%Z.
Proof.
  unfold topCount. rewrite <- (Qceiling_Z 0). apply Qceiling_resp_le.
  apply Qmult_le_0_compat; [| done].
  change 0%Q with (inject_Z 0). rewrite <- Zle_Qle. lia.
Qed.

Lemma sorted_first_last (l : list Chromosome) (best last : Chromosome) :
  StronglySorted fitter l →
  l !! 0 = Some best → l !! (length l - 1) = Some last →
  ∀ c, c ∈ l → fitter best c ∧ fitter c last.
Proof.
  intros Hl Hbest Hlast c [i Hi]%list_elem_of_lookup_1.
  pose proof (lookup_lt_Some _ _ _ Hi) as Hlt. split.
  - destruct i as [|i]; [simplify_eq; unfold fitter; lra |].
    eapply (StronglySorted_lookup fitter l 0 (Datatypes.S i)); [done | lia | done..].
  - destruct (decide (i = length l - 1)) as [->|Hne];
      [simplify_eq; unfold fitter; lra |].
    eapply (StronglySorted_lookup fitter l i (length l - 1)); [done | lia | done..].
Qed.

Lemma top_slice_sorted (population : list Chromosome) :
  StronglySorted fitter (top_slice population).
Proof. apply StronglySorted_take, sortByFitness_sorted. Qed.

Lemma hasConverged_top_slice (population : list Chromosome) (ε : float) :
  hasConverged population ε
  = match top_slice population with
    | [] => Ok true
    | best :: _ =>
        match last (top_slice population) with
        | Some worst =>
            Ok (PrimFloat.ltb (double (fitness best) - double (fitness worst)) ε)
        | None => Throw
        end
    end.
Proof.
  unfold hasConverged. rewrite slice0_take by apply topCount_nonneg.
  change (take (Z.to_nat (topCount population)) (sortByFitness population))
    with (top_slice population).
  rewrite last_lookup.
  destruct (top_slice population) as [|best rest]; [done |].
  cbn [length Nat.eqb lookup list_lookup pred].
  by replace (Datatypes.S (length rest) - 1) with (length rest) by lia.
Qed.

(** With all fitness values of the top slice identical and a threshold of
    zero the spread is not below the threshold. *)
Lemma hasConverged_identical_zero_threshold :
  fitness <$> top_slice sample_uniform_population = [1%Q; 1%Q]
  ∧ hasConverged sample_uniform_population 0%float = Ok false.
Proof. split; by vm_compute. Qed.

(** The spread is the rounded difference: with a top slice of fitness 1 and
    2^-60 the exact difference is below 1, the difference of the doubles is
    1, and against a threshold of 1 the population has not converged. *)
Lemma hasConverged_rounded_spread :
  fitness <$> top_slice sample_close_population
  = [1%Q; (1 # 1152921504606846976)%Q]
  ∧ forallb is_double (fitness <$> top_slice sample_close_population) = true
  ∧ (1 - (1 # 1152921504606846976) < 1)%Q
  ∧ (double 1 - double (1 # 1152921504606846976))%float = 1%float
  ∧ hasConverged sample_close_population 1%float = Ok false.
Proof. repeat split; by vm_compute. Qed.

(** ** Rounding of a difference of doubles *)

Section DoubleRounding.
Local Open Scope Z_scope.

Lemma fexp_double (k : Z) : fexp prec emax k = Z.max (k - 53) (-1074).
Proof. reflexivity. Qed.

Lemma digits2_pos_bounds (m : positive) :
  2 ^ (Z.pos (digits2_pos m) - 1) <= Z.pos m < 2 ^ Z.pos (digits2_pos m).
Proof.
  induction m as [m IH | m IH |]; cbn [digits2_pos]; [| | by compute].
  all: rewrite Pos2Z.inj_succ;
    replace (Z.succ (Z.pos (digits2_pos m)) - 1)
      with (Z.succ (Z.pos (digits2_pos m) - 1)) by lia;
    rewrite !Z.pow_succ_r by lia; lia.
Qed.

Lemma pow2_gt_0 (k : Z) : 0 <= k → 0 < 2 ^ k.
Proof. intros. by apply Z.pow_pos_nonneg. Qed.

(** A mantissa of [d] binary digits. *)
Lemma digits2_pos_unique (m : positive) (d : Z) :
  2 ^ (d - 1) <= Z.pos m < 2 ^ d → 0 < d → Z.pos (digits2_pos m) = d.
Proof.
  intros [Hlo Hhi] Hd. pose proof (digits2_pos_bounds m) as [Hlo' Hhi'].
  assert (H1 : d - 1 < Z.pos (digits2_pos m)).
  { apply (Z.pow_lt_mono_r_iff 2); lia. }
  assert (H2 : Z.pos (digits2_pos m) - 1 < d).
  { apply (Z.pow_lt_mono_r_iff 2); lia. }
  lia.
Qed.

Lemma shr_1_m (r : shr_record) :
  0 <= shr_m r → shr_m (shr_1 r) = shr_m r / 2 ∧ 0 <= shr_m (shr_1 r).
Proof.
  destruct r as [m r s]. cbn [shr_m]. intros Hm.
  destruct m as [|[p|p|]|p]; cbn [shr_1 shr_m]; try lia.
  all: rewrite <- Z.div2_div; cbn; lia.
Qed.

Lemma iter_shr_1_m (p : positive) (r : shr_record) :
  0 <= shr_m r →
  shr_m (SpecFloat.iter_pos shr_1 p r) = shr_m r / 2 ^ Z.pos p
  ∧ 0 <= shr_m (SpecFloat.iter_pos shr_1 p r).
Proof.
  revert r. induction p as [p IH | p IH |]; intros r Hr;
    cbn [SpecFloat.iter_pos].
  - destruct (shr_1_m r Hr) as [E1 N1].
    destruct (IH _ N1) as [E2 N2]. destruct (IH _ N2) as [E3 N3].
    split; [| done]. rewrite E3, E2, E1.
    assert (Hpow : 2 ^ Z.pos p~1 = 2 * 2 ^ Z.pos p * 2 ^ Z.pos p).
    { rewrite (Pos2Z.inj_xI p).
      replace (2 * Z.pos p + 1) with (1 + Z.pos p + Z.pos p) by lia.
      rewrite !Z.pow_add_r by lia. lia. }
    rewrite Hpow. pose proof (pow2_gt_0 (Z.pos p) ltac:(lia)).
    rewrite !Z.div_div by lia. f_equal. ring.
  - destruct (IH _ Hr) as [E2 N2]. destruct (IH _ N2) as [E3 N3].
    split; [| done]. rewrite E3, E2.
    assert (Hpow : 2 ^ Z.pos p~0 = 2 ^ Z.pos p * 2 ^ Z.pos p).
    { by rewrite (Pos2Z.inj_xO p), <- Z.add_diag, Z.pow_add_r by lia. }
    rewrite Hpow. pose proof (pow2_gt_0 (Z.pos p) ltac:(lia)).
    by rewrite !Z.div_div by lia.
  - destruct (shr_1_m r Hr) as [E1 N1]. split; [| done]. by rewrite E1.
Qed.

Lemma round_nearest_even_bounds (m : Z) (l : location) :
  m <= round_nearest_even m l <= m + 1.
Proof.
  destruct l as [|[]]; cbn [round_nearest_even]; try lia.
  destruct (Z.even m); lia.
Qed.

Lemma iter_xO_val (m k : positive) :
  Z.pos (Pos.iter xO m k) = Z.pos m * 2 ^ Z.pos k
  ∧ Z.pos (digits2_pos (Pos.iter xO m k)) = Z.pos (digits2_pos m) + Z.pos k.
Proof.
  induction k as [|k [IH1 IH2]] using Pos.peano_ind.
  - cbn [Pos.iter digits2_pos]. rewrite Pos2Z.inj_succ. lia.
  - rewrite Pos.iter_succ. cbn [digits2_pos].
    rewrite (Pos2Z.inj_xO (Pos.iter xO m k)), IH1, !Pos2Z.inj_succ, IH2, Z.pow_succ_r by lia. lia.
Qed.

Lemma canonical_mantissa_inv (m : positive) (e : Z) :
  canonical_mantissa prec emax m e = true →
  -1074 <= e ∧ Z.pos (digits2_pos m) <= 53
  ∧ (-1074 < e → Z.pos (digits2_pos m) = 53)
  ∧ Z.pos m < 2 ^ 53.
Proof.
  unfold canonical_mantissa. rewrite fexp_double. intros H%Z.eqb_eq.
  pose proof (digits2_pos_bounds m) as [_ Hhi].
  assert (Hd : Z.pos (digits2_pos m) <= 53) by lia.
  split; [lia |]. split; [done |]. split; [lia |].
  eapply Z.lt_le_trans; [exact Hhi |]. apply Z.pow_le_mono_r; lia.
Qed.

(** Cutting a long mantissa down to 53 digits keeps it at or above every
    double below the number. *)
Lemma floor_keeps_doubles_below (M : positive) (ez : Z) (mt : positive)
    (et : Z) :
  let d := Z.pos (digits2_pos M) in
  -1074 <= ez → 53 < d →
  canonical_mantissa prec emax mt et = true →
  Z.pos mt * 2 ^ (et + 1074) <= Z.pos M * 2 ^ (ez + 1074) →
  Z.pos mt * 2 ^ (et + 1074)
  <= Z.pos M / 2 ^ (d - 53) * 2 ^ (d - 53 + ez + 1074).
Proof.
  intros d Hez Hd Hcan Hle.
  pose proof (digits2_pos_bounds M) as [HMlo HMhi]. fold d in HMlo, HMhi.
  pose proof (digits2_pos_bounds mt) as [Htlo Hthi].
  set (dt := Z.pos (digits2_pos mt)) in *.
  unfold canonical_mantissa in Hcan. rewrite fexp_double in Hcan.
  apply Z.eqb_eq in Hcan. fold dt in Hcan.
  set (n := d - 53) in *. set (Ez := ez + 1074) in *.
  set (Et := et + 1074) in *.
  assert (HEz : 0 <= Ez) by lia. assert (HEt : 0 <= Et) by lia.
  assert (Hn : 0 < n) by lia.
  replace (n + ez + 1074) with (Ez + n) by lia.
  pose proof (pow2_gt_0 Ez HEz) as HA. pose proof (pow2_gt_0 n ltac:(lia)) as HB.
  pose proof (pow2_gt_0 Et HEt) as HT.
  rewrite (Z.pow_add_r 2 Ez n) by lia.
  set (q := Z.pos M / 2 ^ n).
  assert (Hq1 : q * 2 ^ n <= Z.pos M).
  { unfold q. rewrite Z.mul_comm. apply Z.mul_div_le. done. }
  assert (Hq2 : Z.pos M < (q + 1) * 2 ^ n).
  { unfold q. rewrite Z.mul_comm.
    replace (Z.pos M / 2 ^ n + 1) with (Z.succ (Z.pos M / 2 ^ n)) by lia.
    apply Z.mul_succ_div_gt. done. }
  assert (Hd52 : 2 ^ (d - 1) = 2 ^ 52 * 2 ^ n).
  { rewrite <- Z.pow_add_r by lia. f_equal. lia. }
  assert (Hq3 : 2 ^ 52 <= q).
  { apply Z.div_le_lower_bound; [done |]. rewrite Z.mul_comm. lia. }
  assert (Hsum : dt - 1 + Et < d + Ez).
  { apply (Z.pow_lt_mono_r_iff 2); [lia | lia |].
    rewrite !Z.pow_add_r by lia.
    pose proof (pow2_gt_0 (dt - 1) ltac:(lia)).
    pose proof (pow2_gt_0 d ltac:(lia)). nia. }
  destruct (Z.eq_dec (dt + Et) (d + Ez)) as [Heq | Hne].
  - assert (HEtn : Et = Ez + n) by lia.
    rewrite HEtn in Hle |- *. rewrite (Z.pow_add_r 2 Ez n) in Hle |- * by lia.
    assert (HmB : Z.pos mt * 2 ^ n <= Z.pos M).
    { apply (Z.mul_le_mono_pos_r _ _ (2 ^ Ez)); [done |]. lia. }
    assert (Hmq : Z.pos mt < q + 1).
    { apply (Z.mul_lt_mono_pos_r (2 ^ n)); [done |]. lia. }
    assert (Hmq' : Z.pos mt <= q) by lia.
    apply Z.mul_le_mono_nonneg_r; [| lia].
    apply Z.mul_nonneg_nonneg; lia.
  - assert (Hlt : dt + Et <= d + Ez - 1) by lia.
    assert (H1 : Z.pos mt * 2 ^ Et < 2 ^ (dt + Et)).
    { rewrite Z.pow_add_r by lia. nia. }
    assert (H2 : 2 ^ (dt + Et) <= 2 ^ (d + Ez - 1))
      by (apply Z.pow_le_mono_r; lia).
    assert (H3 : 2 ^ (d + Ez - 1) = 2 ^ 52 * (2 ^ Ez * 2 ^ n)).
    { rewrite <- !Z.pow_add_r by lia. f_equal. lia. }
    nia.
Qed.

Lemma shr_fexp_exact (m : positive) (e : Z) :
  fexp prec emax (Z.pos (digits2_pos m) + e) = e →
  shr_fexp prec emax (Z.pos m) e loc_Exact
  = ({| shr_m := Z.pos m; shr_r := false; shr_s := false |}, e).
Proof.
  intros H. unfold shr_fexp. cbn [Zdigits2]. rewrite H, Z.sub_diag. done.
Qed.

Lemma binary_round_aux_exact (s : bool) (m : positive) (e : Z) :
  fexp prec emax (Z.pos (digits2_pos m) + e) = e →
  binary_round_aux prec emax s (Z.pos m) e loc_Exact
  = if e <=? emax - prec then S754_finite s m e
    else S754_infinity s.
Proof.
  intros H. unfold binary_round_aux. rewrite (shr_fexp_exact m e H).
  cbn [shr_m loc_of_shr_record round_nearest_even].
  rewrite (shr_fexp_exact m e H). done.
Qed.

Lemma shr_fexp_shift (m : positive) (e : Z) (l : location) :
  0 < fexp prec emax (Z.pos (digits2_pos m) + e) - e →
  ∃ r, shr_fexp prec emax (Z.pos m) e l
       = (r, fexp prec emax (Z.pos (digits2_pos m) + e))
     ∧ shr_m r
       = Z.pos m / 2 ^ (fexp prec emax (Z.pos (digits2_pos m) + e) - e).
Proof.
  intros Hn. unfold shr_fexp. cbn [Zdigits2].
  set (n := fexp prec emax (Z.pos (digits2_pos m) + e) - e) in *.
  unfold shr. destruct n as [| p | p] eqn:Hp; try lia.
  eexists. split.
  - f_equal. lia.
  - assert (Hm : 0 <= shr_m (shr_record_of_loc (Z.pos m) l))
      by (by destruct l as [| []]; cbn).
    destruct (iter_shr_1_m p _ Hm) as [-> _].
    by destruct l as [| []]; cbn.
Qed.

Lemma digits_le_53_lt (m : positive) :
  Z.pos (digits2_pos m) <= 53 → Z.pos m < 2 ^ 53.
Proof.
  intros H. pose proof (digits2_pos_bounds m) as [_ Hhi].
  eapply Z.lt_le_trans; [exact Hhi |]. apply Z.pow_le_mono_r; lia.
Qed.

(** Rounding a positive multiple of the smallest double: the result is
    [+∞] or a positive double that no double below the number exceeds. *)
Lemma binary_round_below (M : positive) (ez : Z) :
  -1074 <= ez →
  binary_round prec emax false M ez = S754_infinity false
  ∨ ∃ m e, binary_round prec emax false M ez = S754_finite false m e
      ∧ Z.pos m < 2 ^ 53 ∧ -1074 <= e
      ∧ ∀ mt et, canonical_mantissa prec emax mt et = true →
          Z.pos mt * 2 ^ (et + 1074) <= Z.pos M * 2 ^ (ez + 1074) →
          Z.pos mt * 2 ^ (et + 1074) <= Z.pos m * 2 ^ (e + 1074).
Proof.
  intros Hez. unfold binary_round.
  set (d := Z.pos (digits2_pos M)).
  assert (Hdpos : 0 < d) by (unfold d; lia).
  destruct (Z_lt_le_dec 53 d) as [Hlong | Hshort].
  - (* more than 53 digits: the mantissa is cut and rounded *)
    assert (Hstar : fexp prec emax (d + ez) = d - 53 + ez)
      by (rewrite fexp_double; lia).
    rewrite Hstar. unfold shl_align.
    destruct (d - 53 + ez - ez) as [| k | k] eqn:Hk; try lia.
    unfold binary_round_aux.
    destruct (shr_fexp_shift M ez loc_Exact) as (r & Hr & Hm);
      [fold d; lia |].
    fold d in Hr, Hm. rewrite Hstar in Hr, Hm. rewrite Hr.
    replace (d - 53 + ez - ez) with (d - 53) in Hm by lia.
    pose proof (round_nearest_even_bounds (shr_m r) (loc_of_shr_record r))
      as Hq'.
    set (q' := round_nearest_even (shr_m r) (loc_of_shr_record r)) in *.
    pose proof (digits2_pos_bounds M) as [HMlo HMhi]. fold d in HMlo, HMhi.
    pose proof (pow2_gt_0 (d - 53) ltac:(lia)) as HB.
    assert (Hd52 : 2 ^ (d - 1) = 2 ^ 52 * 2 ^ (d - 53)).
    { rewrite <- Z.pow_add_r by lia. f_equal. lia. }
    assert (Hd53 : 2 ^ d = 2 ^ 53 * 2 ^ (d - 53)).
    { rewrite <- Z.pow_add_r by lia. f_equal. lia. }
    assert (Hq3 : 2 ^ 52 <= shr_m r).
    { rewrite Hm. apply Z.div_le_lower_bound; [done |].
      rewrite Z.mul_comm. lia. }
    assert (Hq4 : shr_m r < 2 ^ 53).
    { rewrite Hm. apply Z.div_lt_upper_bound; [done |].
      rewrite Z.mul_comm. lia. }
    assert (Hbelow : ∀ mt et, canonical_mantissa prec emax mt et = true →
      Z.pos mt * 2 ^ (et + 1074) <= Z.pos M * 2 ^ (ez + 1074) →
      Z.pos mt * 2 ^ (et + 1074) <= q' * 2 ^ (d - 53 + ez + 1074)).
    { intros mt et Hcan Hle.
      etrans; [exact (floor_keeps_doubles_below M ez mt et Hez Hlong Hcan Hle) |].
      fold d. rewrite <- Hm.
      apply Z.mul_le_mono_nonneg_r; [| lia].
      apply Z.lt_le_incl, pow2_gt_0. lia. }
    destruct q' as [| p | p] eqn:Hp; try lia.
    destruct (Z_lt_le_dec (Z.pos p) (2 ^ 53)) as [Hp53 | Hp53].
    + assert (Hdp : Z.pos (digits2_pos p) = 53).
      { apply digits2_pos_unique; [| lia]. split; [| done].
        change (53 - 1) with 52. lia. }
      rewrite (shr_fexp_exact p (d - 53 + ez))
        by (rewrite Hdp, fexp_double; lia).
      cbn [shr_m].
      destruct (d - 53 + ez <=? emax - prec); [right | by left].
      exists p, (d - 53 + ez).
      split; [done |]. split; [done |]. split; [lia |].
      exact Hbelow.
    + assert (Hpe : p = 9007199254740992%positive).
      { assert (Z.pos p = 2 ^ 53) by lia. change (2 ^ 53) with
          (Z.pos 9007199254740992) in *. congruence. }
      subst p. unfold shr_fexp. cbn [Zdigits2].
      change (Z.pos (digits2_pos 9007199254740992)) with 54.
      rewrite fexp_double.
      replace ((54 + (d - 53 + ez) - 53) `max` (-1074) - (d - 53 + ez))
        with 1 by lia.
      cbn [shr shr_record_of_loc SpecFloat.iter_pos shr_1 shr_m].
      destruct (d - 53 + ez + 1 <=? emax - prec); [right | by left].
      exists 4503599627370496%positive, (d - 53 + ez + 1).
      split; [done |]. split; [done |]. split; [lia |].
      intros mt et Hcan Hle. etrans; [exact (Hbelow mt et Hcan Hle) |].
      replace (d - 53 + ez + 1 + 1074) with (1 + (d - 53 + ez + 1074)) by lia.
      rewrite (Z.pow_add_r 2 1) by lia. lia.
  - (* at most 53 digits: nothing is lost *)
    pose proof (fexp_double (d + ez)) as Hstar.
    set (estar := fexp prec emax (d + ez)) in *.
    unfold shl_align.
    destruct (estar - ez) as [| k | k] eqn:Hk; try lia.
    + rewrite binary_round_aux_exact by (fold d; fold estar; lia).
      destruct (ez <=? emax - prec); [right | by left].
      exists M, ez.
      split; [done |]. split; [by apply digits_le_53_lt |]. by split.
    + destruct (iter_xO_val M k) as [Hval Hdig]. fold d in Hdig.
      assert (Hfix : fexp prec emax
          (Z.pos (digits2_pos (Pos.iter xO M k)) + estar) = estar).
      { rewrite Hdig. replace (d + Z.pos k + estar) with (d + ez) by lia.
        done. }
      rewrite binary_round_aux_exact by done.
      destruct (estar <=? emax - prec); [right | by left].
      exists (Pos.iter xO M k), estar.
      split; [done |]. split; [| split].
      * apply digits_le_53_lt. rewrite Hdig. lia.
      * lia.
      * intros mt et _ Hle. rewrite Hval.
        replace (ez + 1074) with (Z.pos k + (estar + 1074)) in Hle by lia.
        rewrite (Z.pow_add_r 2 (Z.pos k)) in Hle by lia.
        by rewrite Z.mul_assoc in Hle.
Qed.

Lemma shl_align_value (m : positive) (e ez : Z) :
  ez <= e → Z.pos (fst (shl_align m e ez)) = Z.pos m * 2 ^ (e - ez).
Proof.
  intros Hle. unfold shl_align.
  destruct (ez - e) as [| k | k] eqn:Hk; try lia; cbn [fst].
  - replace (e - ez) with 0 by lia. lia.
  - destruct (iter_xO_val m k) as [-> _]. f_equal. f_equal. lia.
Qed.

Lemma valid_binary_finite (s : bool) (m : positive) (e : Z) :
  valid_binary (S754_finite s m e) = true →
  canonical_mantissa prec emax m e = true.
Proof. cbn. unfold bounded. by intros [H _]%andb_prop. Qed.

Lemma scaled_finite_pos (m : positive) (e : Z) :
  -1074 <= e → 0 < Z.pos m * 2 ^ (e + 1074).
Proof.
  intros He. pose proof (pow2_gt_0 (e + 1074) ltac:(lia)). lia.
Qed.

(** Comparison of a positive double with a valid one follows the values. *)
Lemma SFltb_scaled (m : positive) (e : Z) (t : spec_float) :
  Z.pos m < 2 ^ 53 → -1074 <= e →
  valid_binary t = true → finite_sf t = true →
  SFltb (S754_finite false m e) t = true →
  ∃ mt et, t = S754_finite false mt et
    ∧ canonical_mantissa prec emax mt et = true
    ∧ Z.pos m * 2 ^ (e + 1074) < Z.pos mt * 2 ^ (et + 1074).
Proof.
  intros Hm He Hvalid Hfin Hlt.
  destruct t as [st | st | | st mt et]; try done.
  apply valid_binary_finite in Hvalid.
  destruct st; [done |].
  {
    exists mt, et. split; [done |]. split; [done |].
    destruct (canonical_mantissa_inv mt et Hvalid) as (Het & Hdt & Hnorm & Hmt).
    unfold SFltb, SFcompare in Hlt.
    destruct (Z.compare_spec e et) as [-> | Hee | Hee]; try done.
    + assert (Hmm : (m < mt)%positive).
      { change (Pos.compare_cont Eq m mt) with (m ?= mt)%positive in Hlt.
        by destruct (Pos.compare_spec m mt). }
      pose proof (pow2_gt_0 (et + 1074) ltac:(lia)). nia.
    + pose proof (digits2_pos_bounds mt) as [Hlo _].
      rewrite Hnorm in Hlo by lia. change (53 - 1) with 52 in Hlo.
      replace (et + 1074) with ((et - e - 1) + (1 + (e + 1074))) by lia.
      rewrite (Z.pow_add_r 2 (et - e - 1)), (Z.pow_add_r 2 1) by lia.
      pose proof (pow2_gt_0 (et - e - 1) ltac:(lia)).
      pose proof (pow2_gt_0 (e + 1074) ltac:(lia)).
      change (2 ^ 1) with 2. change (2 ^ 53) with (2 * 2 ^ 52) in Hm.
      assert (Z.pos m * 2 ^ (e + 1074) < 2 ^ 52 * (2 * 2 ^ (e + 1074)))
        by nia.
      assert (2 ^ 52 * (2 * 2 ^ (e + 1074))
              <= Z.pos mt * (1 * (2 * 2 ^ (e + 1074)))) by nia.
      assert (Z.pos mt * (1 * (2 * 2 ^ (e + 1074)))
              <= Z.pos mt * (2 ^ (et - e - 1) * (2 * 2 ^ (e + 1074)))).
      { apply Z.mul_le_mono_nonneg_l; [lia |].
        apply Z.mul_le_mono_nonneg_r; lia. }
      lia. }
Qed.

Lemma scaled_negative (t : spec_float) :
  valid_binary t = true → finite_sf t = true → scaled t < 0 →
  ∃ mt et, t = S754_finite true mt et.
Proof.
  intros Hvalid Hfin Hneg. destruct t as [| | | st mt et]; try done;
    try (cbn in Hneg; lia).
  apply valid_binary_finite, canonical_mantissa_inv in Hvalid
    as (Het & _).
  pose proof (scaled_finite_pos mt et Het).
  destruct st; [by eauto |]. cbn in Hneg. lia.
Qed.

(** A positive double is not below a valid double of smaller value. *)
Lemma SFltb_positive_false (m : positive) (e : Z) (t : spec_float) :
  Z.pos m < 2 ^ 53 → -1074 <= e →
  valid_binary t = true → finite_sf t = true →
  (∀ mt et, t = S754_finite false mt et →
     canonical_mantissa prec emax mt et = true →
     Z.pos mt * 2 ^ (et + 1074) <= Z.pos m * 2 ^ (e + 1074)) →
  SFltb (S754_finite false m e) t = false.
Proof.
  intros Hm He Hvalid Hfin Hbelow.
  destruct (SFltb (S754_finite false m e) t) eqn:Hlt; [| done].
  destruct (SFltb_scaled m e t Hm He Hvalid Hfin Hlt)
    as (mt & et & -> & Hcan & Hgt).
  specialize (Hbelow mt et eq_refl Hcan). lia.
Qed.

(** Subtraction of doubles rounds monotonically: when the exact difference
    is non-negative and above a double [t], the computed difference is not
    below [t]. *)
Lemma SFsub_not_below (a b t : spec_float) :
  valid_binary a = true → finite_sf a = true →
  valid_binary b = true → finite_sf b = true →
  valid_binary t = true → finite_sf t = true →
  scaled b <= scaled a →
  scaled t < scaled a - scaled b →
  SFltb (SFsub prec emax a b) t = false.
Proof.
  intros Hva Hfa Hvb Hfb Hvt Hft Hge Hgt.
  destruct a as [sa | sa | | sa ma ea]; try done;
    destruct b as [sb | sb | | sb mb eb]; try done.
  - (* zero - zero *)
    cbn in Hgt.
    destruct (scaled_negative t Hvt Hft ltac:(lia)) as (mt & et & ->).
    by destruct sa, sb.
  - (* zero - finite *)
    apply valid_binary_finite, canonical_mantissa_inv in Hvb
      as (Heb & _ & _ & Hmb).
    pose proof (scaled_finite_pos mb eb Heb).
    destruct sb; cbn in Hge, Hgt; [| lia].
    cbn [SFsub negb].
    apply SFltb_positive_false; try done.
    intros mt et -> _. cbn in Hgt. lia.
  - (* finite - zero *)
    apply valid_binary_finite, canonical_mantissa_inv in Hva
      as (Hea & _ & _ & Hma).
    pose proof (scaled_finite_pos ma ea Hea).
    destruct sa; cbn in Hge, Hgt; [lia |].
    cbn [SFsub].
    apply SFltb_positive_false; try done.
    intros mt et -> _. cbn in Hgt. lia.
  - (* finite - finite *)
    apply valid_binary_finite, canonical_mantissa_inv in Hva
      as (Hea & _ & _ & Hma).
    apply valid_binary_finite, canonical_mantissa_inv in Hvb
      as (Heb & _ & _ & Hmb).
    cbn [SFsub].
    set (ez := Z.min ea eb).
    assert (Hez : -1074 <= ez) by lia.
    pose proof (shl_align_value ma ea ez ltac:(lia)) as Hxa.
    pose proof (shl_align_value mb eb ez ltac:(lia)) as Hxb.
    set (xa := Z.pos (fst (shl_align ma ea ez))) in *.
    set (xb := Z.pos (fst (shl_align mb eb ez))) in *.
    pose proof (pow2_gt_0 (ez + 1074) ltac:(lia)) as HE.
    assert (Hsa : scaled (S754_finite sa ma ea)
                  = cond_Zopp sa xa * 2 ^ (ez + 1074)).
    { cbn [scaled]. rewrite Hxa.
      replace (ea + 1074) with ((ea - ez) + (ez + 1074)) by lia.
      rewrite Z.pow_add_r by lia. destruct sa; cbn [cond_Zopp]; lia. }
    assert (Hsb : scaled (S754_finite sb mb eb)
                  = cond_Zopp sb xb * 2 ^ (ez + 1074)).
    { cbn [scaled]. rewrite Hxb.
      replace (eb + 1074) with ((eb - ez) + (ez + 1074)) by lia.
      rewrite Z.pow_add_r by lia. destruct sb; cbn [cond_Zopp]; lia. }
    rewrite Hsa, Hsb in Hge, Hgt.
    rewrite <- Z.mul_sub_distr_r in Hgt.
    set (D := cond_Zopp sa xa - cond_Zopp sb xb) in *.
    assert (HD : 0 <= D) by nia.
    unfold binary_normalize. destruct D as [| M | M] eqn:HDe; try lia.
    + destruct (scaled_negative t Hvt Hft ltac:(lia)) as (mt & et & ->).
      done.
    + destruct (binary_round_below M ez Hez) as
        [-> | (m & e & -> & Hm & He & Hbelow)].
      * by destruct t as [[] | [] | | [] ? ?].
      * apply SFltb_positive_false; try done.
        intros mt et -> Hcan. apply Hbelow; [done |].
        cbn [scaled cond_Zopp] in Hgt. lia.
Qed.

Lemma SFsub_diag (a : spec_float) :
  finite_sf a = true → SFsub prec emax a a = S754_zero false.
Proof.
  destruct a as [[] | | | s m e]; try done. intros _.
  cbn [SFsub]. by rewrite Z.sub_diag.
Qed.

Lemma shr_1_double (c : Z) :
  0 <= c →
  shr_1 {| shr_m := c * 2; shr_r := false; shr_s := false |}
  = {| shr_m := c; shr_r := false; shr_s := false |}.
Proof.
  intros Hc. destruct c as [| q | q]; [done | | lia].
  by replace (Z.pos q * 2) with (Z.pos q~0) by lia.
Qed.

Lemma iter_shr_1_exact (p : positive) :
  ∀ c, 0 <= c →
    SpecFloat.iter_pos shr_1 p
      {| shr_m := c * 2 ^ Z.pos p; shr_r := false; shr_s := false |}
    = {| shr_m := c; shr_r := false; shr_s := false |}.
Proof.
  induction p as [p IH | p IH |]; intros c Hc; cbn [SpecFloat.iter_pos].
  - pose proof (pow2_gt_0 (Z.pos p) ltac:(lia)).
    replace (c * 2 ^ Z.pos p~1) with (c * 2 ^ Z.pos p * 2 ^ Z.pos p * 2).
    + rewrite shr_1_double by nia. rewrite IH by nia. by rewrite IH.
    + rewrite (Pos2Z.inj_xI p).
      replace (2 * Z.pos p + 1) with (1 + Z.pos p + Z.pos p) by lia.
      rewrite !Z.pow_add_r by lia. change (2 ^ 1) with 2. ring.
  - pose proof (pow2_gt_0 (Z.pos p) ltac:(lia)).
    replace (c * 2 ^ Z.pos p~0) with (c * 2 ^ Z.pos p * 2 ^ Z.pos p).
    + rewrite IH by nia. by rewrite IH.
    + rewrite (Pos2Z.inj_xO p).
      replace (2 * Z.pos p) with (Z.pos p + Z.pos p) by lia.
      rewrite !Z.pow_add_r by lia. ring.
  - change (2 ^ 1) with 2. by apply shr_1_double.
Qed.

Lemma digits2_pos_shift (m M : positive) (k : Z) :
  0 <= k → Z.pos M = Z.pos m * 2 ^ k →
  Z.pos (digits2_pos M) = Z.pos (digits2_pos m) + k.
Proof.
  intros Hk HM. apply digits2_pos_unique; [| lia].
  pose proof (digits2_pos_bounds m) as [Hlo Hhi].
  pose proof (pow2_gt_0 k Hk).
  replace (Z.pos (digits2_pos m) + k - 1)
    with (Z.pos (digits2_pos m) - 1 + k) by lia.
  rewrite HM, !Z.pow_add_r by lia. nia.
Qed.

(** A mantissa and exponent that denote a double, with nothing to round
    off, round to that double. *)
Lemma binary_round_aux_value (s : bool) (M m : positive) (ez e : Z) :
  canonical_mantissa prec emax m e = true → e <= emax - prec →
  ez <= e → Z.pos M = Z.pos m * 2 ^ (e - ez) →
  binary_round_aux prec emax s (Z.pos M) ez loc_Exact = S754_finite s m e.
Proof.
  intros Hcan Hmax Hle Hval.
  assert (Hfix : fexp prec emax (Z.pos (digits2_pos m) + e) = e)
    by (by apply Z.eqb_eq).
  destruct (Z.eq_dec ez e) as [-> | Hne].
  - rewrite Z.sub_diag, Z.mul_1_r in Hval. injection Hval as ->.
    rewrite binary_round_aux_exact by done.
    by destruct (Z.leb_spec e (emax - prec)); [| lia].
  - pose proof (digits2_pos_shift m M (e - ez) ltac:(lia) Hval) as Hd.
    assert (Hstar : fexp prec emax (Z.pos (digits2_pos M) + ez) = e).
    { rewrite Hd. by replace (Z.pos (digits2_pos m) + (e - ez) + ez)
        with (Z.pos (digits2_pos m) + e) by lia. }
    destruct (e - ez) as [| k | k] eqn:Hk; try lia.
    unfold binary_round_aux, shr_fexp at 1. cbn [Zdigits2].
    rewrite Hstar, Hk. cbn [shr shr_record_of_loc]. rewrite Hval.
    rewrite iter_shr_1_exact by lia.
    cbn [shr_m loc_of_shr_record round_nearest_even].
    replace (ez + Z.pos k) with e by lia.
    rewrite (shr_fexp_exact m e Hfix). cbn [shr_m].
    by destruct (Z.leb_spec e (emax - prec)); [| lia].
Qed.

Lemma pow2_divisor (k : nat) :
  ∀ r, 0 < r → (r | 2 ^ Z.of_nat k) → ∃ i, 0 <= i ∧ r = 2 ^ i.
Proof.
  induction k as [| k IH]; intros r Hr Hdiv.
  - exists 0. split; [done |]. change (2 ^ Z.of_nat 0) with 1 in Hdiv.
    apply Z.divide_1_r_nonneg in Hdiv; lia.
  - rewrite Nat2Z.inj_succ, Z.pow_succ_r in Hdiv by lia.
    destruct (Z.Even_or_Odd r) as [[r' ->] | [r' ->]].
    + destruct (IH r' ltac:(lia)) as (i & Hi & ->).
      { destruct Hdiv as [c Hc]. exists c. lia. }
      exists (Z.succ i). split; [lia |]. by rewrite Z.pow_succ_r.
    + apply IH; [done |]. destruct Hdiv as [c Hc].
      destruct (Z.Even_or_Odd c) as [[c' ->] | [c' ->]]; [| lia].
      exists c'. lia.
Qed.

End DoubleRounding.

(** ** Doubles and their values *)

Section DoubleValues.

Lemma double_Qeq (p q : Q) : (p == q)%Q → double p = double q.
Proof. intros H. unfold double. by rewrite (Qred_complete p q H). Qed.

Lemma float_value_scaled (x : float) (v : Q) :
  float_value x = Some v →
  finite_sf (Prim2SF x) = true
  ∧ (v * inject_Z (2 ^ 1074) == inject_Z (scaled (Prim2SF x)))%Q.
Proof.
  unfold float_value. pose proof (Prim2SF_valid x) as Hvalid.
  destruct (Prim2SF x) as [s | s | | s m e]; try done.
  - intros [= <-]. split; [done |]. cbn [scaled]. ring.
  - apply valid_binary_finite, canonical_mantissa_inv in Hvalid
      as (He & _).
    intros [= <-]. split; [done |]. cbn [scaled].
    assert (Hmag :
      ((if (e <? 0)%Z then Z.pos m # Pos.pow 2 (Z.to_pos (- e))
        else inject_Z (Z.pos m * 2 ^ e)) * inject_Z (2 ^ 1074)
       == inject_Z (Z.pos m * 2 ^ (e + 1074)))%Q).
    { destruct (Z.ltb_spec e 0) as [Hneg | Hpos].
      - unfold Qeq, Qmult, inject_Z. cbn [Qnum Qden].
        rewrite Pos.mul_1_r, Z.mul_1_r, Pos2Z.inj_pow.
        rewrite Z2Pos.id by lia.
        rewrite <- !Z.mul_assoc. f_equal.
        rewrite <- Z.pow_add_r by lia. f_equal. lia.
      - rewrite <- inject_Z_mult. rewrite Z.pow_add_r by lia.
        by rewrite Z.mul_assoc. }
    destruct s; cbn [cond_Zopp].
    + rewrite inject_Z_opp, <- Hmag. ring.
    + exact Hmag.
Qed.

Lemma is_double_value (q : Q) :
  is_double q = true →
  finite_sf (Prim2SF (double q)) = true
  ∧ (q * inject_Z (2 ^ 1074) == inject_Z (scaled (Prim2SF (double q))))%Q.
Proof.
  unfold is_double. destruct (float_value (double q)) as [v |] eqn:Hv;
    [| done].
  intros Heq. apply Qeq_bool_iff in Heq.
  destruct (float_value_scaled _ _ Hv) as [Hfin Hs].
  split; [done |]. eapply Qeq_trans; [| exact Hs].
  apply Qmult_comp; [by apply Qeq_sym | apply Qeq_refl].
Qed.

Lemma scaled_le (p q : Q) (a b : Z) :
  (p * inject_Z (2 ^ 1074) == inject_Z a)%Q →
  (q * inject_Z (2 ^ 1074) == inject_Z b)%Q →
  (p <= q)%Q → (a <= b)%Z.
Proof.
  intros Hp Hq Hle. rewrite Zle_Qle, <- Hp, <- Hq.
  apply Qmult_le_compat_r; [done |].
  change 0%Q with (inject_Z 0). rewrite <- Zle_Qle.
  apply Z.lt_le_incl, pow2_gt_0. lia.
Qed.

Lemma scaled_lt (e p q : Q) (t a b : Z) :
  (e * inject_Z (2 ^ 1074) == inject_Z t)%Q →
  (p * inject_Z (2 ^ 1074) == inject_Z a)%Q →
  (q * inject_Z (2 ^ 1074) == inject_Z b)%Q →
  (e < p - q)%Q → (t < a - b)%Z.
Proof.
  intros He Hp Hq Hlt. rewrite Zlt_Qlt.
  unfold Z.sub. rewrite inject_Z_plus, inject_Z_opp, <- He, <- Hp, <- Hq.
  assert (Hpos : (0 < inject_Z (2 ^ 1074))%Q).
  { change 0%Q with (inject_Z 0). rewrite <- Zlt_Qlt.
    apply pow2_gt_0. lia. }
  assert (Heq : (p * inject_Z (2 ^ 1074) + - (q * inject_Z (2 ^ 1074))
                 == (p - q) * inject_Z (2 ^ 1074))%Q) by ring.
  rewrite Heq. by apply Qmult_lt_compat_r.
Qed.

(** The computed difference of two doubles is not below a double that the
    exact difference exceeds. *)
Lemma double_sub_not_below (hi lo : Q) (ε : float) (e : Q) :
  is_double hi = true → is_double lo = true →
  float_value ε = Some e →
  (lo <= hi)%Q → (e < hi - lo)%Q →
  PrimFloat.ltb (double hi - double lo) ε = false.
Proof.
  intros [Hfh Hh]%is_double_value [Hfl Hl]%is_double_value
    [Hfe He]%float_value_scaled Hle Hlt.
  rewrite FloatAxioms.ltb_spec, FloatAxioms.sub_spec.
  apply SFsub_not_below; try done; try apply Prim2SF_valid.
  - by apply (scaled_le lo hi).
  - by apply (scaled_lt e hi lo).
Qed.

(** A double minus itself is [+0]. *)
Lemma double_sub_diag (q : Q) (ε : float) :
  is_double q = true →
  PrimFloat.ltb (double q - double q) ε = PrimFloat.ltb 0 ε.
Proof.
  intros [Hfin _]%is_double_value.
  rewrite !FloatAxioms.ltb_spec, FloatAxioms.sub_spec. unfold SF64sub.
  by rewrite SFsub_diag.
Qed.

End DoubleValues.

Section DoubleOfValue.
Local Open Scope Z_scope.

Lemma Qred_den_pow2 (q : Q) (k : Z) :
  0 <= k → Z.pos (Qden q) = 2 ^ k →
  ∃ i, 0 <= i ∧ Z.pos (Qden (Qred q)) = 2 ^ i.
Proof.
  intros Hk Hden. pose proof (Qred_correct q) as Hc.
  pose proof (gcd_Qred q) as Hg. unfold Qeq in Hc. rewrite Hden in Hc.
  apply (pow2_divisor (Z.to_nat k)); [lia |]. rewrite Z2Nat.id by done.
  apply (Z.gauss _ (Qnum (Qred q))); [| by rewrite Z.gcd_comm].
  exists (Qnum q). lia.
Qed.

Lemma Qred_num_odd (q : Q) (i : Z) :
  0 < i → Z.pos (Qden (Qred q)) = 2 ^ i → ¬ (2 | Qnum (Qred q)).
Proof.
  intros Hi Hden Hdiv. pose proof (gcd_Qred q) as Hg. rewrite Hden in Hg.
  assert (H2 : (2 | 2 ^ i)).
  { exists (2 ^ (i - 1)). rewrite Z.mul_comm, <- Z.pow_succ_r by lia.
    f_equal. lia. }
  pose proof (Z.gcd_greatest _ _ _ Hdiv H2) as [c Hc]. lia.
Qed.

Lemma div_eucl_div_mod (a b : Z) : Z.div_eucl a b = (a / b, a mod b).
Proof. unfold Z.div, Z.modulo. by destruct (Z.div_eucl a b). Qed.

(** The division core on a power of two that divides the shifted
    numerator. *)
Lemma SFdiv_core_binary_pow2 (M D : positive) (i : Z) :
  0 <= i → Z.pos D = 2 ^ i →
  Z.min (fexp prec emax (Z.pos (digits2_pos M) - (i + 1))) 0 <= - i →
  SFdiv_core_binary prec emax (Z.pos M) 0 (Z.pos D) 0
  = (Z.pos M
     * 2 ^ (- Z.min (fexp prec emax (Z.pos (digits2_pos M) - (i + 1))) 0 - i),
     Z.min (fexp prec emax (Z.pos (digits2_pos M) - (i + 1))) 0,
     loc_Exact).
Proof.
  intros Hi HD He'. unfold SFdiv_core_binary. cbn [Zdigits2].
  assert (HdD : Z.pos (digits2_pos D) = i + 1).
  { apply digits2_pos_unique; [| lia]. rewrite HD.
    replace (i + 1 - 1) with i by lia. split; [lia |].
    apply Z.pow_lt_mono_r; lia. }
  rewrite HdD, !Z.add_0_r. change (0 - 0) with 0.
  set (e' := Z.min (fexp prec emax (Z.pos (digits2_pos M) - (i + 1))) 0)
    in *.
  replace (0 - e') with (- e') by lia.
  pose proof (pow2_gt_0 i Hi) as Hpi.
  pose proof (pow2_gt_0 (- e' - i) ltac:(lia)) as Hps.
  assert (Hm' : match - e' with
                | 0 => Z.pos M
                | Z.pos _ => Z.shiftl (Z.pos M) (- e')
                | Z.neg _ => 0
                end = Z.pos M * 2 ^ (- e' - i) * 2 ^ i).
  { rewrite <- Z.mul_assoc, <- Z.pow_add_r by lia.
    replace (- e' - i + i) with (- e') by lia.
    destruct (- e') as [| p | p] eqn:Hp; [cbn; lia | | lia].
    by rewrite Z.shiftl_mul_pow2. }
  rewrite Hm', div_eucl_div_mod, HD.
  rewrite Z.div_mul, Z.mod_mul by lia.
  unfold new_location, new_location_even, new_location_odd.
  by destruct (Z.even (2 ^ i)).
Qed.

(** Two ways of writing one number have the same number of binary digits
    above the exponent. *)
Lemma digits2_pos_balance (M m : positive) (a b : Z) :
  0 <= a → 0 <= b → Z.pos M * 2 ^ a = Z.pos m * 2 ^ b →
  Z.pos (digits2_pos M) + a = Z.pos (digits2_pos m) + b.
Proof.
  intros Ha Hb Heq.
  pose proof (digits2_pos_bounds M) as [HMlo HMhi].
  pose proof (digits2_pos_bounds m) as [Hmlo Hmhi].
  set (dM := Z.pos (digits2_pos M)) in *.
  set (dm := Z.pos (digits2_pos m)) in *.
  assert (HdM : 0 < dM) by (unfold dM; lia).
  assert (Hdm : 0 < dm) by (unfold dm; lia).
  pose proof (pow2_gt_0 a Ha) as Hpa. pose proof (pow2_gt_0 b Hb) as Hpb.
  assert (H1 : dM - 1 + a < dm + b).
  { apply (Z.pow_lt_mono_r_iff 2); [lia | lia |].
    rewrite !Z.pow_add_r by lia. nia. }
  assert (H2 : dm - 1 + b < dM + a).
  { apply (Z.pow_lt_mono_r_iff 2); [lia | lia |].
    rewrite !Z.pow_add_r by lia. nia. }
  lia.
Qed.

(** The quotient of the numerator and the denominator of the value of a
    double, in lowest terms, is that double. *)
Lemma SFdiv_value (s : bool) (m M D : positive) (e i a b : Z) :
  canonical_mantissa prec emax m e = true → e <= emax - prec →
  a = Z.max (- e) 0 → b = Z.max e 0 →
  0 <= i → Z.pos D = 2 ^ i →
  (0 < i → ¬ (2 | Z.pos M)) →
  Z.pos M * 2 ^ a = Z.pos m * 2 ^ (b + i) →
  SFdiv prec emax (S754_finite s M 0) (S754_finite false D 0)
  = S754_finite s m e.
Proof.
  intros Hcan Hmax Ha Hb Hi HD Hodd HM.
  pose proof (digits2_pos_balance M m a (b + i) ltac:(lia) ltac:(lia) HM)
    as Hdig.
  pose proof (canonical_mantissa_inv m e Hcan) as (He & Hdm & _ & _).
  pose proof Hcan as Hfix. apply Z.eqb_eq in Hfix.
  rewrite fexp_double in Hfix.
  set (dM := Z.pos (digits2_pos M)) in *.
  set (dm := Z.pos (digits2_pos m)) in *.
  assert (Hai : 0 < i → b + i <= a).
  { intros Hipos. destruct (Z_le_gt_dec (b + i) a) as [| Hgt]; [done |].
    exfalso. apply (Hodd Hipos).
    exists (Z.pos m * 2 ^ (b + i - a - 1)).
    pose proof (pow2_gt_0 a ltac:(lia)).
    apply (Z.mul_cancel_r _ _ (2 ^ a)); [lia |]. rewrite HM.
    replace (b + i) with ((b + i - a - 1) + 1 + a) at 1 by lia.
    rewrite !Z.pow_add_r by lia. change (2 ^ 1) with 2. ring. }
  set (e' := Z.min (fexp prec emax (dM - (i + 1))) 0).
  assert (He'def : e' = Z.min (Z.max (dM - (i + 1) - 53) (-1074)) 0)
    by (unfold e'; by rewrite fexp_double).
  assert (He'i : e' <= - i).
  { destruct (Z.eq_dec i 0) as [-> | Hne]; [lia |].
    specialize (Hai ltac:(lia)). lia. }
  assert (He'e : e' <= e) by lia.
  unfold SFdiv.
  rewrite (SFdiv_core_binary_pow2 M D i Hi HD He'i). fold dM. fold e'.
  pose proof (pow2_gt_0 (- e' - i) ltac:(lia)) as Hps.
  replace (Z.pos M * 2 ^ (- e' - i))
    with (Z.pos (Z.to_pos (Z.pos M * 2 ^ (- e' - i))))
    by (rewrite Z2Pos.id; lia).
  replace (xorb s false) with s by (by destruct s).
  apply binary_round_aux_value; [done.. |].
  rewrite Z2Pos.id by lia.
  pose proof (pow2_gt_0 a ltac:(lia)) as Hpa.
  apply (Z.mul_cancel_r _ _ (2 ^ a)); [lia |].
  transitivity (Z.pos M * 2 ^ a * 2 ^ (- e' - i)); [ring |].
  rewrite HM, <- !Z.mul_assoc, <- !Z.pow_add_r by lia.
  f_equal. f_equal. lia.
Qed.

Lemma double_value (s : bool) (m : positive) (e : Z) (v : Q) (k : Z) :
  canonical_mantissa prec emax m e = true → e <= emax - prec →
  0 <= k → Z.pos (Qden v) = 2 ^ k →
  Qnum v * 2 ^ Z.max (- e) 0
  = cond_Zopp s (Z.pos m) * 2 ^ Z.max e 0 * 2 ^ k →
  double v = SF2Prim (S754_finite s m e).
Proof.
  intros Hcan Hmax Hk Hden Hnum. unfold double. cbn zeta. f_equal.
  destruct (Qred_den_pow2 v k Hk Hden) as (i & Hi & Hden').
  pose proof (Qred_num_odd v i) as Hodd.
  pose proof (Qred_correct v) as Hc. unfold Qeq in Hc.
  rewrite Hden, Hden' in Hc.
  set (n := Qnum (Qred v)) in *.
  set (a := Z.max (- e) 0) in *. set (b := Z.max e 0) in *.
  pose proof (pow2_gt_0 k Hk) as Hpk. pose proof (pow2_gt_0 i Hi) as Hpi.
  pose proof (pow2_gt_0 a ltac:(lia)) as Hpa.
  pose proof (pow2_gt_0 (b + i) ltac:(lia)) as Hpbi.
  assert (Hn : n * 2 ^ a = cond_Zopp s (Z.pos m) * 2 ^ (b + i)).
  { apply (Z.mul_cancel_r _ _ (2 ^ k)); [lia |].
    rewrite Z.pow_add_r by lia.
    transitivity (Qnum v * 2 ^ a * 2 ^ i); [nia |]. rewrite Hnum. ring. }
  destruct s; cbn [cond_Zopp] in Hn; destruct n as [| M | M] eqn:HnM;
    try nia.
  - apply (SFdiv_value true m M _ e i a b); try done; [| lia].
    intros Hipos [c Hc']. apply (Hodd Hipos Hden'). exists (- c). lia.
  - apply (SFdiv_value false m M _ e i a b); try done.
    intros Hipos. by apply Hodd.
Qed.

End DoubleOfValue.

(** The value of a finite double is the value of a double, and [double]
    finds a double of that value. *)
Lemma float_value_double (x : float) (v : Q) :
  float_value x = Some v → float_value (double v) = Some v.
Proof.
  unfold float_value at 1. pose proof (Prim2SF_valid x) as Hvalid.
  destruct (Prim2SF x) as [s | s | | s m e] eqn:Hx; try done.
  { by intros [= <-]. }
  intros Hv.
  enough (Hd : double v = x).
  { rewrite Hd. unfold float_value. by rewrite Hx. }
  rewrite <- (SF2Prim_Prim2SF x), Hx.
  cbn in Hvalid. apply andb_prop in Hvalid as [Hcan Hmax%Z.leb_le].
  injection Hv as <-.
  destruct (Z.ltb_spec e 0) as [Hneg | Hpos].
  - apply (double_value s m e _ (- e)%Z); [done | done | lia | |].
    + destruct s; cbn [Qden Qopp]; rewrite Pos2Z.inj_pow, Z2Pos.id by lia;
        done.
    + replace (Z.max (- e) 0) with (- e)%Z by lia.
      replace (Z.max e 0) with 0%Z by lia.
      destruct s; cbn [Qnum Qopp cond_Zopp]; ring.
  - apply (double_value s m e _ 0%Z); [done | done | done | |].
    + by destruct s.
    + replace (Z.max (- e) 0) with 0%Z by lia.
      replace (Z.max e 0) with e by lia.
      destruct s; cbn [Qnum Qopp inject_Z cond_Zopp]; ring.
Qed.

Lemma float_value_is_double (x : float) (v : Q) :
  float_value x = Some v → is_double v = true.
Proof.
  intros Hv. unfold is_double. rewrite (float_value_double x v Hv).
  by apply Qeq_bool_iff.
Qed.

(** [is_double] holds of the values of the finite doubles and of nothing
    else. *)
Lemma is_double_spec (q : Q) :
  is_double q = true ↔ ∃ x v, float_value x = Some v ∧ (v == q)%Q.
Proof.
  split.
  - unfold is_double. destruct (float_value (double q)) as [v |] eqn:Hv;
      [| done].
    intros Heq. apply Qeq_bool_iff in Heq. by exists (double q), v.
  - intros (x & v & Hv & Heq). unfold is_double.
    rewrite <- (double_Qeq v q Heq), (float_value_double x v Hv).
    by apply Qeq_bool_iff.
Qed.

(** C10, amended: [hasConverged] returns, and returns true exactly when the
    top slice of ceil(0.3 n) chromosomes of the population sorted by fitness,
    highest first, is empty or the highest fitness of the slice minus the
    lowest, as the subtraction of doubles gives it, is strictly below the
    threshold; so, the fitness values of the slice being doubles, it returns
    true when they are all identical provided the threshold is above zero,
    and false when two of them differ by more than a finite threshold. *)
Theorem hasConverged_spec (population : list Chromosome) (ε : float) :
  ∃ b : bool,
    hasConverged population ε = Ok b
    ∧ (b = true ↔
         top_slice population = []
         ∨ ∃ hi lo : Q,
             highest (fitness <$> top_slice population) hi
             ∧ lowest (fitness <$> top_slice population) lo
             ∧ PrimFloat.ltb (double hi - double lo) ε = true)
    ∧ (PrimFloat.ltb 0 ε = true →
       (∀ x, x ∈ fitness <$> top_slice population → is_double x = true) →
       (∀ x y, x ∈ fitness <$> top_slice population →
               y ∈ fitness <$> top_slice population → (x == y)%Q) →
       b = true)
    ∧ (∀ e : Q, float_value ε = Some e →
       (∀ x, x ∈ fitness <$> top_slice population → is_double x = true) →
       (∃ x y, x ∈ fitness <$> top_slice population
               ∧ y ∈ fitness <$> top_slice population
               ∧ (e < x - y)%Q) →
       b = false).
Proof.
  rewrite hasConverged_top_slice.
  pose proof (top_slice_sorted population) as Hsorted.
  pose proof (last_lookup (top_slice population)) as Hlast.
  destruct (top_slice population) as [|best rest] eqn:Htop.
  { exists true. split; [done |]. split; [by split; [left |] |].
    split; [done |]. intros e _ _ (x & y & Hx & _).
    by apply elem_of_nil in Hx. }
  destruct (last (best :: rest)) as [worst|] eqn:Hw; last first.
  { symmetry in Hlast. apply lookup_ge_None in Hlast. simpl in Hlast. lia. }
  assert (Hbounds : ∀ x, x ∈ fitness <$> best :: rest →
                         (fitness worst <= x <= fitness best)%Q).
  { intros x (c & -> & Hc)%list_elem_of_fmap.
    destruct (sorted_first_last (best :: rest) best worst Hsorted eq_refl)
      with (c := c) as [H1 H2]; [| done |].
    - rewrite Hlast. f_equal. simpl. lia.
    - unfold fitter in *. done. }
  assert (Hbest : fitness best ∈ fitness <$> best :: rest)
    by (apply list_elem_of_fmap_2; left).
  assert (Hworst : fitness worst ∈ fitness <$> best :: rest).
  { apply list_elem_of_fmap_2. symmetry in Hlast.
    by eapply list_elem_of_lookup_2. }
  eexists. split; [done |].
  split; [| split].
  - split.
    + intros Hlt. right. exists (fitness best), (fitness worst).
      split; [split; [done | intros x Hx; by apply Hbounds] |].
      split; [split; [done | intros x Hx; by apply Hbounds] | done].
    + intros [? | (hi & lo & [Hhi_in Hhi] & [Hlo_in Hlo] & Hlt)]; [done |].
      specialize (Hhi _ Hbest). specialize (Hlo _ Hworst).
      apply Hbounds in Hhi_in. apply Hbounds in Hlo_in.
      assert (Hhi_eq : (fitness best == hi)%Q) by (apply Qle_antisym; lra).
      assert (Hlo_eq : (fitness worst == lo)%Q) by (apply Qle_antisym; lra).
      by rewrite (double_Qeq _ _ Hhi_eq), (double_Qeq _ _ Hlo_eq).
  - intros Hpos Hdouble Hsame.
    rewrite (double_Qeq _ _ (Hsame _ _ Hworst Hbest)).
    by rewrite double_sub_diag by by apply Hdouble.
  - intros e He Hdouble (x & y & Hx%Hbounds & Hy%Hbounds & Hlt).
    apply (double_sub_not_below _ _ _ e); [by apply Hdouble.. | done | |];
      lra.
Qed.

(** ** Tournament selection *)

Lemma draw_tournament_run (population : list Chromosome) (k : nat) (g : Rng) :
  population ≠ [] →
  ∃ cs g', draw_tournament population k g = Ok (Some <$> cs, g')
           ∧ length cs = k ∧ Forall (λ c, c ∈ population) cs.
Proof.
  intros Hne. revert g. induction k as [|k IH]; intros g; simpl.
  - exists [], g. by rewrite mret_run.
  - destruct (pick_Some population g Hne) as (c & g1 & Hpick & Hc).
    destruct (IH g1) as (cs & g2 & Hrest & Hlen & Hall).
    exists (c :: cs), g2.
    rewrite (Rand_bind_run _ _ _ _ _ Hpick), (Rand_bind_run _ _ _ _ _ Hrest).
    rewrite mret_run. split; [done |]. split; [simpl; lia | by constructor].
Qed.

Lemma reduce_best_run (cs : list Chromosome) :
  cs ≠ [] → ∃ c, reduce_best (Some <$> cs) = Ok (Some c) ∧ c ∈ cs.
Proof.
  destruct cs as [|first rest]; [done |]. intros _.
  rewrite fmap_cons. unfold reduce_best.
  run_loop (λ best : option Chromosome, ∃ b, best = Some b ∧ b ∈ first :: rest)
    as (best & Hrun & b & -> & Hb).
  - exists first. split; [done | left].
  - intros best current (c & -> & Hc)%list_elem_of_fmap (b & -> & Hb).
    destruct (negb (Qle_bool (fitness c) (fitness b)));
      eexists; (split; [done |]); eexists; (split; [done |]); [by right | done].
  - by exists b.
Qed.

Lemma tournamentSelection_run (population : list Chromosome) (k : nat) g :
  population ≠ [] → 0 < k →
  ∃ p g', tournamentSelection population k g = Ok (Some p, g')
          ∧ p ∈ population.
Proof.
  intros Hne Hk. unfold tournamentSelection.
  destruct (draw_tournament_run population k g Hne)
    as (cs & g1 & Hdraw & Hlen & Hall).
  destruct (reduce_best_run cs) as (c & Hbest & Hc).
  { intros ->. simpl in Hlen. lia. }
  exists c, g1. rewrite (Rand_bind_run _ _ _ _ _ Hdraw).
  split; [by apply lift_run |].
  rewrite Forall_forall in Hall. by apply Hall.
Qed.

(** ** Assembling the next generation *)

Lemma breed_run population pool mode crossoverRate mutationRate g :
  population ≠ [] → Forall (WellFormed mode) population →
  ∃ child g', breed population pool mode crossoverRate mutationRate g
              = Ok (child, g').
Proof.
  intros Hne Hwf. rewrite Forall_forall in Hwf. unfold breed.
  destruct (tournamentSelection_run population 3 g Hne) as (p1 & g1 & H1 & Hp1);
    [lia |].
  destruct (tournamentSelection_run population 3 g1 Hne) as (p2 & g2 & H2 & Hp2);
    [lia |].
  rewrite (Rand_bind_run _ _ _ _ _ H1), (Rand_bind_run _ _ _ _ _ H2).
  rewrite (Rand_bind_run _ _ _ _ _ (eq_refl : random g2 = Ok (_, advance g2))).
  assert (Hchild : ∃ child g3,
    (if negb (Qle_bool crossoverRate (u01 (draws g2 (pos g2))))
     then crossover p1 p2 mode
     else mret (cloneChromosome p1)) (advance g2) = Ok (child, g3)
    ∧ WellFormed mode child).
  { destruct (negb (Qle_bool crossoverRate (u01 (draws g2 (pos g2))))).
    - destruct (crossover_run mode p1 p2 (advance g2)) as (c & g3 & ? & ? & _);
        [by apply Hwf.. |]. by exists c, g3.
    - exists (cloneChromosome p1), (advance g2). split; [done |].
      destruct (Hwf p1 Hp1) as (ss & Ht & Hl).
      rewrite (cloneChromosome_dense p1 ss) by done. by exists ss. }
  destruct Hchild as (child & g3 & Hchild & Hwfc).
  rewrite (Rand_bind_run _ _ _ _ _ Hchild).
  destruct (mutate_run mode pool mutationRate child g3 Hwfc)
    as (c' & g4 & Hm & _). by exists c', g4.
Qed.

Lemma fill_generation_run fuel population pool mode crossoverRate mutationRate
    next g :
  Forall (WellFormed mode) population →
  length population - length next ≤ fuel →
  ∃ result g', fill_generation fuel population pool mode crossoverRate
                 mutationRate next g = Ok (result, g').
Proof.
  intros Hwf. revert next g.
  induction fuel as [|fuel IH]; intros next g Hfuel; simpl.
  - rewrite (proj2 (Nat.ltb_ge _ _)) by lia. eexists _, _. by rewrite mret_run.
  - destruct (length next <? length population) eqn:Hlt;
      [| eexists _, _; by rewrite mret_run].
    apply Nat.ltb_lt in Hlt.
    destruct (breed_run population pool mode crossoverRate mutationRate g)
      as (child & g1 & Hbreed); [| done |].
    { intros ->. simpl in Hlt. lia. }
    rewrite (Rand_bind_run _ _ _ _ _ Hbreed). apply IH.
    rewrite length_app. simpl. lia.
Qed.

Lemma fill_generation_Ok fuel population pool mode crossoverRate mutationRate
    next g result g' :
  fill_generation fuel population pool mode crossoverRate mutationRate next g
  = Ok (result, g') →
  (∃ children, result = next ++ children)
  ∧ (length next ≤ length population → length result = length population).
Proof.
  revert next g. induction fuel as [|fuel IH]; intros next g; simpl.
  - destruct (length next <? length population) eqn:Hlt; [done |].
    apply Nat.ltb_ge in Hlt. rewrite mret_run. intros [= <- _].
    split; [exists []; by rewrite app_nil_r | lia].
  - destruct (length next <? length population) eqn:Hlt.
    + apply Nat.ltb_lt in Hlt.
      intros (child & g1 & _ & [[children ->] Hlen]%IH)%Rand_bind_Ok.
      split; [exists (child :: children); by rewrite <- app_assoc |].
      intros _. apply Hlen. rewrite length_app. simpl. lia.
    + apply Nat.ltb_ge in Hlt. rewrite mret_run. intros [= <- _].
      split; [exists []; by rewrite app_nil_r | lia].
Qed.

Lemma selectElites_length_le population e :
  length (selectElites population e) ≤ length population.
Proof.
  unfold selectElites. rewrite length_fmap.
  etrans; [apply slice0_length_le |].
  unfold sort_with. by rewrite array_sort_length.
Qed.

Lemma selectElites_strings population (e : Z) :
  (0 <= e)%Z → Forall StringTeam population →
  selectElites population e = take (Z.to_nat e) (sortByFitness population).
Proof.
  intros He Hdense. unfold selectElites. rewrite slice0_take by done.
  fold (sortByFitness population).
  assert (Hd : Forall StringTeam (take (Z.to_nat e) (sortByFitness population))).
  { apply Forall_take. by rewrite sortByFitness_perm. }
  induction Hd as [|c l [ss Hc] _ IH]; [done |].
  rewrite fmap_cons, IH. by rewrite (cloneChromosome_dense c ss).
Qed.

(** ** Nothing but the filling loop depends on fuel *)

Lemma bind_terminates {A B : Type} (m : outcome A) (f : A → outcome B) :
  Terminates m → (∀ a, Terminates (f a)) → Terminates (m ≫= f).
Proof. destruct m; [intros _ Hf; apply Hf | done | done]. Qed.

Lemma for_each_terminates {S X : Type} (body : S → X → outcome S)
    (xs : list X) (s : S) :
  (∀ s x, Terminates (body s x)) → Terminates (for_each body xs s).
Proof.
  intros Hbody. revert s. induction xs as [|x xs IH]; intros s; [done |].
  simpl. apply bind_terminates; [apply Hbody | apply IH].
Qed.

Lemma Rand_bind_terminates {A B : Type} (m : Rand A) (f : A → Rand B) :
  TerminatesR m → (∀ a, TerminatesR (f a)) → TerminatesR (m ≫= f).
Proof.
  intros Hm Hf g. unfold mbind, Rand_bind. specialize (Hm g).
  destruct (m g) as [[a g1]| |]; [apply Hf | done | done].
Qed.

Lemma lift_terminates {A : Type} (m : outcome A) :
  Terminates m → TerminatesR (lift m).
Proof. intros Hm g. by destruct m. Qed.

Lemma mret_terminates {A : Type} (a : A) : TerminatesR (mret a).
Proof. done. Qed.

Lemma pick_terminates {A : Type} (arr : list A) : TerminatesR (pick arr).
Proof. done. Qed.

Create HintDb terminates.

(** Splits a goal [Terminates _] along the binds, loops and branches of the
    program. *)
Ltac terminates :=
  repeat first
    [ done
    | solve [auto with terminates nocore]
    | apply bind_terminates
    | apply for_each_terminates
    | apply Rand_bind_terminates
    | apply lift_terminates
    | apply mret_terminates
    | apply pick_terminates
    | progress intros
    | match goal with
      | |- Terminates (if ?b then _ else _) => destruct b
      | |- TerminatesR (if ?b then _ else _) => destruct b
      | |- Terminates (match ?x with _ => _ end) => destruct x
      | |- TerminatesR (match ?x with _ => _ end) => destruct x
      | |- context [let '(_, _) := ?x in _] => is_var x; destruct x
      end ].

Lemma map_bases_terminates team : Terminates (map_bases team).
Proof.
  induction team as [|v team IH]; [done |]. destruct v; simpl; terminates.
Qed.
#[local] Hint Resolve map_bases_terminates : terminates.

Lemma validateTeamUniqueness_terminates team :
  Terminates (validateTeamUniqueness team).
Proof. unfold validateTeamUniqueness. terminates. Qed.
#[local] Hint Resolve validateTeamUniqueness_terminates : terminates.

Lemma crossover_team_terminates p1 p2 mode cp :
  Terminates (crossover_team p1 p2 mode cp).
Proof.
  unfold crossover_team, anchor_species, head_species, copy_tail, baseOf.
  terminates.
Qed.
#[local] Hint Resolve crossover_team_terminates : terminates.

Lemma crossover_terminates p1 p2 mode : TerminatesR (crossover p1 p2 mode).
Proof. unfold crossover. terminates. Qed.
#[local] Hint Resolve crossover_terminates : terminates.

Lemma mutate_terminates c pool rate mode : TerminatesR (mutate c pool rate mode).
Proof. unfold mutate, random, team_bases, baseOf. terminates. Qed.
#[local] Hint Resolve mutate_terminates : terminates.

Lemma draw_tournament_terminates population k :
  TerminatesR (draw_tournament population k).
Proof. induction k as [|k IH]; simpl; terminates. Qed.
#[local] Hint Resolve draw_tournament_terminates : terminates.

Lemma tournamentSelection_terminates population k :
  TerminatesR (tournamentSelection population k).
Proof. unfold tournamentSelection, reduce_best. terminates. Qed.
#[local] Hint Resolve tournamentSelection_terminates : terminates.

Lemma breed_terminates population pool mode crossoverRate mutationRate :
  TerminatesR (breed population pool mode crossoverRate mutationRate).
Proof. unfold breed, random. terminates. Qed.

(** One round per missing chromosome is all the loop runs. *)
Lemma fill_generation_terminates fuel population pool mode crossoverRate
    mutationRate next :
  length population - length next ≤ fuel →
  TerminatesR (fill_generation fuel population pool mode crossoverRate
                 mutationRate next).
Proof.
  revert next. induction fuel as [|fuel IH]; intros next Hfuel; simpl.
  - rewrite (proj2 (Nat.ltb_ge _ _)) by lia. done.
  - destruct (length next <? length population); [| done].
    apply Rand_bind_terminates; [apply breed_terminates |].
    intros child. apply IH. rewrite length_app. simpl. lia.
Qed.

Lemma createNextGeneration_terminates population pool mode options :
  TerminatesR (createNextGeneration population pool mode options).
Proof. apply fill_generation_terminates. lia. Qed.

Lemma createNextGeneration_length population pool mode options g next g' :
  createNextGeneration population pool mode options g = Ok (next, g') →
  length next = length population.
Proof.
  unfold createNextGeneration. intros [_ Hlen]%fill_generation_Ok.
  apply Hlen, selectElites_length_le.
Qed.

(** A fuel of one round per chromosome is enough. *)
Lemma createNextGeneration_run population pool mode options g :
  Forall (WellFormed mode) population →
  ∃ next g', createNextGeneration population pool mode options g
             = Ok (next, g').
Proof.
  intros Hwf. apply fill_generation_run; [done | lia].
Qed.

(** C9: whatever [createNextGeneration] returns has exactly the length of
    the input population, for every population, pool, mode, options and
    state of the random source; the call always terminates (one round of the
    filling loop per chromosome is enough fuel), and it returns rather than
    raises when the teams of the population are arrays of strings of the
    mode's length. *)
Theorem next_generation_size (population : list Chromosome)
    (pool : list string) (mode : TournamentMode) (options : Options) (g : Rng) :
  (∀ next g',
     createNextGeneration population pool mode options g = Ok (next, g') →
     length next = length population)
  ∧ Terminates (createNextGeneration population pool mode options g)
  ∧ (Forall (WellFormed mode) population →
     ∃ next g',
       createNextGeneration population pool mode options g = Ok (next, g')
       ∧ length next = length population).
Proof.
  split; [intros next g'; apply createNextGeneration_length |].
  split; [apply createNextGeneration_terminates |]. intros Hwf.
  destruct (createNextGeneration_run population pool mode options g Hwf)
    as (next & g' & Hrun).
  exists next, g'. split; [exact Hrun |].
  by eapply createNextGeneration_length.
Qed.

Lemma next_generation_size_witness :
  ∃ next g',
    createNextGeneration sample_population sample_pool GBL sample_options
      (constant_source draw_half) = Ok (next, g')
    ∧ length next = length sample_population.
Proof.
  apply (proj2 (proj2 (next_generation_size sample_population sample_pool GBL
                         sample_options (constant_source draw_half)))).
  repeat constructor; by eexists [_; _; _].
Defined.

(** C8: with an elite count e between 0 and the population size (given in
    the options, or the default ceil(0.1 n)), the first e chromosomes of
    what [createNextGeneration] returns are the first e entries of the
    population sorted by fitness, highest first — the same team, anchors and
    fitness; that sorted list holds the chromosomes of the population, each
    at least as fit as all that follow it. *)
Theorem elites_carried_over (population : list Chromosome)
    (pool : list string) (mode : TournamentMode) (options : Options) (g : Rng)
    (e : nat) :
  default (default_eliteCount population) (eliteCount options) = Z.of_nat e →
  e ≤ length population →
  Forall StringTeam population →
  (∀ next g',
     createNextGeneration population pool mode options g = Ok (next, g') →
     take e next = take e (sortByFitness population))
  ∧ sortByFitness population ≡ₚ population
  ∧ StronglySorted fitter (sortByFitness population)
  ∧ (Forall (WellFormed mode) population →
     ∃ next g',
       createNextGeneration population pool mode options g = Ok (next, g')).
Proof.
  intros He Hle Hstr.
  split; [| split; [apply sortByFitness_perm |
            split; [apply sortByFitness_sorted |]]].
  - intros next g'. unfold createNextGeneration. rewrite He.
    rewrite selectElites_strings by (done || lia). rewrite Nat2Z.id.
    intros [[children ->] _]%fill_generation_Ok.
    rewrite take_app_le by (rewrite length_take, sortByFitness_length; lia).
    rewrite take_take. by rewrite Nat.min_id.
  - apply createNextGeneration_run.
Qed.

Lemma elites_carried_over_witness :
  default (default_eliteCount sample_population) (eliteCount sample_options)
  = Z.of_nat 2
  ∧ 2 ≤ length sample_population
  ∧ Forall StringTeam sample_population
  ∧ take 2 (sortByFitness sample_population) = [sample_parent2; sample_parent1]
  ∧ (∀ next g',
       createNextGeneration sample_population sample_pool GBL sample_options
         (constant_source draw_half) = Ok (next, g') →
       take 2 next = take 2 (sortByFitness sample_population))
  ∧ sortByFitness sample_population ≡ₚ sample_population
  ∧ StronglySorted fitter (sortByFitness sample_population)
  ∧ (Forall (WellFormed GBL) sample_population →
     ∃ next g',
       createNextGeneration sample_population sample_pool GBL sample_options
         (constant_source draw_half) = Ok (next, g')).
Proof.
  assert (He : default (default_eliteCount sample_population)
                 (eliteCount sample_options) = Z.of_nat 2) by reflexivity.
  assert (Hle : 2 ≤ length sample_population) by (simpl; lia).
  assert (Hstr : Forall StringTeam sample_population)
    by (repeat constructor; by eexists [_; _; _]).
  split; [exact He |]. split; [exact Hle |]. split; [exact Hstr |].
  split; [by vm_compute |].
  exact (elites_carried_over sample_population sample_pool GBL sample_options
           (constant_source draw_half) 2 He Hle Hstr).
Defined.

(** ** Evaluating an empty team *)

Lemma omap_all_None {A B : Type} (f : A → option B) (l : list A) :
  (∀ x, f x = None) → omap f l = [].
Proof.
  intros Hf. induction l as [|x l IH]; [done |].
  change (omap f (x :: l))
    with (match f x with Some y => y :: omap f l | None => omap f l end).
  by rewrite Hf.
Qed.

Lemma calculateAnchorSynergy_empty_team (ks : KnowledgeStore)
    (anchorIndices : list nat) :
  calculateAnchorSynergy ks [] anchorIndices = 0%float.
Proof.
  unfold calculateAnchorSynergy.
  destruct (length anchorIndices =? 0); [done |].
  by rewrite omap_all_None.
Qed.

(** C4: on the empty team the nine base components and the anchor bonus
    return zero, but the two mode bonuses divide zero by the team length
    zero: [calculateSurpriseFactor] and [calculateConsistency] return NaN,
    and [calculateFitness] returns NaN in both modes. *)
Theorem empty_team_fitness_is_NaN (ks : KnowledgeStore) (indices : list nat)
    (f : Q) (mode : TournamentMode) :
  calculateTypeCoverageScore ks [] = 0%float
  ∧ calculateRankingScore ks [] = Ok 0%float
  ∧ calculateStrategyScore ks [] mode = 0%float
  ∧ calculateMetaThreatScore ks [] = 0%float
  ∧ calculateEnergyScore ks [] = 0%float
  ∧ calculateTypeDiversity ks [] = 0%float
  ∧ calculateTypeSynergy ks [] = 0%float
  ∧ calculateStatBalance ks [] = 0%float
  ∧ calculateShadowPreference ks [] = 0%float
  ∧ calculateAnchorSynergy ks [] indices = 0%float
  ∧ calculateSurpriseFactor ks [] = Ok PrimFloat.nan
  ∧ calculateConsistency ks [] = Ok PrimFloat.nan
  ∧ calculateFitness ks {| team := []; anchors := indices; fitness := f |} mode
    = Ok PrimFloat.nan.
Proof.
  repeat (split; [by destruct mode |]).
  split; [apply calculateAnchorSynergy_empty_team |].
  repeat (split; [done |]).
  unfold calculateFitness. cbn [team anchors].
  rewrite calculateAnchorSynergy_empty_team.
  destruct mode, (0 <? length indices); reflexivity.
Qed.

(** ** [calculateDiversity] reorders the teams *)

(** C5: [calculateDiversity] does not leave the teams alone: [c.team.sort()]
    sorts the team array of every chromosome of the population in place, so
    after the call the entry at the anchored index 0 is another species. *)
Theorem calculateDiversity_sorts_teams :
  calculateDiversity [sample_lead_anchored]
  = (1%float,
     [ {| team := [Str "azumarill"; Str "medicham"; Str "skarmory"];
          anchors := [0];
          fitness := 1 |} ])
  ∧ team sample_lead_anchored
    = [Str "skarmory"; Str "azumarill"; Str "medicham"]
  ∧ array_get (team sample_lead_anchored) 0 = Str "skarmory"
  ∧ (∀ c, c ∈ (calculateDiversity [sample_lead_anchored]).2 →
          array_get (team c) 0 = Str "azumarill").
Proof.
  split; [by vm_compute |]. split; [done |]. split; [done |].
  intros c Hc. vm_compute in Hc. apply list_elem_of_singleton in Hc. by subst c.
Qed.

(** ** The type charts *)

(** C6: src/lib/coverage/typeChart.ts returns the product as the doubles
    give it, not rounded to six decimals: for a fire move against a grass
    and bug defender, 1.6 * 1.6 is 2.5600000000000005 there, which is not
    the double 2.56 that the module with the rounding returns. *)
Theorem coverage_effectiveness_unrounded :
  Coverage.calculateEffectiveness sample_chart "fire" ["grass"; "bug"]
  = 2.5600000000000005%float
  ∧ Effectiveness.calculateEffectiveness sample_chart ["grass"; "bug"] "fire"
    = 2.56%float
  ∧ PrimFloat.eqb
      (Coverage.calculateEffectiveness sample_chart "fire" ["grass"; "bug"])
      (Effectiveness.calculateEffectiveness sample_chart ["grass"; "bug"] "fire")
    = false.
Proof. repeat split; by vm_compute. Qed.

Lemma lower_ascii_idemp (c : ascii) : lower_ascii (lower_ascii c) = lower_ascii c.
Proof.
  destruct c as [[] [] [] [] [] [] [] []]; reflexivity.
Qed.

Lemma toLowerCase_idemp (s : string) : toLowerCase (toLowerCase s) = toLowerCase s.
Proof.
  induction s as [|c s IH]; [done |]. simpl. by rewrite lower_ascii_idemp, IH.
Qed.

(** Both modules look the types up in lower case. *)
Lemma multiply_entries_lower typeChart attackType defenseTypes :
  multiply_entries typeChart (toLowerCase attackType)
    (toLowerCase <$> defenseTypes)
  = multiply_entries typeChart attackType defenseTypes.
Proof.
  unfold multiply_entries. rewrite toLowerCase_idemp.
  generalize 1%float.
  induction defenseTypes as [|d ds IH]; intros acc; [done |].
  rewrite fmap_cons. cbn [fold_left]. rewrite toLowerCase_idemp. apply IH.
Qed.

(** ** Category names *)

Lemma Qle_bool_false (a b : Q) : Qle_bool a b = false → (b < a)%Q.
Proof.
  intros H. apply Qnot_le_lt. intros Hle%Qle_bool_iff. congruence.
Qed.

(** At 0.625 exactly the category is "Not Very Effective". *)
Lemma category_at_0625 :
  (39 # 100 <= 625 # 1000)%Q ∧ (625 # 1000 <= 625 # 1000)%Q
  ∧ Effectiveness.getEffectivenessCategory (625 # 1000) = "Not Very Effective".
Proof. split; [lra |]. split; [lra | reflexivity]. Qed.

(** C7, amended: a multiplier equal to 1 is "Neutral"; one of at least 1.6
    is "Super Effective" or "Double Super Effective"; one of at least 0.39
    and strictly below 0.625 is "Resisted", and 0.625 itself is
    "Not Very Effective". *)
Theorem getEffectivenessCategory_boundaries (m : Q) :
  ((m == 1)%Q → Effectiveness.getEffectivenessCategory m = "Neutral")
  ∧ ((16 # 10 <= m)%Q →
     Effectiveness.getEffectivenessCategory m = "Super Effective"
     ∨ Effectiveness.getEffectivenessCategory m = "Double Super Effective")
  ∧ ((39 # 100 <= m)%Q → (m < 625 # 1000)%Q →
     Effectiveness.getEffectivenessCategory m = "Resisted")
  ∧ ((m == 625 # 1000)%Q →
     Effectiveness.getEffectivenessCategory m = "Not Very Effective").
Proof.
  unfold Effectiveness.getEffectivenessCategory.
  destruct (Qle_bool 2 m) eqn:H2;
    [apply Qle_bool_iff in H2 | apply Qle_bool_false in H2];
  (destruct (Qle_bool (16 # 10) m) eqn:H16;
    [apply Qle_bool_iff in H16 | apply Qle_bool_false in H16]);
  (destruct (Qle_bool m 1) eqn:H1;
    [apply Qle_bool_iff in H1 | apply Qle_bool_false in H1]);
  (destruct (Qeq_bool m 1) eqn:He;
    [apply Qeq_bool_iff in He | apply Qeq_bool_neq in He]);
  (destruct (Qle_bool (625 # 1000) m) eqn:H6;
    [apply Qle_bool_iff in H6 | apply Qle_bool_false in H6]);
  (destruct (Qle_bool (39 # 100) m) eqn:H3;
    [apply Qle_bool_iff in H3 | apply Qle_bool_false in H3]);
  simpl; repeat split; intros; auto; exfalso; lra.
Qed.

(** ** The exact ceilings and the doubles *)

(** For every population of up to 4000 chromosomes the doubles give the
    exact elite count ceil(0.1 n) and top count ceil(0.3 n). *)
Lemma ceilings_on_doubles :
  forallb (λ n,
      bool_decide (double_ceil_times n 0.1
                   = Some (Qceiling (inject_Z (Z.of_nat n) * (1 # 10))))
      && bool_decide (double_ceil_times n 0.3
                      = Some (Qceiling (inject_Z (Z.of_nat n) * (3 # 10)))))
    (seq 0 4001)
  = true.
Proof. by vm_compute. Qed.

(** * Selection, elites and the adaptive rate *)

(** ** Tournament selection *)

Lemma reduce_best_max (first : Chromosome) (rest : list Chromosome) :
  ∃ c, reduce_best (Some <$> first :: rest) = Ok (Some c)
       ∧ c ∈ first :: rest
       ∧ ∀ d, d ∈ first :: rest → (fitness d <= fitness c)%Q.
Proof.
  rewrite fmap_cons. unfold reduce_best.
  revert first. induction rest as [|x rest IH]; intros first.
  - exists first. split; [done |]. split; [left |].
    intros d ->%list_elem_of_singleton. lra.
  - rewrite fmap_cons. cbn [for_each].
    destruct (negb (Qle_bool (fitness x) (fitness first))) eqn:Hcmp; simpl.
    + apply negb_true_iff, Qle_bool_false in Hcmp.
      destruct (IH x) as (c & Hrun & Hc & Hmax).
      exists c. split; [done |]. split; [by right |].
      intros d [->|Hd]%elem_of_cons; [| by apply Hmax].
      specialize (Hmax x (list_elem_of_here _ _)). lra.
    + apply negb_false_iff, Qle_bool_iff in Hcmp.
      destruct (IH first) as (c & Hrun & Hc & Hmax).
      exists c. split; [done |]. split.
      * apply elem_of_cons in Hc as [->|Hc]; [left | by do 2 right].
      * intros d [->|[->|Hd]%elem_of_cons]%elem_of_cons.
        -- apply Hmax. left.
        -- specialize (Hmax first (list_elem_of_here _ _)). lra.
        -- apply Hmax. by right.
Qed.

(** X1: on a non-empty population and with a tournament size of at least
    one, [tournamentSelection] draws that many chromosomes of the population
    and returns one of the drawn chromosomes that is at least as fit as every
    drawn chromosome. *)
Theorem tournamentSelection_fittest_drawn (population : list Chromosome)
    (k : nat) (g : Rng) :
  population ≠ [] → 0 < k →
  ∃ (drawn : list Chromosome) (winner : Chromosome) (g' : Rng),
    draw_tournament population k g = Ok (Some <$> drawn, g')
    ∧ length drawn = k
    ∧ Forall (λ c, c ∈ population) drawn
    ∧ tournamentSelection population k g = Ok (Some winner, g')
    ∧ winner ∈ drawn
    ∧ ∀ d, d ∈ drawn → (fitness d <= fitness winner)%Q.
Proof.
  intros Hne Hk.
  destruct (draw_tournament_run population k g Hne)
    as (cs & g1 & Hdraw & Hlen & Hall).
  destruct cs as [|first rest]; [simpl in Hlen; lia |].
  destruct (reduce_best_max first rest) as (c & Hbest & Hc & Hmax).
  exists (first :: rest), c, g1. split; [done |]. split; [done |].
  split; [done |]. split; [| done].
  unfold tournamentSelection. rewrite (Rand_bind_run _ _ _ _ _ Hdraw).
  by apply lift_run.
Qed.

Lemma tournamentSelection_fittest_drawn_witness :
  sample_population ≠ [] ∧ 0 < 3
  ∧ ∃ (drawn : list Chromosome) (winner : Chromosome) (g' : Rng),
      draw_tournament sample_population 3 (constant_source draw_half)
      = Ok (Some <$> drawn, g')
      ∧ length drawn = 3
      ∧ Forall (λ c, c ∈ sample_population) drawn
      ∧ tournamentSelection sample_population 3 (constant_source draw_half)
        = Ok (Some winner, g')
      ∧ winner ∈ drawn
      ∧ ∀ d, d ∈ drawn → (fitness d <= fitness winner)%Q.
Proof.
  assert (Hne : sample_population ≠ []) by discriminate.
  assert (Hk : 0 < 3) by lia.
  split; [exact Hne |]. split; [exact Hk |].
  exact (tournamentSelection_fittest_drawn sample_population 3
           (constant_source draw_half) Hne Hk).
Defined.

(** X2: [tournamentSelection] raises when the tournament is empty
    ([reduce] of an empty array) and, for a tournament of two or more, when
    the population is empty; with a tournament of one and an empty
    population it returns [undefined]. *)
Theorem tournamentSelection_degenerate (population : list Chromosome)
    (k : nat) (g : Rng) :
  tournamentSelection population 0 g = Throw
  ∧ tournamentSelection [] (Datatypes.S (Datatypes.S k)) g = Throw
  ∧ tournamentSelection [] 1 g = Ok (None, advance g).
Proof.
  split; [done |]. split; [| done].
  unfold tournamentSelection.
  assert (Hdraw : ∀ n h, ∃ h',
            draw_tournament [] n h = Ok (replicate n None, h')).
  { induction n as [|n IH]; intros h; [by eexists |].
    destruct (IH (advance h)) as (h' & Hn). exists h'. simpl.
    rewrite (Rand_bind_run _ _ _ _ _ (pick_run _ h)).
    rewrite (Rand_bind_run _ _ _ _ _ Hn). done. }
  destruct (Hdraw (Datatypes.S (Datatypes.S k)) g) as (h' & Hd).
  by rewrite (Rand_bind_run _ _ _ _ _ Hd).
Qed.

(** ** Elites *)

Lemma clone_strings (l : list Chromosome) :
  Forall StringTeam l → cloneChromosome <$> l = l.
Proof.
  induction 1 as [|c l [ss Hc] _ IH]; [done |].
  rewrite fmap_cons, IH. by rewrite (cloneChromosome_dense c ss).
Qed.

(** X3: [selectElites] returns the chromosomes of a fittest part of the
    population, fitter first: min(e, n) of them for an elite count e >= 0
    and, as [slice(0, e)] has it, all but the |e| least fit for a negative
    e; whatever is left out is at most as fit as every elite. *)
Theorem selectElites_fittest (population : list Chromosome) (e : Z) :
  Forall StringTeam population →
  length (selectElites population e)
  = Z.to_nat (if (e <? 0)%Z
              then Z.max (Z.of_nat (length population) + e) 0
              else Z.min e (Z.of_nat (length population)))
  ∧ StronglySorted fitter (selectElites population e)
  ∧ ∃ rest : list Chromosome,
      selectElites population e ++ rest ≡ₚ population
      ∧ ∀ x y, x ∈ selectElites population e → y ∈ rest → fitter x y.
Proof.
  intros Hstr. unfold selectElites. fold (sortByFitness population).
  assert (Hsl : Forall StringTeam
                  (slice0 (sortByFitness population) e)).
  { unfold slice0. apply Forall_take. by rewrite sortByFitness_perm. }
  rewrite (clone_strings _ Hsl). unfold slice0.
  rewrite sortByFitness_length.
  set (k := Z.to_nat (if (e <? 0)%Z
                      then Z.max (Z.of_nat (length population) + e) 0
                      else Z.min e (Z.of_nat (length population)))).
  assert (Hk : k ≤ length population)
    by (subst k; destruct (Z.ltb_spec e 0); lia).
  split; [rewrite length_take, sortByFitness_length; lia |].
  split; [apply StronglySorted_take, sortByFitness_sorted |].
  exists (drop k (sortByFitness population)). split.
  - rewrite take_drop. apply sortByFitness_perm.
  - intros x y Hx Hy.
    eapply (StronglySorted_app_1_elem_of fitter); [| exact Hx | exact Hy].
    rewrite take_drop. apply sortByFitness_sorted.
Qed.

Lemma selectElites_fittest_witness :
  Forall StringTeam sample_population
  ∧ length (selectElites sample_population (-1)) = 3
  ∧ StronglySorted fitter (selectElites sample_population (-1))
  ∧ ∃ rest : list Chromosome,
      selectElites sample_population (-1) ++ rest ≡ₚ sample_population
      ∧ ∀ x y, x ∈ selectElites sample_population (-1) → y ∈ rest →
               fitter x y.
Proof.
  assert (Hstr : Forall StringTeam sample_population)
    by (repeat constructor; by eexists [_; _; _]).
  split; [exact Hstr |].
  exact (selectElites_fittest sample_population (-1) Hstr).
Defined.

(** ** Adaptive mutation rate *)

(** X4: for a base rate between 0.05 and 0.5 the adapted rate stays between
    0.05 and 0.5; it is min(2 base, 0.5), so at least the base rate, when the
    diversity is below 0.3, max(base / 2, 0.05), so at most the base rate,
    when the diversity is above 0.7, and the base rate itself in between. *)
Theorem getAdaptiveMutationRate_range (diversity base : Q) :
  (5 # 100 <= base)%Q → (base <= 5 # 10)%Q →
  (5 # 100 <= getAdaptiveMutationRate diversity (Some base) <= 5 # 10)%Q
  ∧ ((diversity < 3 # 10)%Q →
     (base <= getAdaptiveMutationRate diversity (Some base))%Q
     ∧ (getAdaptiveMutationRate diversity (Some base) <= base * 2)%Q)
  ∧ ((7 # 10 < diversity)%Q →
     (getAdaptiveMutationRate diversity (Some base) <= base)%Q
     ∧ (base * (5 # 10) <= getAdaptiveMutationRate diversity (Some base))%Q)
  ∧ ((3 # 10 <= diversity)%Q → (diversity <= 7 # 10)%Q →
     getAdaptiveMutationRate diversity (Some base) = base).
Proof.
  intros Hlo Hhi. unfold getAdaptiveMutationRate, q_min, q_max.
  cbn [from_option]. unfold id.
  destruct (Qle_bool (3 # 10) diversity) eqn:H3;
    [apply Qle_bool_iff in H3 | apply Qle_bool_false in H3];
  (destruct (Qle_bool diversity (7 # 10)) eqn:H7;
    [apply Qle_bool_iff in H7 | apply Qle_bool_false in H7]);
  (destruct (Qle_bool (base * 2) (5 # 10)) eqn:Hmin;
    [apply Qle_bool_iff in Hmin | apply Qle_bool_false in Hmin]);
  (destruct (Qle_bool (base * (5 # 10)) (5 # 100)) eqn:Hmax;
    [apply Qle_bool_iff in Hmax | apply Qle_bool_false in Hmax]);
  cbn [negb]; repeat split; intros;
    first [reflexivity | lra | exfalso; lra].
Qed.

Lemma getAdaptiveMutationRate_range_witness :
  (5 # 100 <= 2 # 10)%Q ∧ (2 # 10 <= 5 # 10)%Q
  ∧ (5 # 100 <= getAdaptiveMutationRate (1 # 10) (Some (2 # 10)) <= 5 # 10)%Q
  ∧ ((1 # 10 < 3 # 10)%Q →
     (2 # 10 <= getAdaptiveMutationRate (1 # 10) (Some (2 # 10)))%Q
     ∧ (getAdaptiveMutationRate (1 # 10) (Some (2 # 10)) <= (2 # 10) * 2)%Q)
  ∧ ((7 # 10 < 1 # 10)%Q →
     (getAdaptiveMutationRate (1 # 10) (Some (2 # 10)) <= 2 # 10)%Q
     ∧ ((2 # 10) * (5 # 10)
        <= getAdaptiveMutationRate (1 # 10) (Some (2 # 10)))%Q)
  ∧ ((3 # 10 <= 1 # 10)%Q → (1 # 10 <= 7 # 10)%Q →
     getAdaptiveMutationRate (1 # 10) (Some (2 # 10)) = 2 # 10).
Proof.
  assert (Hlo : (5 # 100 <= 2 # 10)%Q) by lra.
  assert (Hhi : (2 # 10 <= 5 # 10)%Q) by lra.
  split; [exact Hlo |]. split; [exact Hhi |].
  exact (getAdaptiveMutationRate_range (1 # 10) (2 # 10) Hlo Hhi).
Defined.

(** ** Invariants of a generation step *)

Lemma draw_tournament_empty (k : nat) (g : Rng) :
  ∃ g', draw_tournament [] k g = Ok (replicate k None, g').
Proof.
  revert g. induction k as [|k IH]; intros g; [by eexists |].
  destruct (IH (advance g)) as (g' & Hk). exists g'. simpl.
  rewrite (Rand_bind_run _ _ _ _ _ (pick_run _ g)).
  by rewrite (Rand_bind_run _ _ _ _ _ Hk).
Qed.

Lemma tournamentSelection_member population k g p g' :
  tournamentSelection population k g = Ok (Some p, g') → p ∈ population.
Proof.
  destruct population as [|c population].
  - unfold tournamentSelection.
    destruct (draw_tournament_empty k g) as (h & Hd).
    rewrite (Rand_bind_run _ _ _ _ _ Hd).
    destruct k as [|[|k]]; simpl; done.
  - destruct k as [|k]; [done |].
    destruct (tournamentSelection_run (c :: population) (Datatypes.S k) g)
      as (q & h & Hrun & Hq); [done | lia |].
    rewrite Hrun. by intros [= <- _].
Qed.

(** What one round of the filling loop returns comes from a chromosome [p1]
    of the population by crossover or cloning, then mutation. *)
Lemma breed_Ok population pool mode crossoverRate mutationRate g child g' :
  breed population pool mode crossoverRate mutationRate g = Ok (child, g') →
  ∃ p1 mid g1 g2,
    p1 ∈ population
    ∧ ((∃ p2, p2 ∈ population ∧ crossover p1 p2 mode g1 = Ok (mid, g2))
       ∨ mid = cloneChromosome p1)
    ∧ mutate mid pool mutationRate mode g2 = Ok (child, g').
Proof.
  unfold breed.
  intros (o1 & h1 & Ht1 & (o2 & h2 & Ht2 & (r & h3 & _
            & (mid & h4 & Hmid & Hmut)%Rand_bind_Ok)%Rand_bind_Ok
          )%Rand_bind_Ok)%Rand_bind_Ok.
  destruct (negb (Qle_bool crossoverRate (u01 r))).
  - destruct o1 as [p1|], o2 as [p2|]; try done.
    exists p1, mid, h3, h4. split; [by eapply tournamentSelection_member |].
    split; [| done]. left. exists p2.
    split; [by eapply tournamentSelection_member | done].
  - destruct o1 as [p1|]; [| done]. injection Hmid as <- <-.
    exists p1, (cloneChromosome p1), h3, h3.
    split; [by eapply tournamentSelection_member |]. split; [by right | done].
Qed.

Lemma fill_generation_Forall (P : Chromosome → Prop) fuel population pool mode
    crossoverRate mutationRate next g result g' :
  (∀ h child h',
     breed population pool mode crossoverRate mutationRate h = Ok (child, h') →
     P child) →
  Forall P next →
  fill_generation fuel population pool mode crossoverRate mutationRate next g
  = Ok (result, g') →
  Forall P result.
Proof.
  intros Hbreed. revert next g. induction fuel as [|fuel IH]; intros next g Hnext;
    simpl; destruct (length next <? length population);
    try done; try (by intros [= <- _]).
  intros (child & g1 & Hchild & Hrest)%Rand_bind_Ok.
  eapply IH; [| exact Hrest]. apply Forall_app. split; [done |].
  constructor; [by eapply Hbreed | constructor].
Qed.

Lemma selectElites_clones population e :
  Forall (λ c, ∃ p, p ∈ population ∧ c = cloneChromosome p)
    (selectElites population e).
Proof.
  unfold selectElites. apply Forall_fmap, Forall_forall. intros p Hp.
  exists p. split; [| done].
  unfold slice0 in Hp. apply elem_of_take in Hp as (i & Hp & _).
  apply list_elem_of_lookup_2 in Hp.
  by rewrite <- (sortByFitness_perm population).
Qed.

Lemma breed_valid population pool mode crossoverRate mutationRate g child g' :
  Forall (ValidFor mode) population →
  breed population pool mode crossoverRate mutationRate g = Ok (child, g') →
  ValidFor mode child.
Proof.
  intros Hvalid (p1 & mid & g1 & g2 & Hp1 & Hmid & Hmut)%breed_Ok.
  rewrite Forall_forall in Hvalid.
  assert (Hvmid : ValidFor mode mid).
  { destruct Hmid as [(p2 & Hp2 & Hx) | ->].
    - destruct (crossover_run mode p1 p2 g1) as (c & h & Hrun & _ & Hv);
        [by apply ValidFor_WellFormed, Hvalid.. |].
      rewrite Hrun in Hx. injection Hx as <- _. by apply Hv, Hvalid.
    - destruct (Hvalid p1 Hp1) as (ss & Ht & ?).
      rewrite (cloneChromosome_dense p1 ss) by done. by apply Hvalid. }
  destruct (mutate_run mode pool mutationRate mid g2) as (c & h & Hrun & _ & Hv);
    [by apply ValidFor_WellFormed |].
  rewrite Hrun in Hmut. injection Hmut as <- _. by apply Hv.
Qed.

(** X5: a generation step keeps the population valid: when every chromosome
    of the population is valid for the mode, [createNextGeneration] returns,
    and every chromosome of the population it returns is valid for the mode,
    for every pool, options and state of the random source. *)
Theorem next_generation_valid (population : list Chromosome)
    (pool : list string) (mode : TournamentMode) (options : Options) (g : Rng) :
  Forall (ValidFor mode) population →
  ∃ next g',
    createNextGeneration population pool mode options g = Ok (next, g')
    ∧ Forall (ValidFor mode) next
    ∧ Forall (λ c, isValidChromosome c mode = Ok true) next.
Proof.
  intros Hvalid.
  destruct (createNextGeneration_run population pool mode options g)
    as (next & g' & Hrun).
  { eapply Forall_impl; [exact Hvalid |]. apply ValidFor_WellFormed. }
  exists next, g'. split; [exact Hrun |].
  assert (Hnext : Forall (ValidFor mode) next).
  { unfold createNextGeneration in Hrun.
    eapply (fill_generation_Forall (ValidFor mode)); [| | exact Hrun].
    - intros h child h'. by apply breed_valid.
    - eapply Forall_impl; [apply selectElites_clones |].
      intros c (p & Hp & ->). rewrite Forall_forall in Hvalid.
      destruct (Hvalid p Hp) as (ss & Ht & ?).
      rewrite (cloneChromosome_dense p ss) by done. by apply Hvalid. }
  split; [exact Hnext |].
  eapply Forall_impl; [exact Hnext |]. apply ValidFor_isValidChromosome.
Qed.

Lemma next_generation_valid_witness :
  Forall (ValidFor GBL) sample_population
  ∧ ∃ next g',
      createNextGeneration sample_population sample_pool GBL sample_options
        (constant_source draw_half) = Ok (next, g')
      ∧ Forall (ValidFor GBL) next
      ∧ Forall (λ c, isValidChromosome c GBL = Ok true) next.
Proof.
  assert (Hvalid : Forall (ValidFor GBL) sample_population).
  { repeat constructor.
    - by apply (ValidFor_strings GBL _ ["azumarill"; "medicham"; "skarmory"]).
    - by apply (ValidFor_strings GBL _
                  ["registeel"; "azumarill_shadow"; "medicham"]).
    - by apply (ValidFor_strings GBL _ ["registeel"; "altaria"; "lanturn"]).
    - by apply (ValidFor_strings GBL _ ["azumarill"; "medicham"; "skarmory"]). }
  split; [exact Hvalid |].
  exact (next_generation_valid sample_population sample_pool GBL sample_options
           (constant_source draw_half) Hvalid).
Defined.

Lemma KeepsAnchors_trans a b c :
  KeepsAnchors a b → KeepsAnchors b c → KeepsAnchors a c.
Proof.
  intros [Hab1 Hab2] [Hbc1 Hbc2]. split; [congruence |].
  intros i Hi. rewrite Hbc2 by (by rewrite Hab1). by apply Hab2.
Qed.

(** X6: every chromosome of the generation that [createNextGeneration]
    returns keeps the anchors of some chromosome of the input population:
    the same anchors list and the same team entries at the anchored
    indices.  So when all chromosomes of a population share their anchors
    list and their entries at those indices, as the populations built from
    the same anchor species do, the next generation shares them too. *)
Theorem next_generation_keeps_anchors (population : list Chromosome)
    (pool : list string) (mode : TournamentMode) (options : Options) (g : Rng)
    (next : list Chromosome) (g' : Rng) :
  createNextGeneration population pool mode options g = Ok (next, g') →
  Forall (λ c, ∃ p, p ∈ population ∧ KeepsAnchors p c) next
  ∧ ∀ (locked : list nat) (entry : nat → cell),
      Forall (λ p, anchors p = locked
                   ∧ ∀ i, i ∈ locked → array_get (team p) i = entry i)
        population →
      Forall (λ c, anchors c = locked
                   ∧ ∀ i, i ∈ locked → array_get (team c) i = entry i)
        next.
Proof.
  intros Hrun.
  assert (Hkeeps : Forall (λ c, ∃ p, p ∈ population ∧ KeepsAnchors p c) next).
  { unfold createNextGeneration in Hrun.
    eapply (fill_generation_Forall
              (λ c, ∃ p, p ∈ population ∧ KeepsAnchors p c)); [| | exact Hrun].
    - intros h child h' (p1 & mid & g1 & g2 & Hp1 & Hmid & Hmut)%breed_Ok.
      exists p1. split; [done |].
      apply (KeepsAnchors_trans p1 mid child); [| by eapply mutate_frame].
      destruct Hmid as [(p2 & _ & Hx) | ->];
        [by eapply crossover_frame | apply KeepsAnchors_clone].
    - eapply Forall_impl; [apply selectElites_clones |].
      intros c (p & Hp & ->). exists p. split; [done | apply KeepsAnchors_clone]. }
  split; [exact Hkeeps |]. intros locked entry Hpop.
  rewrite Forall_forall in Hpop.
  eapply Forall_impl; [exact Hkeeps |].
  intros c (p & Hp & Ha & Hi). destruct (Hpop p Hp) as [Hl He].
  split; [congruence |]. intros i Hin. rewrite Hi by (by rewrite Hl).
  by apply He.
Qed.

Lemma next_generation_keeps_anchors_witness :
  ∃ next g',
    createNextGeneration [sample_anchored; sample_lead_anchored] sample_pool
      GBL sample_options (constant_source draw_half) = Ok (next, g')
    ∧ Forall (λ c, ∃ p, p ∈ [sample_anchored; sample_lead_anchored]
                        ∧ KeepsAnchors p c) next.
Proof.
  destruct (createNextGeneration [sample_anchored; sample_lead_anchored]
              sample_pool GBL sample_options (constant_source draw_half))
    as [[next g']| |] eqn:Hrun; [| by vm_compute in Hrun..].
  exists next, g'. split; [done |].
  exact (proj1 (next_generation_keeps_anchors _ _ _ _ _ _ _ Hrun)).
Defined.

(** ** The best and the worst chromosome *)

Lemma getBestChromosome_cons (x : Chromosome) (l : list Chromosome) :
  getBestChromosome (x :: l)
  = match getBestChromosome l with
    | None => Some x
    | Some y => if Qle_bool (fitness y - fitness x) 0 then Some x else Some y
    end.
Proof.
  unfold getBestChromosome, sortByFitness, sort_with, array_sort. simpl.
  destruct (foldr _ [] l) as [|y s]; simpl; [done |].
  by destruct (Qle_bool (fitness y - fitness x) 0).
Qed.

Lemma sort_insert_last (x : Chromosome) (s : list Chromosome) :
  StronglySorted fitter s →
  last (sort_insert (λ a b, Qle_bool (fitness b - fitness a) 0) x s)
  = match last s with
    | None => Some x
    | Some w => if Qle_bool (fitness w - fitness x) 0 then Some w else Some x
    end.
Proof.
  induction 1 as [|y s Hs IH Hy]; [done |]. cbn [sort_insert].
  destruct (Qle_bool (fitness y - fitness x) 0) eqn:Hxy.
  - rewrite last_cons. destruct (last (y :: s)) as [w|] eqn:Hw; [| done].
    assert (Hyw : fitter y w).
    { rewrite last_cons in Hw. destruct (last s) as [w'|] eqn:Hw'.
      - injection Hw as <-. eapply Forall_forall; [exact Hy |].
        rewrite last_lookup in Hw'. by eapply list_elem_of_lookup_2.
      - injection Hw as <-. unfold fitter. lra. }
    apply fitter_before in Hxy. unfold fitter in Hxy, Hyw.
    replace (Qle_bool (fitness w - fitness x) 0) with true; [done |].
    symmetry. apply Qle_bool_iff. lra.
  - rewrite last_cons, IH, last_cons. destruct (last s) as [w|]; [| by rewrite Hxy].
    by destruct (Qle_bool (fitness w - fitness x) 0).
Qed.

Lemma getWorstChromosome_last (l : list Chromosome) :
  getWorstChromosome l = last (sortByFitness l).
Proof.
  unfold getWorstChromosome. rewrite last_lookup, sortByFitness_length.
  by destruct l.
Qed.

Lemma getWorstChromosome_cons (x : Chromosome) (l : list Chromosome) :
  getWorstChromosome (x :: l)
  = match getWorstChromosome l with
    | None => Some x
    | Some w => if Qle_bool (fitness w - fitness x) 0 then Some w else Some x
    end.
Proof.
  rewrite !getWorstChromosome_last.
  change (sortByFitness (x :: l))
    with (sort_insert (λ a b, Qle_bool (fitness b - fitness a) 0) x
            (sortByFitness l)).
  apply sort_insert_last, sortByFitness_sorted.
Qed.

(** X7: [getBestChromosome] returns [undefined] on the empty population
    only; otherwise it returns a chromosome of the population that no
    chromosome beats, and of several with the highest fitness the one that
    comes first in the population (the sort is stable). *)
Theorem getBestChromosome_first_fittest (population : list Chromosome) :
  (getBestChromosome population = None ↔ population = [])
  ∧ ∀ best, getBestChromosome population = Some best →
      ∃ i, population !! i = Some best
           ∧ (∀ c, c ∈ population → (fitness c <= fitness best)%Q)
           ∧ ∀ j c, j < i → population !! j = Some c →
                    (fitness c < fitness best)%Q.
Proof.
  induction population as [|x l [Hnone IH]]; [by split |].
  rewrite getBestChromosome_cons. split.
  { split; [| done]. destruct (getBestChromosome l) as [y|]; [| done].
    by destruct (Qle_bool (fitness y - fitness x) 0). }
  intros best Hbest. destruct (getBestChromosome l) as [y|] eqn:Hy.
  - destruct (IH y eq_refl) as (i & Hi & Hmax & Hfirst).
    destruct (Qle_bool (fitness y - fitness x) 0) eqn:Hxy;
      injection Hbest as <-.
    + exists 0. split; [done |]. split; [| intros; lia].
      apply fitter_before in Hxy. unfold fitter in Hxy.
      intros c [->|Hc]%elem_of_cons; [lra |]. specialize (Hmax c Hc). lra.
    + exists (Datatypes.S i). split; [done |].
      apply Qle_bool_false in Hxy. split.
      * intros c [->|Hc]%elem_of_cons; [lra | by apply Hmax].
      * intros [|j] c Hj Hc; simpl in Hc; [injection Hc as <-; lra |].
        apply (Hfirst j); [lia | done].
  - injection Hbest as <-. assert (l = []) as -> by (by apply Hnone). exists 0.
    split; [done |]. split; [| intros; lia].
    intros c ->%list_elem_of_singleton. lra.
Qed.

(** X8: [getWorstChromosome] returns [undefined] on the empty population
    only; otherwise it returns a chromosome of the population that beats no
    other, and of several with the lowest fitness the one that comes last in
    the population. *)
Theorem getWorstChromosome_last_least_fit (population : list Chromosome) :
  (getWorstChromosome population = None ↔ population = [])
  ∧ ∀ worst, getWorstChromosome population = Some worst →
      ∃ i, population !! i = Some worst
           ∧ (∀ c, c ∈ population → (fitness worst <= fitness c)%Q)
           ∧ ∀ j c, i < j → population !! j = Some c →
                    (fitness worst < fitness c)%Q.
Proof.
  induction population as [|x l [Hnone IH]]; [by split |].
  rewrite getWorstChromosome_cons. split.
  { split; [| done]. destruct (getWorstChromosome l) as [w|]; [| done].
    by destruct (Qle_bool (fitness w - fitness x) 0). }
  intros worst Hworst. destruct (getWorstChromosome l) as [w|] eqn:Hw.
  - destruct (IH w eq_refl) as (i & Hi & Hmin & Hlast).
    destruct (Qle_bool (fitness w - fitness x) 0) eqn:Hxw;
      injection Hworst as <-.
    + exists (Datatypes.S i). split; [done |].
      apply fitter_before in Hxw. unfold fitter in Hxw. split.
      * intros c [->|Hc]%elem_of_cons; [lra | by apply Hmin].
      * intros [|j] c Hj Hc; [lia |]. simpl in Hc.
        apply (Hlast j); [lia | done].
    + exists 0. split; [done |]. apply Qle_bool_false in Hxw. split.
      * intros c [->|Hc]%elem_of_cons; [lra |]. specialize (Hmin c Hc). lra.
      * intros [|j] c Hj Hc; [lia |]. simpl in Hc.
        apply list_elem_of_lookup_2 in Hc. specialize (Hmin c Hc). lra.
  - injection Hworst as <-. assert (l = []) as -> by (by apply Hnone). exists 0.
    split; [done |]. split; [intros c ->%list_elem_of_singleton; lra |].
    intros [|j] c Hj Hc; [lia | done].
Qed.

(** ** [calculateDiversity] in general *)

Lemma ascii_compare_lt_trans (a b c : ascii) :
  Ascii.compare a b = Lt → Ascii.compare b c = Lt → Ascii.compare a c = Lt.
Proof. unfold Ascii.compare. rewrite !N.compare_lt_iff. lia. Qed.

Lemma string_compare_lt_trans (s1 s2 s3 : string) :
  String.compare s1 s2 = Lt → String.compare s2 s3 = Lt →
  String.compare s1 s3 = Lt.
Proof.
  revert s2 s3. induction s1 as [|a s1 IH]; intros [|b s2] [|c s3]; simpl;
    try done.
  destruct (Ascii.compare a b) eqn:Hab, (Ascii.compare b c) eqn:Hbc; try done.
  - apply Ascii.compare_eq_iff in Hab as ->. rewrite Hbc. apply IH.
  - apply Ascii.compare_eq_iff in Hab as ->. by rewrite Hbc.
  - apply Ascii.compare_eq_iff in Hbc as <-. by rewrite Hab.
  - by rewrite (ascii_compare_lt_trans a b c).
Qed.

#[local] Instance string_le_trans : Transitive string_le.
Proof.
  unfold string_le, String.leb. intros a b c Hab Hbc.
  destruct (String.compare a b) eqn:Eab; [| | done].
  - by apply String.compare_eq_iff in Eab as ->.
  - destruct (String.compare b c) eqn:Ebc; [| | done].
    + apply String.compare_eq_iff in Ebc as <-. by rewrite Eab.
    + by rewrite (string_compare_lt_trans a b c).
Qed.

#[local] Instance string_le_antisym : AntiSymm eq string_le.
Proof. intros a b. apply String.leb_antisym. Qed.

Lemma string_sort_sorted (l : list string) :
  StronglySorted string_le (array_sort String.leb l).
Proof.
  apply array_sort_sorted; [done | | apply _].
  intros a b Hab. by destruct (String.leb_total a b) as [H|H]; [congruence |].
Qed.

Lemma string_sort_unique (l1 l2 : list string) :
  l1 ≡ₚ l2 → array_sort String.leb l1 = array_sort String.leb l2.
Proof.
  intros Hp. apply (StronglySorted_unique string_le);
    [apply string_sort_sorted.. |].
  by rewrite !array_sort_perm.
Qed.

Lemma filter_eq_replicate (x : cell) (l : list cell) :
  filter (λ v, v = x) l = replicate (length (filter (λ v, v = x) l)) x.
Proof.
  induction l as [|y l IH]; [done |]. rewrite filter_cons.
  case_decide as Hy; [| done]. subst y. simpl. by rewrite <- IH.
Qed.

Lemma default_sort_unique (t1 t2 : list cell) :
  t1 ≡ₚ t2 → default_sort t1 = default_sort t2.
Proof.
  intros Hp. unfold default_sort. f_equal; [| f_equal].
  - f_equal. apply string_sort_unique. by rewrite Hp.
  - rewrite (filter_eq_replicate Undefined t1), (filter_eq_replicate Undefined t2).
    by rewrite Hp.
  - rewrite (filter_eq_replicate Hole t1), (filter_eq_replicate Hole t2).
    by rewrite Hp.
Qed.

Lemma default_sort_perm (t : list cell) : default_sort t ≡ₚ t.
Proof.
  unfold default_sort. rewrite array_sort_perm.
  induction t as [|v t IH]; [done |]. rewrite !filter_cons.
  destruct v as [s| |]; simpl.
  - repeat case_decide; try done. by rewrite IH.
  - repeat case_decide; try done. rewrite <- Permutation_middle. by rewrite IH.
  - repeat case_decide; try done. rewrite app_assoc, <- Permutation_middle.
    rewrite <- app_assoc. by rewrite IH.
Qed.

Lemma default_sort_idemp (t : list cell) :
  default_sort (default_sort t) = default_sort t.
Proof. apply default_sort_unique, default_sort_perm. Qed.

Lemma default_sort_sorted (t : list cell) : sorted_team (default_sort t).
Proof.
  exists (array_sort String.leb (omap cell_string t)),
    (length (filter (λ v, v = Undefined) t)),
    (length (filter (λ v, v = Hole) t)).
  split; [| apply string_sort_sorted].
  unfold default_sort.
  by rewrite <- (filter_eq_replicate Undefined), <- (filter_eq_replicate Hole).
Qed.

(** Sorting is more than a rearrangement: a team out of order changes. *)
Lemma default_sort_moves_entries :
  default_sort (team sample_lead_anchored)
  = [Str "azumarill"; Str "medicham"; Str "skarmory"]
  ∧ default_sort [Str "b"; Hole; Undefined; Str "a"; Undefined]
    = [Str "a"; Str "b"; Undefined; Undefined; Hole].
Proof. split; by vm_compute. Qed.

(** X9: what [calculateDiversity] does to a population, whatever the
    population: it keeps the number and the order of the chromosomes, and in
    each chromosome the anchors list and the fitness; each team is sorted in
    place: it holds the same entries as before (so its length and its
    species stay) and they now stand in sorted order, the strings in
    non-descending order first, then the [undefined] values, then the
    holes.  A second call changes nothing further and returns the same
    diversity. *)
Theorem calculateDiversity_reorders_only (population : list Chromosome) :
  let after := (calculateDiversity population).2 in
  length after = length population
  ∧ Forall2 (λ c c', team c' ≡ₚ team c
                     ∧ sorted_team (team c')
                     ∧ length (team c') = length (team c)
                     ∧ anchors c' = anchors c
                     ∧ fitness c' = fitness c)
      population after
  ∧ calculateDiversity after = calculateDiversity population.
Proof.
  cbn zeta. unfold calculateDiversity. cbn [snd].
  split; [by rewrite length_fmap |]. split.
  - apply Forall2_fmap_r, Forall_Forall2_diag, Forall_forall. intros c _.
    cbn [sort_team_in_place team anchors fitness].
    split; [apply default_sort_perm |].
    split; [apply default_sort_sorted |].
    split; [apply Permutation_length, default_sort_perm | done].
  - rewrite length_fmap.
    assert (Hfix : sort_team_in_place <$> (sort_team_in_place <$> population)
                   = sort_team_in_place <$> population).
    { rewrite <- list_fmap_compose. apply list_fmap_ext. intros _ c _.
      unfold sort_team_in_place, compose. cbn [team anchors fitness].
      by rewrite default_sort_idemp. }
    by rewrite Hfix.
Qed.

(** X10: the diversity does not see the order of the species within a team:
    two populations whose teams are, position by position, rearrangements
    of one another have the same diversity. *)
Theorem calculateDiversity_order_blind (p q : list Chromosome) :
  Forall2 (λ a b, team a ≡ₚ team b) p q →
  (calculateDiversity p).1 = (calculateDiversity q).1.
Proof.
  intros Hpq. unfold calculateDiversity. cbn [fst].
  rewrite (Forall2_length _ _ _ Hpq).
  replace ((λ c, join_comma (team c)) <$> (sort_team_in_place <$> p))
    with ((λ c, join_comma (team c)) <$> (sort_team_in_place <$> q)); [done |].
  induction Hpq as [|a b p q Hab _ IH]; [done |]. rewrite !fmap_cons.
  f_equal; [| exact IH]. cbn [sort_team_in_place team].
  by rewrite (default_sort_unique _ _ Hab).
Qed.

Lemma calculateDiversity_order_blind_witness :
  Forall2 (λ a b, team a ≡ₚ team b) [sample_anchored; sample_parent2]
    [sample_lead_anchored; sample_parent2]
  ∧ (calculateDiversity [sample_anchored; sample_parent2]).1
    = (calculateDiversity [sample_lead_anchored; sample_parent2]).1.
Proof.
  assert (H : Forall2 (λ a b, team a ≡ₚ team b)
                [sample_anchored; sample_parent2]
                [sample_lead_anchored; sample_parent2]).
  { repeat constructor. simpl. symmetry.
    apply (Permutation_cons_append [Str "azumarill"; Str "medicham"]
             (Str "skarmory")). }
  split; [exact H |]. exact (calculateDiversity_order_blind _ _ H).
Defined.


(** ** Random chromosomes *)

Lemma for_each_rand_inv {S X : Type} (Inv : list X → S → Prop)
    (body : S → X → Rand S) (xs : list X) (s : S) g r g' :
  (∀ pre x post s h s' h',
     xs = pre ++ x :: post → Inv pre s → body s x h = Ok (s', h') →
     Inv (pre ++ [x]) s') →
  Inv [] s →
  for_each_rand body xs s g = Ok (r, g') → Inv xs r.
Proof.
  intros Hstep Hs Hrun.
  enough (Hgen : ∀ post pre s g,
             xs = pre ++ post → Inv pre s →
             for_each_rand body post s g = Ok (r, g') → Inv xs r)
    by exact (Hgen xs [] s g eq_refl Hs Hrun).
  clear s g Hs Hrun.
  induction post as [|x post IH]; intros pre s g Hxs Hs; simpl.
  - intros [= <- _]. by rewrite Hxs, app_nil_r.
  - intros (s1 & g1 & Hbody & Hrest)%Rand_bind_Ok.
    apply (IH (pre ++ [x]) s1 g1); [by rewrite <- app_assoc | | done].
    by eapply Hstep.
Qed.

Lemma seq_split_at (m k : nat) (pre post : list nat) (x : nat) :
  seq m k = pre ++ x :: post → x = m + length pre ∧ length pre < k.
Proof.
  intros Heq.
  assert (Hx : seq m k !! length pre = Some x).
  { rewrite Heq. by rewrite list_lookup_middle. }
  apply lookup_seq in Hx. lia.
Qed.

Lemma filter_all {A : Type} (P : A → Prop) `{!∀ x, Decision (P x)}
    (l : list A) :
  Forall P l → filter P l = l.
Proof.
  induction 1 as [|x l Hx _ IH]; [done |].
  by rewrite filter_cons_True, IH.
Qed.

Lemma filter_none {A : Type} (P : A → Prop) `{!∀ x, Decision (P x)}
    (l : list A) :
  Forall (λ x, ¬ P x) l → filter P l = [].
Proof.
  induction 1 as [|x l Hx _ IH]; [done |].
  by rewrite filter_cons_False.
Qed.

Lemma getMutableSlots_prefix slots (m n : nat) fit :
  m ≤ n →
  getMutableSlots {| team := slots; anchors := seq 0 m; fitness := fit |} n
  = seq m (n - m).
Proof.
  intros Hmn. unfold getMutableSlots, isAnchorSlot. cbn [anchors].
  replace n with (m + (n - m)) at 1 by lia. rewrite seq_app, filter_app.
  rewrite filter_none, filter_all; [done | |].
  - apply Forall_forall. intros i Hi%elem_of_seq.
    apply bool_decide_eq_false. rewrite elem_of_seq. lia.
  - apply Forall_forall. intros i Hi%elem_of_seq.
    rewrite bool_decide_eq_false. intros H. apply H, elem_of_seq. lia.
Qed.

Section RandomChromosomeFacts.
Context (ks : KnowledgeStore).
Context (types : Pokemon ks → list string) (baseStats : Pokemon ks → BaseStats).
Context (typeChart : gmap string (gmap string float)).

Lemma place_anchors_loop (n : nat) (a : list string) (k i : nat)
    (usedTypes : gmap string nat) :
  i + k ≤ length a → i + k ≤ n →
  ∃ usedTypes',
    for_each (λ '(team, anchors, usedBaseSpecies, usedTypes) i,
        match a !! i with
        | Some anchor =>
            Ok (array_set team i (Str anchor), anchors ++ [i],
                {[ getBaseSpecies anchor ]} ∪ usedBaseSpecies,
                track_types ks types usedTypes anchor)
        | None => Throw
        end)
      (seq i k)
      (Str <$> (take i a ++ replicate (n - i) EmptyString), seq 0 i,
       (list_to_set (getBaseSpecies <$> take i a) : gset string), usedTypes)
    = Ok (Str <$> (take (i + k) a ++ replicate (n - (i + k)) EmptyString),
          seq 0 (i + k),
          (list_to_set (getBaseSpecies <$> take (i + k) a) : gset string),
          usedTypes').
Proof.
  revert i usedTypes. induction k as [|k IH]; intros i usedTypes Hia Hin.
  - rewrite Nat.add_0_r. by eexists.
  - assert (Hi : i < length a) by lia.
    apply lookup_lt_is_Some_2 in Hi as [anchor Ha].
    cbn [seq for_each]. rewrite Ha. cbn [mbind outcome_bind].
    destruct (IH (Datatypes.S i) (track_types ks types usedTypes anchor))
      as (ut & Hrun); [lia | lia |].
    exists ut. replace (i + Datatypes.S k) with (Datatypes.S i + k) by lia.
    rewrite <- Hrun. f_equal.
    assert (Hlen : length (take i a) = i).
    { rewrite length_take. apply lookup_lt_Some in Ha. lia. }
    assert (Hteam : array_set (Str <$> take i a ++ replicate (n - i) EmptyString)
                      i (Str anchor)
                    = Str <$> take (Datatypes.S i) a
                              ++ replicate (n - Datatypes.S i) EmptyString).
    { unfold array_set. rewrite decide_True.
      2:{ rewrite length_fmap, length_app, length_replicate. lia. }
      rewrite <- list_fmap_insert. f_equal.
      rewrite insert_app_r_alt by lia. rewrite Hlen, Nat.sub_diag.
      rewrite (take_S_r _ _ _ Ha), <- app_assoc.
      by replace (n - i) with (Datatypes.S (n - Datatypes.S i)) by lia. }
    assert (Hused : {[getBaseSpecies anchor]}
                    ∪ list_to_set (getBaseSpecies <$> take i a)
                    = (list_to_set (getBaseSpecies <$> take (Datatypes.S i) a)
                       : gset string)).
    { rewrite (take_S_r _ _ _ Ha), fmap_app, list_to_set_app_L.
      rewrite fmap_cons, fmap_nil, list_to_set_cons, list_to_set_nil.
      by rewrite union_empty_r_L, (comm_L (∪)). }
    by rewrite Hteam, Hused, seq_S.
Qed.

(** The anchors go to the first slots, in order. *)
Lemma place_anchors_run (n : nat) (a : list string) :
  ∃ usedTypes,
    place_anchors ks types n a (replicate n (Str EmptyString))
    = Ok (Str <$> (take n a ++ replicate (n - length (take n a)) EmptyString),
          seq 0 (length (take n a)),
          (list_to_set (getBaseSpecies <$> take n a) : gset string),
          usedTypes).
Proof.
  unfold place_anchors.
  assert (Hm : length (take n a) = min (length a) n)
    by (rewrite length_take; lia).
  assert (Htake : take n a = take (min (length a) n) a).
  { destruct (decide (length a ≤ n)).
    - rewrite !take_ge; [done | lia | lia].
    - by replace (min (length a) n) with n by lia. }
  rewrite Hm, Htake.
  destruct (place_anchors_loop n a (min (length a) n) 0 ∅) as (ut & Hrun);
    [lia | lia |].
  exists ut. rewrite !Nat.add_0_l in Hrun. rewrite <- Hrun.
  rewrite take_0, Nat.sub_0_r. simpl. by rewrite fmap_replicate.
Qed.

Ltac rand_inv H :=
  unfold mret, Rand_ret in H; simplify_eq.

(** The candidate loop selects nothing or a species of the pool whose base
    species is not used. *)
Lemma candidate_loop_choice pool used ut slots slot xs st g st' g' :
  for_each_rand
    (candidate_round ks types baseStats typeChart pool used ut slots slot)
    xs st g = Ok (st', g') →
  (∀ s, st.1.2 = Some s → s ∈ pool ∧ getBaseSpecies s ∉ used) →
  ∀ s, st'.1.2 = Some s → s ∈ pool ∧ getBaseSpecies s ∉ used.
Proof.
  revert st g. induction xs as [|x xs IH]; intros st g; simpl.
  - intros H. by rand_inv H.
  - intros (st1 & g1 & Hbody & Hrest)%Rand_bind_Ok Hst.
    apply (IH st1 g1 Hrest). clear IH Hrest.
    destruct st as [[attempts selected] best]. unfold candidate_round in Hbody.
    destruct (negb (attempts <? 100)); [by rand_inv Hbody |].
    apply Rand_bind_Ok in Hbody as (candidate & h & Hpick & Hbody).
    destruct candidate as [c|]; [| done].
    destruct (decide (getBaseSpecies c ∈ used)); [by rand_inv Hbody |].
    destruct (getPokemonBySpeciesId ks c); [| by rand_inv Hbody].
    destruct (Z.ltb best _); [| by rand_inv Hbody].
    rand_inv Hbody. intros s [= <-]. split; [| done].
    by eapply pick_Ok.
Qed.

Lemma fallback_selection_choice pool used left g s g' :
  fallback_selection pool used left g = Ok (s, g') →
  s ∈ pool ∧ getBaseSpecies s ∉ used.
Proof.
  revert g. induction left as [|left IH]; intros g; simpl;
    intros (selected & h & Hpick & Hrest)%Rand_bind_Ok; [done |].
  destruct selected as [c|]; [| done].
  destruct (decide (getBaseSpecies c ∈ used)); [by eapply IH |].
  rand_inv Hrest. split; [by eapply pick_Ok | done].
Qed.

Lemma fill_slot_Ok pool slots used ut slot g slots' used' ut' g' :
  fill_slot ks types baseStats typeChart pool (slots, used, ut) slot g
  = Ok ((slots', used', ut'), g') →
  ∃ s, s ∈ pool ∧ (getBaseSpecies s ∉ used)
       ∧ slots' = array_set slots slot (Str s)
       ∧ used' = {[ getBaseSpecies s ]} ∪ used.
Proof.
  unfold fill_slot.
  intros ([[attempts selected] best] & g1 & Hloop
          & (s & g2 & Hsel & Hret)%Rand_bind_Ok)%Rand_bind_Ok.
  rand_inv Hret. exists s.
  enough (s ∈ pool ∧ getBaseSpecies s ∉ used) as [? ?] by done.
  pose proof (candidate_loop_choice _ _ _ _ _ _ _ _ _ _ Hloop) as Hchoice.
  cbn [fst snd] in Hchoice.
  destruct selected as [c|]; [| by eapply fallback_selection_choice].
  destruct (String.eqb c ""); [by eapply fallback_selection_choice |].
  rand_inv Hsel. by apply Hchoice.
Qed.

(** The loop over the mutable slots, started after [placed] anchors. *)
Lemma fill_slots_Ok pool (n : nat) (placed : list string) ut g slots' used' ut' g' :
  length placed ≤ n →
  for_each_rand (fill_slot ks types baseStats typeChart pool)
    (seq (length placed) (n - length placed))
    (Str <$> placed ++ replicate (n - length placed) EmptyString,
     list_to_set (getBaseSpecies <$> placed), ut) g
  = Ok ((slots', used', ut'), g') →
  ∃ filled,
    slots' = Str <$> placed ++ filled
    ∧ length (placed ++ filled) = n
    ∧ Forall (λ s, s ∈ pool) filled
    ∧ NoDup (getBaseSpecies <$> filled)
    ∧ ∀ s, s ∈ filled → getBaseSpecies s ∉ getBaseSpecies <$> placed.
Proof.
  intros Hn Hrun. set (m := length placed) in *.
  pose (Inv := λ (pre : list nat) (st : list cell * gset string * gmap string nat),
    ∃ filled,
      length filled = length pre
      ∧ st.1.1 = Str <$> placed ++ filled
                         ++ replicate (n - m - length filled) EmptyString
      ∧ st.1.2 = list_to_set (getBaseSpecies <$> placed ++ filled)
      ∧ Forall (λ s, s ∈ pool) filled
      ∧ NoDup (getBaseSpecies <$> filled)
      ∧ ∀ s, s ∈ filled → getBaseSpecies s ∉ getBaseSpecies <$> placed).
  assert (Hfinal : Inv (seq m (n - m)) (slots', used', ut')).
  { eapply (for_each_rand_inv Inv); [| | exact Hrun].
    - intros pre x post [[slots used] ut0] h [[slots1 used1] ut1] h1 Hsplit
        (filled & Hlen & Hslots & Hused & Hpool & Hnd & Hfresh) Hbody.
      cbn [fst snd] in Hslots, Hused. subst slots used.
      apply seq_split_at in Hsplit as [-> Hpre].
      apply fill_slot_Ok in Hbody as (s & Hs & Hbase & -> & ->).
      exists (filled ++ [s]). cbn [fst snd].
      rewrite !length_app, Hlen. cbn [length].
      split; [done |]. split; [| split; [| split; [| split]]].
      + unfold array_set. rewrite decide_True.
        2:{ rewrite length_fmap, !length_app, length_replicate. unfold m. lia. }
        rewrite <- list_fmap_insert. f_equal.
        rewrite insert_app_r_alt by (unfold m; lia).
        replace (m + length pre - length placed) with (length filled)
          by (unfold m; lia).
        rewrite insert_app_r_alt by lia. rewrite Nat.sub_diag.
        replace (n - m - length pre)
          with (Datatypes.S (n - m - (length pre + 1))) by lia.
        by rewrite <- !app_assoc.
      + rewrite app_assoc, !fmap_app, !list_to_set_app_L.
        rewrite fmap_cons, fmap_nil, list_to_set_cons, list_to_set_nil.
        rewrite union_empty_r_L. apply (comm_L (∪)).
      + apply Forall_app. split; [done | by constructor].
      + rewrite fmap_app. apply NoDup_app. split; [done |]. split.
        * intros b Hb ->%list_elem_of_singleton. apply Hbase.
          rewrite elem_of_list_to_set, fmap_app, elem_of_app. by right.
        * apply NoDup_singleton.
      + intros s' [Hs' | ->%list_elem_of_singleton]%elem_of_app; [by apply Hfresh |].
        intros Hin. apply Hbase.
        rewrite elem_of_list_to_set, fmap_app, elem_of_app. by left.
    - exists []. cbn [fst snd length]. rewrite Nat.sub_0_r, app_nil_r.
      simpl. repeat split; [constructor | constructor |].
      by intros s ?%elem_of_nil. }
  destruct Hfinal as (filled & Hlen & Hslots & _ & Hpool & Hnd & Hfresh).
  cbn [fst snd] in Hslots. rewrite length_seq in Hlen.
  exists filled. rewrite Hlen, Nat.sub_diag in Hslots. simpl in Hslots.
  rewrite app_nil_r in Hslots. rewrite length_app.
  split; [done |]. split; [unfold m in Hlen; lia | done].
Qed.

Lemma createRandomChromosome_Ok pool (n : nat) anchorPokemon g c g' :
  createRandomChromosome ks types baseStats typeChart pool n anchorPokemon g
  = Ok (c, g') →
  BuiltFrom pool n anchorPokemon c.
Proof.
  unfold createRandomChromosome, BuiltFrom. cbn zeta.
  set (placed := take n (default [] anchorPokemon)).
  destruct (place_anchors_run n (default [] anchorPokemon)) as (ut & Hplace).
  fold placed in Hplace.
  rewrite (Rand_bind_run _ _ _ _ _ (lift_run _ _ g Hplace)).
  assert (Hlen : length placed ≤ n) by (unfold placed; rewrite length_take; lia).
  rewrite getMutableSlots_prefix by done.
  intros ([[slots' used'] ut'] & g1 & Hloop & Hret)%Rand_bind_Ok.
  rand_inv Hret. cbn [team anchors fitness].
  apply fill_slots_Ok in Hloop as (filled & Hslots & ? & ? & ? & ?); [| done].
  by exists filled.
Qed.

Lemma Rand_bind_Throw {A B : Type} (m : Rand A) (f : A → Rand B) g :
  m g = Throw → (m ≫= f) g = Throw.
Proof. intros Hm. unfold mbind, Rand_bind. by rewrite Hm. Qed.

Lemma candidate_loop_none pool used ut slots slot xs attempts best g :
  (∀ s, s ∈ pool → getBaseSpecies s ∈ used) →
  for_each_rand
    (candidate_round ks types baseStats typeChart pool used ut slots slot)
    xs (attempts, None, best) g = Throw
  ∨ ∃ attempts' h,
      for_each_rand
        (candidate_round ks types baseStats typeChart pool used ut slots slot)
        xs (attempts, None, best) g = Ok ((attempts', None, best), h).
Proof.
  intros Hused. revert attempts g.
  induction xs as [|x xs IH]; intros attempts g; [right; by eexists _, _ |].
  cbn [for_each_rand].
  assert (Hbody :
    candidate_round ks types baseStats typeChart pool used ut slots slot
      (attempts, None, best) x g = Throw
    ∨ ∃ attempts' h,
        candidate_round ks types baseStats typeChart pool used ut slots slot
          (attempts, None, best) x g = Ok ((attempts', None, best), h)).
  { unfold candidate_round.
    destruct (negb (attempts <? 100)); [right; by eexists _, _ |].
    rewrite (Rand_bind_run _ _ _ _ _ (pick_run pool g)).
    destruct (pool !! _) as [c|] eqn:Hc; [| by left].
    rewrite decide_True; [right; by eexists _, _ |].
    by eapply Hused, list_elem_of_lookup_2. }
  destruct Hbody as [Hthrow | (attempts' & h & Hok)].
  - left. by apply Rand_bind_Throw.
  - rewrite (Rand_bind_run _ _ _ _ _ Hok). apply IH.
Qed.

Lemma fallback_selection_none pool used left g :
  (∀ s, s ∈ pool → getBaseSpecies s ∈ used) →
  fallback_selection pool used left g = Throw.
Proof.
  intros Hused. revert g. induction left as [|left IH]; intros g; simpl;
    rewrite (Rand_bind_run _ _ _ _ _ (pick_run pool g)); [done |].
  destruct (pool !! _) as [c|] eqn:Hc; [| done].
  rewrite decide_True; [apply IH |].
  by eapply Hused, list_elem_of_lookup_2.
Qed.

Lemma createRandomChromosome_none_left pool (n : nat) anchorPokemon g :
  let placed := take n (default [] anchorPokemon) in
  length placed < n →
  (∀ s, s ∈ pool → getBaseSpecies s ∈ getBaseSpecies <$> placed) →
  createRandomChromosome ks types baseStats typeChart pool n anchorPokemon g
  = Throw.
Proof.
  intros placed Hlen Hused. unfold createRandomChromosome.
  destruct (place_anchors_run n (default [] anchorPokemon)) as (ut & Hplace).
  fold placed in Hplace.
  rewrite (Rand_bind_run _ _ _ _ _ (lift_run _ _ g Hplace)).
  rewrite getMutableSlots_prefix by lia.
  apply Rand_bind_Throw.
  replace (n - length placed) with (Datatypes.S (n - length placed - 1)) by lia.
  cbn [seq for_each_rand]. apply Rand_bind_Throw. unfold fill_slot.
  set (used := list_to_set (getBaseSpecies <$> placed) : gset string).
  assert (Hused' : ∀ s, s ∈ pool → getBaseSpecies s ∈ used).
  { intros s Hs. apply elem_of_list_to_set. by apply Hused. }
  match goal with
  | |- (for_each_rand (candidate_round _ _ _ _ _ _ _ ?slots ?slot) ?xs _
        ≫= _) g = _ =>
      destruct (candidate_loop_none pool used ut slots slot xs 0 (-1)%Z g
                  Hused')
        as [Hthrow | (attempts' & h & Hok)]
  end.
  - by apply Rand_bind_Throw.
  - rewrite (Rand_bind_run _ _ _ _ _ Hok). apply Rand_bind_Throw.
    by apply fallback_selection_none.
Qed.

Lemma initializePopulation_Ok (populationSize : nat) pool (n : nat)
    anchorPokemon g population g' :
  initializePopulation ks types baseStats typeChart populationSize pool n
    anchorPokemon g = Ok (population, g') →
  length population = populationSize
  ∧ Forall (BuiltFrom pool n anchorPokemon) population.
Proof.
  unfold initializePopulation. intros Hrun.
  pose (Inv := λ (pre : list nat) (population : list Chromosome),
    length population = length pre
    ∧ Forall (BuiltFrom pool n anchorPokemon) population).
  assert (Hfinal : Inv (seq 0 populationSize) population).
  { eapply (for_each_rand_inv Inv); [| | exact Hrun].
    - intros pre x post s h s' h' _ [Hlen Hall]
        (c & h1 & Hc & Hret)%Rand_bind_Ok.
      rand_inv Hret. split; [rewrite !length_app; simpl; lia |].
      apply Forall_app. split; [done |].
      constructor; [by eapply createRandomChromosome_Ok | constructor].
    - by split. }
  destruct Hfinal as [Hlen Hall]. by rewrite length_seq in Hlen.
Qed.

End RandomChromosomeFacts.

Lemma BuiltFrom_valid pool (n : nat) anchorPokemon mode c :
  BuiltFrom pool n anchorPokemon c →
  n = teamSize mode →
  NoDup (getBaseSpecies <$> take n (default [] anchorPokemon)) →
  ValidFor mode c.
Proof.
  intros (filled & Hteam & Hlen & _ & _ & _ & Hnd & Hfresh) -> Hplaced.
  exists (take (teamSize mode) (default [] anchorPokemon) ++ filled).
  split; [done |]. split; [done |].
  rewrite fmap_app. apply NoDup_app. split; [done |]. split; [| done].
  intros b Hb (s & -> & Hs)%list_elem_of_fmap. by apply (Hfresh s).
Qed.

(** X12: a chromosome that [createRandomChromosome] returns has the
    requested number of slots; the first anchors sit in the first slots, in
    order, and those slots are its anchors list; its fitness is 0; every
    other slot holds a species of the pool; the base species of the filled
    slots are pairwise different and differ from the anchors' base species.
    So when the anchors are of pairwise different base species and the size
    is the mode's team size, the chromosome is valid for the mode. *)
Theorem createRandomChromosome_result (ks : KnowledgeStore)
    (types : Pokemon ks → list string) (baseStats : Pokemon ks → BaseStats)
    (typeChart : gmap string (gmap string float))
    (pokemonPool : list string) (size : nat)
    (anchorPokemon : option (list string)) (g : Rng)
    (c : Chromosome) (g' : Rng) :
  createRandomChromosome ks types baseStats typeChart pokemonPool size
    anchorPokemon g = Ok (c, g') →
  BuiltFrom pokemonPool size anchorPokemon c
  ∧ length (team c) = size
  ∧ (∀ i a, default [] anchorPokemon !! i = Some a → i < size →
            isAnchorSlot i c = true ∧ array_get (team c) i = Str a)
  ∧ ∀ mode, size = teamSize mode →
      NoDup (getBaseSpecies <$> take size (default [] anchorPokemon)) →
      ValidFor mode c ∧ isValidChromosome c mode = Ok true.
Proof.
  intros Hbuilt%createRandomChromosome_Ok. split; [exact Hbuilt |].
  pose proof Hbuilt as (filled & Hteam & Hlen & Hanchors & _).
  split; [by rewrite Hteam, length_fmap |]. split.
  - intros i a Ha Hi.
    assert (Hplaced : take size (default [] anchorPokemon) !! i = Some a)
      by (by rewrite lookup_take_lt).
    split.
    + unfold isAnchorSlot. rewrite Hanchors. apply bool_decide_eq_true.
      apply elem_of_seq. apply lookup_lt_Some in Hplaced. lia.
    + rewrite Hteam, array_get_dense.
      by rewrite (lookup_app_l_Some _ _ _ _ Hplaced).
  - intros mode Hsize Hnd.
    assert (Hvalid : ValidFor mode c) by (by eapply BuiltFrom_valid).
    split; [done | by apply ValidFor_isValidChromosome].
Qed.

Lemma createRandomChromosome_result_witness :
  ∃ c g',
    createRandomChromosome sample_store fst snd sample_chart sample_pool 3
      (Some ["azumarill"]) alternating_source = Ok (c, g')
    ∧ BuiltFrom sample_pool 3 (Some ["azumarill"]) c
    ∧ team c = [Str "azumarill"; Str "altaria"; Str "lanturn"].
Proof.
  destruct (createRandomChromosome sample_store fst snd sample_chart
              sample_pool 3 (Some ["azumarill"]) alternating_source)
    as [[c g']| |] eqn:Hrun; [| by vm_compute in Hrun..].
  exists c, g'. split; [done |].
  split; [exact (proj1 (createRandomChromosome_result _ _ _ _ _ _ _ _ _ _ Hrun)) |].
  vm_compute in Hrun. by injection Hrun as <- _.
Defined.

(** X13: when a slot is left to fill and every species of the pool (if any)
    has the base species of one of the placed anchors, [createRandomChromosome]
    raises an error: the candidate loop selects nothing, and the fallback
    either reads [undefined] from the empty pool or gives up after its 1000
    attempts. *)
Theorem createRandomChromosome_pool_exhausted (ks : KnowledgeStore)
    (types : Pokemon ks → list string) (baseStats : Pokemon ks → BaseStats)
    (typeChart : gmap string (gmap string float))
    (pokemonPool : list string) (size : nat)
    (anchorPokemon : option (list string)) (g : Rng) :
  length (take size (default [] anchorPokemon)) < size →
  (∀ s, s ∈ pokemonPool →
        getBaseSpecies s
        ∈ getBaseSpecies <$> take size (default [] anchorPokemon)) →
  createRandomChromosome ks types baseStats typeChart pokemonPool size
    anchorPokemon g = Throw.
Proof. apply createRandomChromosome_none_left. Qed.

Lemma createRandomChromosome_pool_exhausted_witness :
  createRandomChromosome sample_store fst snd sample_chart
    ["azumarill_shadow"] 3 (Some ["azumarill"]) alternating_source = Throw
  ∧ createRandomChromosome sample_store fst snd sample_chart
      [] 3 None alternating_source = Throw.
Proof.
  split.
  - apply createRandomChromosome_pool_exhausted; [simpl; lia |].
    intros s ->%list_elem_of_singleton. simpl. apply list_elem_of_singleton.
    reflexivity.
  - apply createRandomChromosome_pool_exhausted; [simpl; lia |].
    by intros s ?%elem_of_nil.
Defined.

(** X14: a population that [initializePopulation] returns has the requested
    number of chromosomes, each built as [createRandomChromosome] builds it;
    so all of them share the anchors list and the anchored entries, and when
    the anchors are of pairwise different base species and the size is the
    mode's team size, every chromosome is valid for the mode. *)
Theorem initializePopulation_result (ks : KnowledgeStore)
    (types : Pokemon ks → list string) (baseStats : Pokemon ks → BaseStats)
    (typeChart : gmap string (gmap string float))
    (populationSize : nat) (pokemonPool : list string) (size : nat)
    (anchorPokemon : option (list string)) (g : Rng)
    (population : list Chromosome) (g' : Rng) :
  initializePopulation ks types baseStats typeChart populationSize pokemonPool
    size anchorPokemon g = Ok (population, g') →
  length population = populationSize
  ∧ Forall (BuiltFrom pokemonPool size anchorPokemon) population
  ∧ Forall (λ c,
        anchors c = seq 0 (length (take size (default [] anchorPokemon)))
        ∧ ∀ i a, default [] anchorPokemon !! i = Some a → i < size →
                 array_get (team c) i = Str a)
      population
  ∧ ∀ mode, size = teamSize mode →
      NoDup (getBaseSpecies <$> take size (default [] anchorPokemon)) →
      Forall (ValidFor mode) population.
Proof.
  intros [Hlen Hall]%initializePopulation_Ok.
  split; [done |]. split; [done |]. split.
  - eapply Forall_impl; [exact Hall |].
    intros c (filled & Hteam & _ & Hanchors & _). split; [done |].
    intros i a Ha Hi.
    assert (Hplaced : take size (default [] anchorPokemon) !! i = Some a)
      by (by rewrite lookup_take_lt).
    rewrite Hteam, array_get_dense.
    by rewrite (lookup_app_l_Some _ _ _ _ Hplaced).
  - intros mode Hsize Hnd. eapply Forall_impl; [exact Hall |].
    intros c Hc. by eapply BuiltFrom_valid.
Qed.

Lemma initializePopulation_result_witness :
  ∃ population g',
    initializePopulation sample_store fst snd sample_chart 2 sample_pool 3
      (Some ["azumarill"]) alternating_source = Ok (population, g')
    ∧ length population = 2
    ∧ Forall (BuiltFrom sample_pool 3 (Some ["azumarill"])) population.
Proof.
  destruct (initializePopulation sample_store fst snd sample_chart 2
              sample_pool 3 (Some ["azumarill"]) alternating_source)
    as [[population g']| |] eqn:Hrun; [| by vm_compute in Hrun..].
  exists population, g'. split; [done |].
  pose proof (initializePopulation_result _ _ _ _ _ _ _ _ _ _ _ Hrun)
    as (Hlen & Hall & _).
  by split.
Defined.

(** ** Base species *)

Lemma getBaseSpecies_no_underscore (b : string) :
  "_"%char ∉ list_ascii_of_string b → getBaseSpecies b = b.
Proof.
  induction b as [|c b IH]; [done |]. simpl. intros Hc.
  apply not_elem_of_cons in Hc as [Hc Hb].
  destruct (Ascii.eqb_spec c "_"); [congruence |]. by rewrite IH.
Qed.

Lemma getBaseSpecies_segment (b suffix : string) :
  "_"%char ∉ list_ascii_of_string b →
  getBaseSpecies (b ++ String "_" suffix) = b.
Proof.
  induction b as [|c b IH]; [done |]. simpl. intros Hc.
  apply not_elem_of_cons in Hc as [Hc Hb].
  destruct (Ascii.eqb_spec c "_"); [congruence |]. by rewrite IH.
Qed.

Lemma getBaseSpecies_clean (s : string) :
  "_"%char ∉ list_ascii_of_string (getBaseSpecies s).
Proof.
  induction s as [|c s IH]; simpl; [apply not_elem_of_nil |].
  destruct (Ascii.eqb_spec c "_"); simpl; [apply not_elem_of_nil |].
  apply not_elem_of_cons. split; [congruence | done].
Qed.

(** X15: [getBaseSpecies] returns the part of the id before its first
    underscore: the result contains no underscore, the id is the result
    alone or the result followed by an underscore and a suffix, and an id
    made of an underscore-free name, an underscore and any suffix (a form,
    [shadow], several of them) has that name as its base species. *)
Theorem getBaseSpecies_first_segment (speciesId : string) :
  ("_"%char ∉ list_ascii_of_string (getBaseSpecies speciesId))
  ∧ (speciesId = getBaseSpecies speciesId
     ∨ ∃ suffix,
         speciesId = (getBaseSpecies speciesId ++ String "_" suffix)%string)
  ∧ getBaseSpecies (getBaseSpecies speciesId) = getBaseSpecies speciesId
  ∧ ∀ name suffix,
      "_"%char ∉ list_ascii_of_string name →
      getBaseSpecies name = name
      ∧ getBaseSpecies (name ++ String "_" suffix) = name
      ∧ isSameBaseSpecies name (name ++ String "_" suffix) = true.
Proof.
  split; [apply getBaseSpecies_clean |]. split; [| split].
  - induction speciesId as [|c s IH]; [by left |]. simpl.
    destruct (Ascii.eqb_spec c "_") as [-> |]; [right; by exists s |].
    destruct IH as [IH | [suffix IH]]; [left | right; exists suffix].
    + by rewrite <- IH.
    + change (String c s
              = String c (getBaseSpecies s ++ String "_" suffix)%string).
      by rewrite <- IH.
  - apply getBaseSpecies_no_underscore, getBaseSpecies_clean.
  - intros name suffix Hname.
    split; [by apply getBaseSpecies_no_underscore |].
    split; [by apply getBaseSpecies_segment |].
    unfold isSameBaseSpecies.
    rewrite getBaseSpecies_no_underscore, getBaseSpecies_segment by done.
    apply String.eqb_refl.
Qed.

Lemma NoDup_fmap_lookup {A B : Type} (f : A → B) (l : list A) :
  NoDup (f <$> l)
  ↔ ∀ i j x y, l !! i = Some x → l !! j = Some y → f x = f y → i = j.
Proof.
  rewrite NoDup_alt. split.
  - intros Hnd i j x y Hi Hj Hxy. apply (Hnd i j (f x)).
    + by rewrite list_lookup_fmap, Hi.
    + by rewrite list_lookup_fmap, Hj, Hxy.
  - intros Hl i j b Hi Hj. rewrite list_lookup_fmap in Hi, Hj.
    destruct (l !! i) as [x|] eqn:Hx; [| done].
    destruct (l !! j) as [y|] eqn:Hy; [| done].
    simpl in Hi, Hj. apply (Hl i j x y); congruence.
Qed.

Lemma map_bases_undefined (slots : list cell) :
  Undefined ∈ slots → map_bases slots = Throw.
Proof.
  induction slots as [|v slots IH]; [by intros ?%elem_of_nil |].
  intros [<- | Hin]%elem_of_cons; [done |]. specialize (IH Hin).
  destruct v; simpl; by rewrite ?IH.
Qed.

(** X16: on an array of species ids [validateTeamUniqueness] returns, and
    it returns true exactly when no two different slots hold ids of the same
    base species; on an array with an [undefined] entry it raises a
    TypeError. *)
Theorem validateTeamUniqueness_pairwise (ss : list string) :
  (∃ unique,
     validateTeamUniqueness (Str <$> ss) = Ok unique
     ∧ (unique = true
        ↔ ∀ i j s1 s2, ss !! i = Some s1 → ss !! j = Some s2 →
                       isSameBaseSpecies s1 s2 = true → i = j))
  ∧ ∀ slots, Undefined ∈ slots → validateTeamUniqueness slots = Throw.
Proof.
  split.
  - eexists. split; [apply validate_dense |].
    rewrite bool_decide_eq_true, NoDup_fmap_lookup.
    unfold isSameBaseSpecies. split; intros H i j s1 s2 Hi Hj Heq;
      apply (H i j s1 s2 Hi Hj); by apply String.eqb_eq.
  - intros slots Hin. unfold validateTeamUniqueness.
    by rewrite map_bases_undefined.
Qed.

Lemma prefix_refl (s : string) : String.prefix s s = true.
Proof.
  induction s as [|c s IH]; [done |]. simpl.
  by destruct (ascii_dec c c).
Qed.

Lemma includes_suffix (needle b : string) :
  includes needle (b ++ needle) = true.
Proof.
  induction b as [|c b IH].
  - change (includes needle needle = true).
    destruct needle as [|c needle]; [done |].
    cbn [includes]. by rewrite prefix_refl.
  - change (includes needle (String c (b ++ needle)) = true).
    cbn [includes]. rewrite IH. apply orb_true_r.
Qed.

Lemma isShadow_no_underscore (b : string) :
  "_"%char ∉ list_ascii_of_string b → isShadow b = false.
Proof.
  unfold isShadow. induction b as [|c b IH]; [done |]. intros Hc.
  apply not_elem_of_cons in Hc as [Hc Hb]. cbn [includes String.prefix].
  rewrite IH by done.
  destruct (ascii_dec "_" c); [congruence | done].
Qed.

(** X17: a team that holds a species (an id without underscore) together
    with its shadow or any other suffixed variant is rejected:
    [validateTeamUniqueness] returns false and [isValidChromosome] returns
    false in both modes.  The [_shadow] variant is a shadow by [isShadow],
    the plain id is not. *)
Theorem variant_with_base_rejected (ss : list string) (name suffix : string) :
  "_"%char ∉ list_ascii_of_string name →
  name ∈ ss → (name ++ String "_" suffix)%string ∈ ss →
  validateTeamUniqueness (Str <$> ss) = Ok false
  ∧ (∀ c mode, team c = Str <$> ss → isValidChromosome c mode = Ok false)
  ∧ isShadow (name ++ "_shadow") = true
  ∧ isShadow name = false.
Proof.
  intros Hname [i Hi]%list_elem_of_lookup_1 [j Hj]%list_elem_of_lookup_1.
  assert (Hdup : ¬ NoDup (getBaseSpecies <$> ss)).
  { rewrite NoDup_fmap_lookup. intros Hnd.
    assert (Hij : i = j).
    { apply (Hnd i j _ _ Hi Hj).
      by rewrite getBaseSpecies_segment, getBaseSpecies_no_underscore. }
    subst j. rewrite Hi in Hj. injection Hj as Heq. clear -Heq.
    induction name as [|c name IH]; [done |]. injection Heq as Heq. auto. }
  assert (Hcheck : validateTeamUniqueness (Str <$> ss) = Ok false).
  { rewrite validate_dense. by rewrite bool_decide_eq_false_2. }
  split; [done |]. split; [| split].
  - intros c mode Hc. unfold isValidChromosome. rewrite Hc, Hcheck.
    by destruct (negb _).
  - apply (includes_suffix "_shadow").
  - by apply isShadow_no_underscore.
Qed.

Lemma variant_with_base_rejected_witness :
  validateTeamUniqueness
    (Str <$> ["registeel"; "azumarill_shadow"; "azumarill"]) = Ok false
  ∧ isShadow "azumarill_shadow" = true.
Proof.
  assert (Hname : "_"%char ∉ list_ascii_of_string "azumarill").
  { by apply (bool_decide_unpack _). }
  pose proof (variant_with_base_rejected
                ["registeel"; "azumarill_shadow"; "azumarill"]
                "azumarill" "shadow" Hname) as H.
  destruct H as (Hcheck & _ & Hshadow & _).
  - do 2 apply list_elem_of_further. apply list_elem_of_here.
  - apply list_elem_of_further, list_elem_of_here.
  - by split.
Defined.

(** ** Moves *)

Lemma Qceiling_div_least (e g : Z) :
  (0 < g)%Z →
  let n := Qceiling (inject_Z e / inject_Z g) in
  (e <= n * g)%Z ∧ ((n - 1) * g < e)%Z.
Proof.
  intros Hg n.
  assert (Hgq : (0 < inject_Z g)%Q) by (unfold Qlt; simpl; lia).
  assert (Hx : (inject_Z g * (inject_Z e / inject_Z g) == inject_Z e)%Q).
  { apply Qmult_div_r. lra. }
  pose proof (Qle_ceiling (inject_Z e / inject_Z g)) as Hup.
  pose proof (Qceiling_lt (inject_Z e / inject_Z g)) as Hlow.
  fold n in Hup, Hlow. split.
  - rewrite Zle_Qle. rewrite inject_Z_mult, <- Hx.
    rewrite (Qmult_comm (inject_Z n)). apply Qmult_le_l; done.
  - rewrite Zlt_Qlt. rewrite inject_Z_mult, <- Hx.
    rewrite (Qmult_comm (inject_Z (n - 1))). apply Qmult_lt_l; done.
Qed.



(** X18: for a known fast move that gains energy and a known charged move
    that costs energy, [calculateTurnsToCharge] is the least number of fast
    moves whose energy gain reaches the cost: that many reach it, one fewer
    does not.  It is at least 1. *)
Theorem calculateTurnsToCharge_least (movesByMoveId : gmap string Moves.Move)
    (fastMoveId chargedMoveId : string) (fastMove chargedMove : Moves.Move) :
  movesByMoveId !! fastMoveId = Some fastMove →
  movesByMoveId !! chargedMoveId = Some chargedMove →
  (0 < Moves.energyGain fastMove)%Z → (0 < Moves.energy chargedMove)%Z →
  let n := Moves.calculateTurnsToCharge movesByMoveId fastMoveId chargedMoveId in
  (Moves.energy chargedMove <= n * Moves.energyGain fastMove)%Z
  ∧ ((n - 1) * Moves.energyGain fastMove < Moves.energy chargedMove)%Z
  ∧ (1 <= n)%Z.
Proof.
  intros Hf Hc Hgain Hcost. unfold Moves.calculateTurnsToCharge,
    Moves.getMoveByMoveId. rewrite Hf, Hc.
  rewrite (proj2 (Z.eqb_neq _ 0)), (proj2 (Z.eqb_neq _ 0)) by lia.
  cbn [orb]. cbn zeta.
  destruct (Qceiling_div_least (Moves.energy chargedMove)
              (Moves.energyGain fastMove) Hgain) as [Hup Hlow].
  split; [done |]. split; [done | nia].
Qed.

Lemma calculateTurnsToCharge_least_witness :
  (40 <= Moves.calculateTurnsToCharge sample_moves "counter" "ice_punch" * 7)%Z
  ∧ Moves.calculateTurnsToCharge sample_moves "counter" "ice_punch" = 6%Z.
Proof.
  pose proof (calculateTurnsToCharge_least sample_moves "counter" "ice_punch"
                _ _ eq_refl eq_refl) as H.
  cbn zeta in H. destruct H as (Hup & _ & _); [done | done |].
  split; [exact Hup | reflexivity].
Defined.



(** X20: when the fast move or the charged move is not in the data, the
    turns, the time and the pressure score are all 0. *)
Theorem charge_of_unknown_move (movesByMoveId : gmap string Moves.Move)
    (fastMoveId chargedMoveId : string) :
  movesByMoveId !! fastMoveId = None ∨ movesByMoveId !! chargedMoveId = None →
  Moves.calculateTurnsToCharge movesByMoveId fastMoveId chargedMoveId = 0%Z
  ∧ (Moves.calculateTimeToCharge movesByMoveId fastMoveId chargedMoveId == 0)%Q
  ∧ Moves.calculatePressureScore movesByMoveId fastMoveId chargedMoveId = 0%Q.
Proof.
  intros Hmissing.
  assert (Hturns : Moves.calculateTurnsToCharge movesByMoveId fastMoveId
                     chargedMoveId = 0%Z).
  { unfold Moves.calculateTurnsToCharge, Moves.getMoveByMoveId.
    destruct Hmissing as [-> | ->]; [done |].
    by destruct (movesByMoveId !! fastMoveId). }
  assert (Htime : (Moves.calculateTimeToCharge movesByMoveId fastMoveId
                     chargedMoveId == 0)%Q).
  { unfold Moves.calculateTimeToCharge. rewrite Hturns.
    destruct (Moves.getMoveByMoveId _ _) as [m|]; [| done].
    destruct (Moves.turns m) as [t|]; [| done].
    destruct (t =? 0)%Z; [done | ring]. }
  split; [done |]. split; [done |].
  unfold Moves.calculatePressureScore. cbn zeta.
  by rewrite (Qeq_eq_bool _ _ Htime).
Qed.

Lemma charge_of_unknown_move_witness :
  Moves.calculateTurnsToCharge sample_moves "counter" "surf" = 0%Z
  ∧ Moves.calculatePressureScore sample_moves "counter" "surf" = 0%Q.
Proof.
  destruct (charge_of_unknown_move sample_moves "counter" "surf")
    as (Hturns & _ & Hscore); [by right | by split].
Defined.

(** X21: the synergy of two charged moves does not depend on their order;
    the score is one of 0, 0.5, 1, 1.5, 2.5 and 3.5 (a spam and a nuke are of
    different categories, so 2 and 3 do not occur); it is at least 2.5
    exactly for a spam+nuke pair; and it is 0 with both flags false when a
    move is not in the data. *)
Theorem evaluateMoveSynergy_scores (movesByMoveId : gmap string Moves.Move)
    (chargedMove1 chargedMove2 : string) :
  let result := Moves.evaluateMoveSynergy movesByMoveId chargedMove1 chargedMove2 in
  Moves.evaluateMoveSynergy movesByMoveId chargedMove2 chargedMove1 = result
  ∧ Exists (λ score, (Moves.synergyScore result == score)%Q)
      [0; 5 # 10; 1; 15 # 10; 25 # 10; 35 # 10]%Q
  ∧ (Moves.hasSpamNuke result = true
     ↔ (25 # 10 <= Moves.synergyScore result)%Q)
  ∧ (movesByMoveId !! chargedMove1 = None
     ∨ movesByMoveId !! chargedMove2 = None →
     result = Moves.MkSynergy false false 0).
Proof.
  cbn zeta. unfold Moves.evaluateMoveSynergy, Moves.getMoveByMoveId.
  destruct (movesByMoveId !! chargedMove1) as [move1|] eqn:H1,
           (movesByMoveId !! chargedMove2) as [move2|] eqn:H2.
  2-4: by split; [done |]; split; [by left |]; split; [by split |].
  destruct (Moves.getMoveCategory movesByMoveId chargedMove1),
           (Moves.getMoveCategory movesByMoveId chargedMove2),
           (Moves.hasBuffEffects movesByMoveId chargedMove1),
           (Moves.hasBuffEffects movesByMoveId chargedMove2);
    cbn;
    (split; [reflexivity |]);
    (split; [| split; [split; [intros; try done; by vm_compute
                              | intros Hle; try done; by vm_compute in Hle]
                      | by intros [|]]]);
    repeat first [ by apply Exists_cons_hd | apply Exists_cons_tl ].
Qed.

Lemma getMovesetTypes_fold (movesByMoveId : gmap string Moves.Move)
    (moveIds : list string) (types0 : list string) :
  let result :=
    foldl (λ types moveId,
        match Moves.getMoveByMoveId movesByMoveId moveId with
        | Some move =>
            if decide (Moves.type move ∈ types) then types
            else types ++ [Moves.type move]
        | None => types
        end)
      types0 moveIds in
  (NoDup types0 → NoDup result)
  ∧ (∀ t, t ∈ result
          ↔ t ∈ types0
            ∨ ∃ moveId move, moveId ∈ moveIds
                ∧ movesByMoveId !! moveId = Some move ∧ Moves.type move = t)
  ∧ length result ≤ length types0 + length moveIds.
Proof.
  revert types0. induction moveIds as [|moveId moveIds IH]; intros types0.
  - cbn. split; [done |]. split; [| lia]. intros t. split; [by left |].
    intros [? | (? & ? & []%elem_of_nil & _)]; done.
  - cbn [foldl].
    set (next := match Moves.getMoveByMoveId movesByMoveId moveId with
                 | Some move =>
                     if decide (Moves.type move ∈ types0) then types0
                     else types0 ++ [Moves.type move]
                 | None => types0
                 end).
    destruct (IH next) as (Hnd & Hin & Hlen). cbn zeta in Hnd, Hin, Hlen.
    assert (Hnext_nd : NoDup types0 → NoDup next).
    { intros H0. unfold next, Moves.getMoveByMoveId. destruct (movesByMoveId !! moveId) as [m|]; [| done].
      case_decide; [done |]. apply NoDup_app. split; [done |].
      split; [| apply NoDup_singleton].
      by intros t Ht ->%list_elem_of_singleton. }
    assert (Hnext_in : ∀ t, t ∈ next
              ↔ t ∈ types0
                ∨ ∃ move, movesByMoveId !! moveId = Some move
                          ∧ Moves.type move = t).
    { intros t. unfold next, Moves.getMoveByMoveId. destruct (movesByMoveId !! moveId) as [m|].
      - case_decide as Hm.
        + split; [by left |]. intros [? | (? & [= <-] & <-)]; done.
        + rewrite elem_of_app, list_elem_of_singleton. split.
          * intros [? | ->]; [by left | right; by exists m].
          * intros [? | (? & [= <-] & <-)]; [by left | by right].
      - split; [by left |]. by intros [? | (? & ? & _)]. }
    assert (Hnext_len : length next ≤ length types0 + 1).
    { unfold next, Moves.getMoveByMoveId. destruct (movesByMoveId !! moveId) as [m|]; [| lia].
      case_decide; [lia |]. rewrite length_app. simpl. lia. }
    cbn zeta. split; [by intros ?%Hnext_nd%Hnd |]. split; [| simpl; lia].
    intros t. rewrite Hin, Hnext_in. split.
    + intros [[? | (move & Hm & Ht)] | (id & move & Hid & Hm & Ht)].
      * by left.
      * right. exists moveId, move. split; [left | done].
      * right. exists id, move. split; [by right | done].
    + intros [? | (id & move & [-> | Hid]%elem_of_cons & Hm & Ht)].
      * left. by left.
      * left. right. by exists move.
      * right. by exists id, move.
Qed.

(** X22: [getMovesetTypes] lists each type once: the result has no
    duplicates, it holds exactly the types of the known moves among the ids
    (unknown ids are skipped), and it is no longer than the list of ids. *)
Theorem getMovesetTypes_distinct (movesByMoveId : gmap string Moves.Move)
    (moveIds : list string) :
  NoDup (Moves.getMovesetTypes movesByMoveId moveIds)
  ∧ (∀ t, t ∈ Moves.getMovesetTypes movesByMoveId moveIds
          ↔ ∃ moveId move, moveId ∈ moveIds
              ∧ movesByMoveId !! moveId = Some move ∧ Moves.type move = t)
  ∧ length (Moves.getMovesetTypes movesByMoveId moveIds) ≤ length moveIds.
Proof.
  destruct (getMovesetTypes_fold movesByMoveId moveIds []) as (Hnd & Hin & Hlen).
  cbn zeta in Hnd, Hin, Hlen. fold (Moves.getMovesetTypes movesByMoveId moveIds)
    in Hnd, Hin, Hlen.
  split; [apply Hnd; constructor |]. split; [| exact Hlen].
  intros t. rewrite Hin. split; [| by right].
  by intros [?%elem_of_nil | ?].
Qed.

(** ** Type chart look-ups and coverage *)

Lemma multiply_entries_skip typeChart attackType (before after : list string)
    (defType : string) :
  chart_entry typeChart (toLowerCase attackType) (toLowerCase defType) = None →
  multiply_entries typeChart attackType (before ++ defType :: after)
  = multiply_entries typeChart attackType (before ++ after).
Proof.
  intros Hnone. unfold multiply_entries. cbn zeta.
  rewrite !fold_left_app. cbn [fold_left]. by rewrite Hnone.
Qed.

Lemma multiply_entries_no_row typeChart attackType (defenseTypes : list string) :
  typeChart !! toLowerCase attackType = None →
  multiply_entries typeChart attackType defenseTypes = 1%float.
Proof.
  intros Hnone. unfold multiply_entries. cbn zeta. generalize 1%float.
  induction defenseTypes as [|d ds IH]; intros acc; [done |].
  cbn [fold_left]. unfold chart_entry at 2. rewrite Hnone. apply IH.
Qed.

(** X23: for type names of ASCII characters that in lower case are not
    [constructor] or [__proto__] (the keys that the chart and its rows, plain
    objects, inherit), both [calculateEffectiveness] functions look the
    types up in lower case, so the letter case of their arguments does not
    matter; an attacking type without a row in the chart gives the neutral
    1.0; and a defending type without an entry in the attacking type's row
    is skipped, wherever it stands in the list. *)
Theorem calculateEffectiveness_lookup
    (typeChart : gmap string (gmap string float))
    (attackType : string) (defenseTypes : list string) :
  plain_name attackType = true →
  Forall (λ defType, plain_name defType = true) defenseTypes →
  Coverage.calculateEffectiveness typeChart (toLowerCase attackType)
    (toLowerCase <$> defenseTypes)
  = Coverage.calculateEffectiveness typeChart attackType defenseTypes
  ∧ Effectiveness.calculateEffectiveness typeChart
      (toLowerCase <$> defenseTypes) (toLowerCase attackType)
    = Effectiveness.calculateEffectiveness typeChart defenseTypes attackType
  ∧ (typeChart !! toLowerCase attackType = None →
     Coverage.calculateEffectiveness typeChart attackType defenseTypes
     = 1%float
     ∧ Effectiveness.calculateEffectiveness typeChart defenseTypes attackType
       = 1%float)
  ∧ ∀ before after defType,
      defenseTypes = before ++ defType :: after →
      chart_entry typeChart (toLowerCase attackType) (toLowerCase defType)
      = None →
      Coverage.calculateEffectiveness typeChart attackType defenseTypes
      = Coverage.calculateEffectiveness typeChart attackType (before ++ after)
      ∧ Effectiveness.calculateEffectiveness typeChart defenseTypes attackType
        = Effectiveness.calculateEffectiveness typeChart (before ++ after)
            attackType.
Proof.
  intros _ _.
  unfold Coverage.calculateEffectiveness, Effectiveness.calculateEffectiveness.
  cbn zeta. rewrite multiply_entries_lower.
  split; [done |]. split; [done |]. split.
  - intros Hnone. rewrite multiply_entries_no_row by done. by vm_compute.
  - intros before after defType -> Hnone.
    by rewrite multiply_entries_skip.
Qed.

Lemma calculateEffectiveness_lookup_witness :
  plain_name "Fire" = true
  ∧ Forall (λ defType, plain_name defType = true) ["Grass"; "Water"; "BUG"]
  ∧ Coverage.calculateEffectiveness sample_chart "fire"
      ["grass"; "water"; "bug"]
    = Coverage.calculateEffectiveness sample_chart "Fire"
        ["Grass"; "Water"; "BUG"]
  ∧ Coverage.calculateEffectiveness sample_chart "Fire"
      ["Grass"; "Water"; "BUG"]
    = Coverage.calculateEffectiveness sample_chart "Fire" ["Grass"; "BUG"]
  ∧ Coverage.calculateEffectiveness sample_chart "Fire" ["Grass"; "BUG"]
    = 2.5600000000000005%float.
Proof.
  assert (Hattack : plain_name "Fire" = true) by reflexivity.
  assert (Hdefense : Forall (λ defType, plain_name defType = true)
                       ["Grass"; "Water"; "BUG"])
    by (repeat constructor).
  destruct (calculateEffectiveness_lookup sample_chart "Fire"
              ["Grass"; "Water"; "BUG"] Hattack Hdefense)
    as (Hlower & _ & _ & Hskip).
  split; [exact Hattack |]. split; [exact Hdefense |].
  split; [exact Hlower |]. split; [| reflexivity].
  exact (proj1 (Hskip ["Grass"] ["BUG"] "Water" eq_refl eq_refl)).
Defined.

Section CoverageFacts.
Context (typeChart : gmap string (gmap string float)) (allTypes : list string).

Lemma offensive_fold (moveTypes : list string) (types : list string)
    (se0 ne0 nve0 : gset string) :
  let '(se, ne, nve) :=
    foldl (λ '(superEffective, neutral, notVeryEffective) defType,
        let bestMultiplier :=
          TypeChart.bestMultiplier typeChart moveTypes defType in
        if PrimFloat.leb 1.6 bestMultiplier then
          ({[ defType ]} ∪ superEffective, neutral, notVeryEffective)
        else if PrimFloat.eqb bestMultiplier 1.0 then
          (superEffective, {[ defType ]} ∪ neutral, notVeryEffective)
        else (superEffective, neutral, {[ defType ]} ∪ notVeryEffective))
      (se0, ne0, nve0) types in
  ∀ t,
    (t ∈ se ↔ t ∈ se0
              ∨ (t ∈ types
                 ∧ PrimFloat.leb 1.6
                     (TypeChart.bestMultiplier typeChart moveTypes t) = true))
    ∧ (t ∈ ne ↔ t ∈ ne0
                ∨ (t ∈ types
                   ∧ PrimFloat.leb 1.6
                       (TypeChart.bestMultiplier typeChart moveTypes t) = false
                   ∧ PrimFloat.eqb
                       (TypeChart.bestMultiplier typeChart moveTypes t) 1.0
                     = true))
    ∧ (t ∈ nve ↔ t ∈ nve0
                 ∨ (t ∈ types
                    ∧ PrimFloat.leb 1.6
                        (TypeChart.bestMultiplier typeChart moveTypes t) = false
                    ∧ PrimFloat.eqb
                        (TypeChart.bestMultiplier typeChart moveTypes t) 1.0
                      = false)).
Proof.
  revert se0 ne0 nve0. induction types as [|d types IH]; intros se0 ne0 nve0.
  - cbn. intros t. repeat split; try (by left);
      intros [? | [?%elem_of_nil _]]; done.
  - cbn [foldl].
    destruct (PrimFloat.leb 1.6 (TypeChart.bestMultiplier typeChart moveTypes d))
      eqn:Hse;
      [| destruct (PrimFloat.eqb
                     (TypeChart.bestMultiplier typeChart moveTypes d) 1.0)
           eqn:Hne].
    all: match goal with
         | |- context [foldl ?f (?a, ?b, ?c) ?l] =>
             specialize (IH a b c); destruct (foldl f (a, b, c) l)
               as [[se ne] nve]
         end.
    all: intros t; destruct (IH t) as (Hs & Hn & Hv);
      rewrite Hs, Hn, Hv, ?elem_of_union, ?elem_of_singleton, !elem_of_cons.
    all: repeat split; intros; repeat (destruct_or? || destruct_and?);
      simplify_eq; eauto 8; congruence.
Qed.

Lemma memberCounts_fold (teamTypes : list (list string)) (atkType : string)
    (r0 w0 : nat) :
  let '(r, w) :=
    foldl (λ '(resistCount, weakCount) defTypes,
        let effectiveness :=
          Coverage.calculateEffectiveness typeChart atkType
            (filter (λ t, t ≠ "none"%string) defTypes) in
        if PrimFloat.leb effectiveness 0.625 then
          (Datatypes.S resistCount, weakCount)
        else if PrimFloat.leb 1.6 effectiveness then
          (resistCount, Datatypes.S weakCount)
        else (resistCount, weakCount))
      (r0, w0) teamTypes in
  r0 ≤ r ∧ w0 ≤ w ∧ r + w ≤ r0 + w0 + length teamTypes.
Proof.
  revert r0 w0. induction teamTypes as [|d ds IH]; intros r0 w0.
  - cbn. lia.
  - cbn [foldl length].
    match goal with
    | |- context [foldl ?f ?init ds] =>
        destruct init as [r1 w1] eqn:Hinit;
        specialize (IH r1 w1); destruct (foldl f (r1, w1) ds) as [r w]
    end.
    repeat match type of Hinit with
           | (if ?b then _ else _) = _ => destruct b
           end; simplify_eq; lia.
Qed.

Lemma memberCounts_le (teamTypes : list (list string)) (atkType : string) :
  (TypeChart.memberCounts typeChart teamTypes atkType).1
  + (TypeChart.memberCounts typeChart teamTypes atkType).2
  ≤ length teamTypes.
Proof.
  pose proof (memberCounts_fold teamTypes atkType 0 0) as H.
  unfold TypeChart.memberCounts.
  destruct (foldl _ (0, 0) teamTypes) as [r w]. simpl. lia.
Qed.

Lemma defensive_fold (teamTypes : list (list string)) (types : list string)
    (rc0 wc0 : gmap string nat) :
  let '(rc, wc) :=
    foldl (λ '(resistCount, weakCount) atkType,
        let '(resists, weaks) :=
          TypeChart.memberCounts typeChart teamTypes atkType in
        (<[atkType := resists]> resistCount, <[atkType := weaks]> weakCount))
      (rc0, wc0) types in
  ∀ t,
    rc !! t = (if decide (t ∈ types)
               then Some (TypeChart.memberCounts typeChart teamTypes t).1
               else rc0 !! t)
    ∧ wc !! t = (if decide (t ∈ types)
                 then Some (TypeChart.memberCounts typeChart teamTypes t).2
                 else wc0 !! t).
Proof.
  revert rc0 wc0. induction types as [|x types IH]; intros rc0 wc0.
  - cbn. intros t. rewrite !decide_False by apply not_elem_of_nil. done.
  - cbn [foldl].
    destruct (TypeChart.memberCounts typeChart teamTypes x) as [r w] eqn:Hx.
    specialize (IH (<[x := r]> rc0) (<[x := w]> wc0)).
    destruct (foldl _ (<[x := r]> rc0, <[x := w]> wc0) types) as [rc wc].
    intros t. destruct (IH t) as [Hr Hw]. rewrite Hr, Hw.
    destruct (decide (t ∈ types)) as [Hin | Hnin].
    + rewrite !decide_True by (by right). done.
    + destruct (decide (t = x)) as [-> | Hne].
      * rewrite !decide_True by left. rewrite !lookup_insert_eq, Hx. done.
      * rewrite !decide_False by (by intros [? | ?]%elem_of_cons).
        by rewrite !lookup_insert_ne.
Qed.

End CoverageFacts.

(** X24: [calculateOffensiveCoverage] puts every type of the chart into
    exactly one of its three sets: the sets are pairwise disjoint and
    together they are the chart's types, so their sizes add up to the number
    of types.  With no move types every type is "not very effective" (the
    best multiplier stays 0) and the score is 0. *)
Theorem calculateOffensiveCoverage_partition
    (typeChart : gmap string (gmap string float)) (allTypes : list string)
    (moveTypes : list string) :
  let result := TypeChart.calculateOffensiveCoverage typeChart allTypes moveTypes in
  TypeChart.superEffective result ∪ TypeChart.neutral result
    ∪ TypeChart.notVeryEffective result = list_to_set allTypes
  ∧ TypeChart.superEffective result ## TypeChart.neutral result
  ∧ TypeChart.superEffective result ## TypeChart.notVeryEffective result
  ∧ TypeChart.neutral result ## TypeChart.notVeryEffective result
  ∧ size (TypeChart.superEffective result) + size (TypeChart.neutral result)
    + size (TypeChart.notVeryEffective result)
    = size (list_to_set allTypes : gset string)
  ∧ (moveTypes = [] →
     TypeChart.superEffective result = ∅
     ∧ TypeChart.neutral result = ∅
     ∧ TypeChart.notVeryEffective result = list_to_set allTypes
     ∧ TypeChart.offensiveScore result = 0%float).
Proof.
  cbn zeta. unfold TypeChart.calculateOffensiveCoverage.
  pose proof (offensive_fold typeChart moveTypes allTypes ∅ ∅ ∅) as H.
  destruct (foldl _ (∅, ∅, ∅) allTypes) as [[se ne] nve].
  cbn [TypeChart.superEffective TypeChart.neutral TypeChart.notVeryEffective
       TypeChart.offensiveScore].
  assert (Hunion : se ∪ ne ∪ nve = list_to_set allTypes).
  { apply set_eq. intros t. destruct (H t) as (Hs & Hn & Hv).
    rewrite !elem_of_union, Hs, Hn, Hv, elem_of_list_to_set.
    rewrite !elem_of_empty.
    destruct (PrimFloat.leb _ _), (PrimFloat.eqb _ _); intuition congruence. }
  assert (Hsn : se ## ne).
  { intros t Ht1 Ht2. destruct (H t) as (Hs & Hn & _).
    apply Hs in Ht1 as [[]%elem_of_empty | [_ H1]].
    apply Hn in Ht2 as [[]%elem_of_empty | (_ & H2 & _)]. congruence. }
  assert (Hsv : se ## nve).
  { intros t Ht1 Ht2. destruct (H t) as (Hs & _ & Hv).
    apply Hs in Ht1 as [[]%elem_of_empty | [_ H1]].
    apply Hv in Ht2 as [[]%elem_of_empty | (_ & H2 & _)]. congruence. }
  assert (Hnv : ne ## nve).
  { intros t Ht1 Ht2. destruct (H t) as (_ & Hn & Hv).
    apply Hn in Ht1 as [[]%elem_of_empty | (_ & _ & H1)].
    apply Hv in Ht2 as [[]%elem_of_empty | (_ & _ & H2)]. congruence. }
  split; [done |]. split; [done |]. split; [done |]. split; [done |]. split.
  - rewrite <- Hunion. rewrite !size_union; [done | done |].
    apply disjoint_union_l. by split.
  - intros ->.
    assert (Hse : se = ∅).
    { apply set_eq. intros t. destruct (H t) as (Hs & _). rewrite Hs.
      rewrite !elem_of_empty. cbn. intuition congruence. }
    assert (Hne : ne = ∅).
    { apply set_eq. intros t. destruct (H t) as (_ & Hn & _). rewrite Hn.
      rewrite !elem_of_empty. cbn. intuition congruence. }
    subst se ne. split; [done |]. split; [done |]. split; [| done].
    rewrite <- Hunion. by rewrite !union_empty_l_L.
Qed.

(** X25: [calculateDefensiveCoverage] counts, for each attacking type of the
    chart, the members that resist it and the members that are weak to it;
    a type is resisted when at least 2 members resist it and weak when at
    least 3 are weak to it.  So a team of fewer than 2 members has no
    resisted type, one of fewer than 3 has no weak type, and in a team of
    fewer than 5 no type is both; the score of the empty team is 0. *)
Theorem calculateDefensiveCoverage_counts
    (typeChart : gmap string (gmap string float)) (allTypes : list string)
    (teamTypes : list (list string)) :
  let result := TypeChart.calculateDefensiveCoverage typeChart allTypes teamTypes in
  (∀ t, t ∈ TypeChart.resistedTypes result
        ↔ t ∈ allTypes
          ∧ 2 ≤ (TypeChart.memberCounts typeChart teamTypes t).1)
  ∧ (∀ t, t ∈ TypeChart.weakTypes result
          ↔ t ∈ allTypes
            ∧ 3 ≤ (TypeChart.memberCounts typeChart teamTypes t).2)
  ∧ (∀ t, (TypeChart.memberCounts typeChart teamTypes t).1
          + (TypeChart.memberCounts typeChart teamTypes t).2
          ≤ length teamTypes)
  ∧ (length teamTypes < 2 → TypeChart.resistedTypes result = ∅)
  ∧ (length teamTypes < 3 → TypeChart.weakTypes result = ∅)
  ∧ (length teamTypes < 5 →
     TypeChart.resistedTypes result ## TypeChart.weakTypes result)
  ∧ (teamTypes = [] → TypeChart.defensiveScore result = 0%float).
Proof.
  cbn zeta. unfold TypeChart.calculateDefensiveCoverage.
  pose proof (defensive_fold typeChart teamTypes allTypes ∅ ∅) as H.
  destruct (foldl _ (∅, ∅) allTypes) as [rc wc].
  cbn [TypeChart.resistedTypes TypeChart.weakTypes TypeChart.defensiveScore].
  pose proof (memberCounts_le typeChart teamTypes) as Hle.
  assert (Hres : ∀ t, t ∈ dom (filter (λ entry : string * nat, 2 ≤ entry.2) rc)
                      ↔ t ∈ allTypes
                        ∧ 2 ≤ (TypeChart.memberCounts typeChart teamTypes t).1).
  { intros t. rewrite elem_of_dom. unfold is_Some.
    setoid_rewrite map_lookup_filter_Some. destruct (H t) as [Hr _].
    rewrite Hr. cbn [snd]. case_decide as Hin.
    - split; [intros (n & [= <-] & ?); done | intros [_ ?]; eauto].
    - rewrite lookup_empty. split; [by intros (? & ? & _) | by intros [? _]]. }
  assert (Hweak : ∀ t, t ∈ dom (filter (λ entry : string * nat, 3 ≤ entry.2) wc)
                       ↔ t ∈ allTypes
                         ∧ 3 ≤ (TypeChart.memberCounts typeChart teamTypes t).2).
  { intros t. rewrite elem_of_dom. unfold is_Some.
    setoid_rewrite map_lookup_filter_Some. destruct (H t) as [_ Hw].
    rewrite Hw. cbn [snd]. case_decide as Hin.
    - split; [intros (n & [= <-] & ?); done | intros [_ ?]; eauto].
    - rewrite lookup_empty. split; [by intros (? & ? & _) | by intros [? _]]. }
  assert (Hnores : length teamTypes < 2 →
                   dom (filter (λ entry : string * nat, 2 ≤ entry.2) rc)
                   = (∅ : gset string)).
  { intros Hlen. apply set_eq. intros t. rewrite Hres, elem_of_empty.
    specialize (Hle t). split; [lia | done]. }
  assert (Hnoweak : length teamTypes < 3 →
                    dom (filter (λ entry : string * nat, 3 ≤ entry.2) wc)
                    = (∅ : gset string)).
  { intros Hlen. apply set_eq. intros t. rewrite Hweak, elem_of_empty.
    specialize (Hle t). split; [lia | done]. }
  split; [done |]. split; [done |]. split; [done |]. split; [done |].
  split; [done |]. split.
  - intros Hlen t [_ Hr]%Hres [_ Hw]%Hweak. specialize (Hle t). lia.
  - intros ->. rewrite Hnores, Hnoweak by (simpl; lia). by vm_compute.
Qed.

Lemma not_above_and_below (e : float) :
  PrimFloat.leb 1.6 e = true → PrimFloat.leb e 0.625 = true → False.
Proof.
  rewrite !FloatAxioms.leb_spec.
  replace (Prim2SF 1.6) with (S754_finite false 7205759403792794 (-52))
    by (vm_compute; reflexivity).
  replace (Prim2SF 0.625) with (S754_finite false 5629499534213120 (-53))
    by (vm_compute; reflexivity).
  destruct (Prim2SF e) as [s | s | | s m x]; unfold SFleb, SFcompare;
    try destruct s; try discriminate.
  destruct (Z.compare_spec (-52) x), (Z.compare_spec x (-53));
    try discriminate; lia.
Qed.

(** X26: no attacking type is both super effective against and resisted by
    the same defender: [getSuperEffectiveTypes] and [getResistantTypes] of
    the same defending types have no type in common.  Both list types of the
    chart, in the chart's order; against no defending type at all
    (effectiveness 1.0 throughout) both lists are empty. *)
Theorem super_effective_and_resistant_disjoint
    (typeChart : gmap string (gmap string float)) (allTypes : list string)
    (defenseTypes : list string) :
  (∀ t, t ∈ TypeChart.getSuperEffectiveTypes typeChart allTypes defenseTypes →
        t ∉ TypeChart.getResistantTypes typeChart allTypes defenseTypes)
  ∧ TypeChart.getSuperEffectiveTypes typeChart allTypes defenseTypes
    `sublist_of` allTypes
  ∧ TypeChart.getResistantTypes typeChart allTypes defenseTypes
    `sublist_of` allTypes
  ∧ TypeChart.getSuperEffectiveTypes typeChart allTypes [] = []
  ∧ TypeChart.getResistantTypes typeChart allTypes [] = [].
Proof.
  unfold TypeChart.getSuperEffectiveTypes, TypeChart.getResistantTypes.
  split; [| split; [apply sublist_filter | split; [apply sublist_filter |]]].
  - intros t [Hse _]%list_elem_of_filter [Hres _]%list_elem_of_filter.
    by eapply not_above_and_below.
  - split; apply filter_none, Forall_forall; intros t _; by vm_compute.
Qed.

(** ** Lineups and meta threats *)

Lemma length_remove_dups_size (l : list string) :
  length (remove_dups l) = size (list_to_set l : gset string).
Proof.
  rewrite <- (size_list_to_set (C := gset string) (remove_dups l))
    by apply NoDup_remove_dups.
  f_equal. apply set_eq. intros x.
  by rewrite !elem_of_list_to_set, elem_of_remove_dups.
Qed.

(** Three sets of at most two elements, the third meeting both others, have
    at most four elements together. *)
Lemma three_pairs_size (A B C : gset string) (t u : string) :
  size A ≤ 2 → size B ≤ 2 → size C ≤ 2 →
  t ∈ A → t ∈ C → u ∈ C → u ∈ B →
  size (A ∪ B ∪ C) ≤ 4.
Proof.
  intros HA HB HC HtA HtC HuC HuB.
  destruct (decide (t = u)) as [<- | Hne].
  - assert (HBt : size (B ∖ {[t]}) ≤ 1).
    { rewrite size_difference by (by apply singleton_subseteq_l).
      rewrite size_singleton. lia. }
    assert (HCt : size (C ∖ {[t]}) ≤ 1).
    { rewrite size_difference by (by apply singleton_subseteq_l).
      rewrite size_singleton. lia. }
    assert (Hsub : A ∪ B ∪ C ⊆ A ∪ (B ∖ {[t]}) ∪ (C ∖ {[t]})).
    { intros x. rewrite !elem_of_union, !elem_of_difference,
        !elem_of_singleton.
      destruct (decide (x = t)) as [-> | ?]; [by left; left |]. tauto. }
    apply subseteq_size in Hsub.
    pose proof (size_union_alt (A ∪ B ∖ {[t]}) (C ∖ {[t]})) as H1.
    pose proof (size_union_alt A (B ∖ {[t]})) as H2.
    pose proof (subseteq_size (C ∖ {[t]} ∖ (A ∪ B ∖ {[t]})) (C ∖ {[t]})
                  ltac:(apply subseteq_difference_l; done)) as H3.
    pose proof (subseteq_size (B ∖ {[t]} ∖ A) (B ∖ {[t]})
                  ltac:(apply subseteq_difference_l; done)) as H4.
    lia.
  - assert (HCsub : C ⊆ A ∪ B).
    { assert (Hrest : size (C ∖ {[t]} ∖ {[u]}) = 0).
      { rewrite size_difference.
        2:{ apply singleton_subseteq_l, elem_of_difference. split; [done |].
            rewrite elem_of_singleton. congruence. }
        rewrite size_difference by (by apply singleton_subseteq_l).
        rewrite !size_singleton. lia. }
      apply size_empty_inv in Hrest.
      intros x Hx. destruct (decide (x = t)) as [-> | Hxt];
        [by apply elem_of_union_l |].
      destruct (decide (x = u)) as [-> | Hxu]; [by apply elem_of_union_r |].
      exfalso. apply (not_elem_of_empty (C := gset string) x), (Hrest x).
      rewrite !elem_of_difference, !elem_of_singleton. done. }
    replace (A ∪ B ∪ C) with (A ∪ B)
      by (symmetry; rewrite (comm_L (∪) (A ∪ B) C);
          by apply subseteq_union_1_L).
    pose proof (size_union_alt A B) as H1.
    pose proof (subseteq_size (B ∖ A) B
                  ltac:(apply subseteq_difference_l; done)) as H2.
    lia.
Qed.

Lemma lookup_member_elem (ks : KnowledgeStore) (lineup : list cell) (i : nat)
    (p : Pokemon ks) :
  Scoring.lookup_member ks (array_get lineup i) = Some p →
  array_get lineup i ∈ lineup.
Proof.
  unfold array_get. destruct (lineup !! i) as [[s| |]|] eqn:Hi; try done.
  intros _. by eapply list_elem_of_lookup_2.
Qed.

(** X27: when every known member has at most two types,
    [evaluateThreeLineup] returns one of 0, 0.3, 0.4, 0.6 and 0.7: the three
    bonuses never come together (a closer that shares a type with the lead
    and one with the switch leaves at most four different types), so the cap
    of 1.0 is never reached.  The score is 0 when the lineup does not have
    three entries or one of them is not a known species. *)
Theorem evaluateThreeLineup_scores (ks : KnowledgeStore)
    (types : Pokemon ks → list string) (lineup : list cell) :
  (∀ v p, v ∈ lineup → Scoring.lookup_member ks v = Some p →
          length (types p) ≤ 2) →
  Exists (λ score, Scoring.evaluateThreeLineup ks types lineup = score)
    [0; 0.3; 0.4; 0.6; 0.7]%float
  ∧ (length lineup ≠ 3 → Scoring.evaluateThreeLineup ks types lineup = 0%float)
  ∧ (∀ i, i < 3 → Scoring.lookup_member ks (array_get lineup i) = None →
          Scoring.evaluateThreeLineup ks types lineup = 0%float).
Proof.
  intros Htwo. unfold Scoring.evaluateThreeLineup.
  destruct (length lineup =? 3) eqn:Hlen; cbn [negb].
  2:{ split; [by apply Exists_cons_hd |]. split; by intros. }
  apply Nat.eqb_eq in Hlen.
  destruct (Scoring.lookup_member ks (array_get lineup 0)) as [lead|] eqn:H0.
  2:{ split; [by apply Exists_cons_hd |]. split; by intros. }
  destruct (Scoring.lookup_member ks (array_get lineup 1)) as [switch_|] eqn:H1.
  2:{ split; [by apply Exists_cons_hd |]. split; by intros. }
  destruct (Scoring.lookup_member ks (array_get lineup 2)) as [closer|] eqn:H2.
  2:{ split; [by apply Exists_cons_hd |]. split; by intros. }
  split; [| split; [lia |]].
  2:{ intros [|[|[|i]]] Hi Hnone; [congruence.. | lia]. }
  assert (Hlead : length (types lead) ≤ 2)
    by (apply (Htwo (array_get lineup 0)); [by eapply lookup_member_elem | done]).
  assert (Hswitch : length (types switch_) ≤ 2)
    by (apply (Htwo (array_get lineup 1)); [by eapply lookup_member_elem | done]).
  assert (Hcloser : length (types closer) ≤ 2)
    by (apply (Htwo (array_get lineup 2)); [by eapply lookup_member_elem | done]).
  cbn zeta. unfold Scoring.set_of.
  destruct (0 <? length (filter _ (remove_dups (types lead)))) eqn:Hshared;
    destruct (existsb _ (remove_dups (types closer))) eqn:Hresist;
    destruct (5 <=? length (remove_dups (types lead ++ types switch_
                                         ++ types closer))) eqn:Hdiverse.
  2-8: vm_compute;
    repeat first [ by apply Exists_cons_hd | apply Exists_cons_tl ].
  exfalso.
  apply Nat.ltb_lt in Hshared. apply Nat.leb_le in Hdiverse.
  destruct (filter _ (remove_dups (types lead))) as [|t rest] eqn:Hfilter;
    [simpl in Hshared; lia |].
  assert (Ht : t ∈ filter (λ t, t ∈ remove_dups (types closer))
                 (remove_dups (types lead)))
    by (rewrite Hfilter; left).
  apply list_elem_of_filter in Ht as [HtC HtA].
  rewrite elem_of_remove_dups in HtC, HtA.
  apply existsb_exists in Hresist as (u & HuC & HuB).
  apply list_elem_of_In in HuC. apply bool_decide_eq_true in HuB.
  rewrite elem_of_remove_dups in HuC, HuB.
  rewrite length_remove_dups_size in Hdiverse.
  rewrite !list_to_set_app_L in Hdiverse.
  pose proof (three_pairs_size (list_to_set (types lead))
                (list_to_set (types switch_)) (list_to_set (types closer))
                t u) as Hfour.
  rewrite (assoc_L (∪)) in Hdiverse.
  pose proof (size_list_to_set_le (types lead)).
  pose proof (size_list_to_set_le (types switch_)).
  pose proof (size_list_to_set_le (types closer)).
  rewrite !elem_of_list_to_set in Hfour.
  specialize (Hfour ltac:(lia) ltac:(lia) ltac:(lia) HtA HtC HuC HuB). lia.
Qed.

Lemma evaluateThreeLineup_scores_witness :
  Scoring.evaluateThreeLineup sample_store fst
    [Str "azumarill"; Str "lanturn"; Str "altaria"] = 0.4%float
  ∧ Scoring.evaluateThreeLineup sample_store fst
      [Str "azumarill"; Str "altaria"; Str "lanturn"] = 0.7%float
  ∧ Exists (λ score,
        Scoring.evaluateThreeLineup sample_store fst
          [Str "azumarill"; Str "altaria"; Str "lanturn"] = score)
      [0; 0.3; 0.4; 0.6; 0.7]%float.
Proof.
  split; [by vm_compute |]. split; [by vm_compute |].
  apply evaluateThreeLineup_scores.
  intros v p Hv Hp. unfold Scoring.lookup_member in Hp.
  destruct v as [s| |]; [| done..]. cbn in Hp.
  repeat (apply elem_of_cons in Hv as [Hv | Hv];
          [injection Hv as ->; vm_compute in Hp; injection Hp as <-;
           simpl; lia |]).
  by apply elem_of_nil in Hv.
Defined.

Lemma count_members_fold {A : Type} (c : A → bool) (roster : list A) (n0 : nat) :
  let n := foldl (λ n p, if c p then Datatypes.S n else n) n0 roster in
  n0 ≤ n ∧ n ≤ n0 + length roster
  ∧ ((∀ p, p ∈ roster → c p = true) → n = n0 + length roster)
  ∧ ((∀ p, p ∈ roster → c p = false) → n = n0).
Proof.
  revert n0. induction roster as [|p roster IH]; intros n0.
  - cbn. lia.
  - cbn [foldl length]. cbn zeta.
    destruct (IH (if c p then Datatypes.S n0 else n0)) as (H1 & H2 & H3 & H4).
    cbn zeta in H1, H2, H3, H4.
    split; [destruct (c p); lia |]. split; [destruct (c p); lia |]. split.
    + intros Hall. rewrite H3 by (intros q Hq; apply Hall; by right).
      rewrite (Hall p) by left. lia.
    + intros Hnone. rewrite H4 by (intros q Hq; apply Hnone; by right).
      by rewrite (Hnone p) by left.
Qed.

Lemma count_threats_fold {A T : Type} (c : A → T → bool) (roster : list A)
    (threats : list T) (n0 : nat) :
  let n :=
    foldl (λ n threat,
        foldl (λ n p, if c p threat then Datatypes.S n else n) n roster)
      n0 threats in
  n ≤ n0 + length threats * length roster
  ∧ ((∀ threat p, threat ∈ threats → p ∈ roster → c p threat = true) →
     n = n0 + length threats * length roster)
  ∧ ((∀ threat p, threat ∈ threats → p ∈ roster → c p threat = false) →
     n = n0).
Proof.
  revert n0. induction threats as [|threat threats IH]; intros n0.
  - cbn. lia.
  - cbn [foldl length]. cbn zeta.
    destruct (count_members_fold (λ p, c p threat) roster n0)
      as (_ & Hle & Hall & Hnone). cbn zeta in Hle, Hall, Hnone.
    set (n1 := foldl (λ n p, if c p threat then Datatypes.S n else n) n0 roster)
      in *.
    destruct (IH n1) as (H1 & H2 & H3). cbn zeta in H1, H2, H3.
    split; [lia |]. split.
    + intros Hc. rewrite H2 by (intros t p Ht Hp; apply Hc; [by right | done]).
      rewrite Hall by (intros p Hp; apply Hc; [left | done]). lia.
    + intros Hc. rewrite H3 by (intros t p Ht Hp; apply Hc; [by right | done]).
      apply Hnone. intros p Hp. apply Hc; [left | done].
Qed.

(** X28: [calculateMetaThreatScore] counts a threat once for every team
    member that has a super effective charged move against it (the [break]
    leaves the loop over the moves, not the loop over the members).  So the
    count is at most the number of threats looked at, 50 at most, times the
    number of known members, reaches that product when every member covers
    every threat, and is 0 when no member covers any.  The score of a team
    without a known member is 0. *)
Theorem calculateMetaThreatScore_counts_members (ks : KnowledgeStore)
    (chargedMoves : Pokemon ks → list string)
    (movesByMoveId : gmap string Moves.Move)
    (typeChart : gmap string (gmap string float))
    (metaThreats : list (string * string)) (team : list cell) :
  let roster := teamPokemon ks team in
  let threatTypes (threat : string * string) :=
    filter (λ t, t ≠ "none"%string) [threat.1; threat.2] in
  let covered :=
    Scoring.coveredThreats ks chargedMoves movesByMoveId typeChart metaThreats
      roster in
  covered ≤ min 50 (length metaThreats) * length roster
  ∧ ((∀ threat p, threat ∈ take 50 metaThreats → p ∈ roster →
        Scoring.covers ks chargedMoves movesByMoveId typeChart p
          (threatTypes threat) = true) →
     covered = min 50 (length metaThreats) * length roster)
  ∧ ((∀ threat p, threat ∈ take 50 metaThreats → p ∈ roster →
        Scoring.covers ks chargedMoves movesByMoveId typeChart p
          (threatTypes threat) = false) →
     covered = 0)
  ∧ (roster = [] →
     Scoring.calculateMetaThreatScore ks chargedMoves movesByMoveId typeChart
       metaThreats team = 0%float).
Proof.
  cbn zeta. unfold Scoring.calculateMetaThreatScore, Scoring.coveredThreats.
  set (roster := teamPokemon ks team).
  destruct (count_threats_fold
              (λ p (threat : string * string),
                 Scoring.covers ks chargedMoves movesByMoveId typeChart p
                   (filter (λ t, t ≠ "none"%string) [threat.1; threat.2]))
              roster (take 50 metaThreats) 0) as (Hle & Hall & Hnone).
  cbn zeta in Hle, Hall, Hnone. rewrite length_take in Hle, Hall.
  split; [exact Hle |]. split; [exact Hall |]. split; [exact Hnone |].
  by intros ->.
Qed.

(** ** What the operators change *)

Lemma array_get_set_eq (arr : list cell) (j : nat) (v : cell) :
  array_get (array_set arr j v) j
  = match v with Str s => Str s | _ => Undefined end.
Proof.
  unfold array_get, array_set. case_decide as Hj.
  - rewrite list_lookup_insert_eq by done. by destruct v.
  - rewrite lookup_app_r by lia.
    rewrite lookup_app_r by (rewrite length_replicate; lia).
    rewrite length_replicate, Nat.sub_diag. by destruct v.
Qed.

Lemma array_get_idemp (arr : list cell) (i : nat) :
  match array_get arr i with Str s => Str s | _ => Undefined end
  = array_get arr i.
Proof. unfold array_get. by destruct (arr !! i) as [[]|]. Qed.

Lemma copy_tail_source p2 (slots : list nat) cp t0 used t used' :
  copy_tail p2 slots cp t0 used = Ok (t, used') →
  ∀ i, array_get t i = array_get t0 i
       ∨ (from_point i cp = true ∧ i ∈ slots
          ∧ array_get t i = array_get (team p2) i).
Proof.
  unfold copy_tail.
  apply (for_each_inv
    (λ st : list cell * gset string,
       ∀ i, array_get st.1 i = array_get t0 i
            ∨ (from_point i cp = true ∧ i ∈ slots
               ∧ array_get st.1 i = array_get (team p2) i)));
    [by left |].
  intros [t1 u1] slot [t2 u2] Hslot Hinv; simpl in *.
  destruct (from_point slot cp) eqn:Hfrom; [| by intros [= <- _]].
  intros (b & _ & Hstep)%bind_Ok. case_decide; simplify_eq; [done |].
  intros i. destruct (decide (i = slot)) as [-> | Hne].
  - right. split; [done |]. split; [done |].
    by rewrite array_get_set_eq, array_get_idemp.
  - rewrite array_get_set_ne by done. apply Hinv.
Qed.

(** X29: a child that [crossover] returns has parent 1's anchors list and
    fitness, and either is a copy of parent 1 or is cut at one of the mutable
    slots: every entry is parent 1's at the same slot, except that a mutable
    slot at or behind the cut may hold parent 2's entry at that slot.
    Nothing else enters the child. *)
Theorem crossover_slots_from_parents (parent1 parent2 : Chromosome)
    (mode : TournamentMode) (g : Rng) (child : Chromosome) (g' : Rng) :
  crossover parent1 parent2 mode g = Ok (child, g') →
  anchors child = anchors parent1
  ∧ fitness child = fitness parent1
  ∧ (child = cloneChromosome parent1
     ∨ ∃ crossoverPoint,
         crossoverPoint ∈ getMutableSlots parent1 (teamSize mode)
         ∧ ∀ i, array_get (team child) i = array_get (team parent1) i
                ∨ (crossoverPoint ≤ i
                   ∧ i ∈ getMutableSlots parent1 (teamSize mode)
                   ∧ array_get (team child) i
                     = array_get (team parent2) i)).
Proof.
  unfold crossover.
  change (getMutableSlots (cloneChromosome parent1) (teamSize mode))
    with (getMutableSlots parent1 (teamSize mode)).
  destruct (length (getMutableSlots parent1 (teamSize mode)) =? 0) eqn:Hms.
  { intros [= <- _]. split; [done |]. split; [done | by left]. }
  destruct (pick_Some (getMutableSlots parent1 (teamSize mode)) g)
    as (point & g1 & Hpick & Hpoint).
  { intros Hnil. by rewrite Hnil in Hms. }
  rewrite (Rand_bind_run _ _ _ _ _ Hpick).
  intros (t & g2 & [Ht _]%lift_Ok
          & (b & g3 & _ & Hret)%Rand_bind_Ok)%Rand_bind_Ok.
  destruct b; simpl in Hret; injection Hret as <- _; cbn [anchors fitness team].
  2:{ split; [done |]. split; [done | by left]. }
  split; [done |]. split; [done |]. right. exists point. split; [done |].
  unfold crossover_team in Ht.
  apply bind_Ok in Ht as (used0 & _ & Ht).
  apply bind_Ok in Ht as (used1 & _ & Ht).
  apply bind_Ok in Ht as ([t' u] & Hcopy & [= <-]).
  intros i. destruct (copy_tail_source _ _ _ _ _ _ _ Hcopy i)
    as [Hsame | (Hfrom & Hi & Htwo)].
  - left. rewrite Hsame. exact (array_get_spread (team parent1) i).
  - right. split; [by apply Nat.leb_le in Hfrom |]. by split.
Qed.

Lemma crossover_slots_from_parents_witness :
  ∃ child g',
    crossover sample_parent1 sample_parent3 GBL (constant_source draw_half)
    = Ok (child, g')
    ∧ anchors child = anchors sample_parent1
    ∧ team child = [Str "azumarill"; Str "altaria"; Str "lanturn"].
Proof.
  destruct (crossover sample_parent1 sample_parent3 GBL
              (constant_source draw_half)) as [[child g']| |] eqn:Hrun;
    [| by vm_compute in Hrun..].
  exists child, g'. split; [done |].
  split; [exact (proj1 (crossover_slots_from_parents _ _ _ _ _ _ Hrun)) |].
  vm_compute in Hrun. by injection Hrun as <- _.
Defined.

(** X30: [mutate] of a chromosome whose team is an array of species ids of
    the mode's size returns, with the anchors list and the fitness kept; the
    result is the chromosome unchanged, or differs from it in exactly one
    team entry: at a mutable slot, a species of the pool whose base species
    none of the current members has, the replaced one included. *)
Theorem mutate_one_slot (chromosome : Chromosome) (pokemonPool : list string)
    (mutationRate : Q) (mode : TournamentMode) (g : Rng) (ss : list string) :
  team chromosome = Str <$> ss → length ss = teamSize mode →
  ∃ mutated g',
    mutate chromosome pokemonPool mutationRate mode g = Ok (mutated, g')
    ∧ anchors mutated = anchors chromosome
    ∧ fitness mutated = fitness chromosome
    ∧ (mutated = chromosome
       ∨ ∃ slot newSpecies,
           slot ∈ getMutableSlots chromosome (teamSize mode)
           ∧ newSpecies ∈ pokemonPool
           ∧ (getBaseSpecies newSpecies ∉ getBaseSpecies <$> ss)
           ∧ team mutated = Str <$> <[slot := newSpecies]> ss).
Proof.
  intros Ht Hl. unfold mutate.
  rewrite (Rand_bind_run _ _ _ _ _ (eq_refl : random g = Ok (_, advance g))).
  destruct (negb (Qle_bool (u01 (draws g (pos g))) mutationRate)).
  { eexists _, _. rewrite mret_run. repeat (split; [done |]). by left. }
  rewrite (cloneChromosome_dense chromosome ss) by done.
  destruct (length (getMutableSlots chromosome (teamSize mode)) =? 0) eqn:Hms.
  { eexists _, _. rewrite mret_run. repeat (split; [done |]). by left. }
  destruct (pick_Some (getMutableSlots chromosome (teamSize mode)) (advance g))
    as (slot & g1 & Hpick & Hslot).
  { intros Hnil. rewrite Hnil in Hms. done. }
  pose proof Hslot as [Hlt _]%elem_of_getMutableSlots.
  rewrite (Rand_bind_run _ _ _ _ _ Hpick).
  rewrite Ht.
  rewrite (Rand_bind_run _ _ _ _ _ (lift_run _ _ _ (team_bases_dense ss))).
  cbn zeta.
  set (available :=
         filter (λ s, getBaseSpecies s ∉
                      (list_to_set (getBaseSpecies <$> ss) : gset string))
           pokemonPool).
  destruct (length available =? 0) eqn:Hav.
  { eexists _, _. rewrite mret_run. repeat (split; [done |]). by left. }
  destruct (pick_Some available g1) as (new & g2 & Hnew & Hin).
  { intros Hnil. rewrite Hnil in Hav. done. }
  apply list_elem_of_filter in Hin as [Hfresh Hpool].
  rewrite elem_of_list_to_set in Hfresh.
  rewrite (Rand_bind_run _ _ _ _ _ Hnew).
  cbn [team_assign from_option].
  rewrite array_set_dense by lia.
  rewrite (Rand_bind_run _ _ _ _ _ (lift_run _ _ _ (validate_dense _))).
  case_bool_decide as Hnd; simpl; rewrite mret_run.
  - eexists _, _. split; [done |]. cbn [anchors fitness team].
    split; [done |]. split; [done |]. right. by exists slot, new.
  - eexists _, _. repeat (split; [done |]). by left.
Qed.

Lemma mutate_one_slot_witness :
  ∃ mutated g',
    mutate sample_parent1 sample_pool 1 GBL (constant_source draw_half)
    = Ok (mutated, g')
    ∧ team mutated = [Str "azumarill"; Str "altaria"; Str "skarmory"].
Proof.
  destruct (mutate_one_slot sample_parent1 sample_pool 1 GBL
              (constant_source draw_half)
              ["azumarill"; "medicham"; "skarmory"] eq_refl eq_refl)
    as (mutated & g' & Hrun & _).
  exists mutated, g'. split; [exact Hrun |].
  vm_compute in Hrun. by injection Hrun as <- _.
Defined.
